(** * HoskSaid: transcript ingestion and hybrid retrieval

    A shallow embedding of the TypeScript sources of the ingestion
    pipeline and of the retrieval engine, followed by the properties that
    were checked against them.

    - [src/scripts/ingest.ts]: [ensureChannel], [ingestVideo], [main]; the
      embedding script that follows it in the same file: [splitText].
    - [src/lib/whisper.ts]: [transcribeWithWhisper].
    - [src/lib/llm.ts]: [cleanTranscript], [processTranscript],
      [generateEmbedding]; the transcript helpers that follow it in the
      same file: [fetchTranscript], [groupIntoParagraphs], [createSnippet],
      [cleanTranscriptText].
    - [src/lib/youtube.ts]: [parseDuration].
    - [src/lib/supabase.ts]: [searchVideos].
    - [src/lib/search-server.ts]: [hybridSearch].
    - [src/app/search/page.tsx]: [getSnippet]; the video page:
      [Transcript].
    - the cron endpoint that follows [src/app/api/search/route.ts]: the
      ingestion of one video; the enrichment script: [enrichVideos].

    Conventions.
    - A JavaScript string is the list of its UTF-16 code units ([N]).
    - A JavaScript [number] that holds an index or a count is a [Z].
    - The relational store, the file system and the remote providers are
      explicit state or explicit oracle records; the uniqueness constraints
      of the store are those of the schema ([supabase/migrations]). *)

From Stdlib Require Import ZArith NArith QArith Qround Lia Sorted.
From stdpp Require Import base list strings gmap.

Local Open Scope Z_scope.

(* ===================================================================== *)
(** * Part I: definitions *)
(* ===================================================================== *)

(** ** JavaScript strings *)

Module JS.

(** A UTF-16 code unit. *)
Definition char := N.
Definition jsstring := list N.

(** Code units of an ASCII literal. *)
Definition lit (s : string) : jsstring :=
  map Ascii.N_of_ascii (String.list_ascii_of_string s).

(** [\s] of ECMAScript regular expressions, which is also the set that
    [String.prototype.trim] strips: WhiteSpace and LineTerminator. *)
Definition is_space (c : N) : bool :=
  ((9 <=? c) && (c <=? 13) || (c =? 32) || (c =? 160) || (c =? 5760)
   || (8192 <=? c) && (c <=? 8202) || (c =? 8232) || (c =? 8233)
   || (c =? 8239) || (c =? 8287) || (c =? 12288) || (c =? 65279))%N.

(** [\w]: ASCII letters, digits and underscore. *)
Definition is_word (c : N) : bool :=
  ((48 <=? c) && (c <=? 57) || (65 <=? c) && (c <=? 90)
   || (c =? 95) || (97 <=? c) && (c <=? 122))%N.

Definition SPACE : N := 32%N.
Definition DOT : N := 46%N.

Fixpoint trimStart (s : jsstring) : jsstring :=
  match s with
  | [] => []
  | c :: r => if is_space c then trimStart r else s
  end.

Definition trimEnd (s : jsstring) : jsstring := rev (trimStart (rev s)).

(** [s.trim()] *)
Definition trim (s : jsstring) : jsstring := trimEnd (trimStart s).

(** [s.replace(/\s+/g, ' ')]: every maximal run of white space becomes
    one space; the space is emitted at the last unit of the run. *)
Fixpoint collapse_ws (s : jsstring) : jsstring :=
  match s with
  | [] => []
  | c :: r =>
      if is_space c then
        match r with
        | c' :: _ => if is_space c' then collapse_ws r else SPACE :: collapse_ws r
        | [] => [SPACE]
        end
      else c :: collapse_ws r
  end.

(** Relative index of [slice]/[substring]-like methods: a negative index
    counts from the end, and the result is clamped to [0, len]. *)
Definition rel_index (len i : Z) : Z :=
  if i <? 0 then Z.max (len + i) 0 else Z.min i len.

(** [xs.slice(from, to)] on strings and arrays. *)
Definition slice {A} (xs : list A) (from to : Z) : list A :=
  let len := Z.of_nat (length xs) in
  let k := rel_index len from in
  let final := rel_index len to in
  take (Z.to_nat (final - k)) (drop (Z.to_nat k) xs).

Fixpoint lastIndexOf_from (s : jsstring) (c : N) (i acc : Z) : Z :=
  match s with
  | [] => acc
  | x :: r => lastIndexOf_from r c (i + 1) (if (x =? c)%N then i else acc)
  end.

(** [s.lastIndexOf(c)] for a one-unit needle: [-1] when absent. *)
Definition lastIndexOf (s : jsstring) (c : N) : Z :=
  lastIndexOf_from s c 0 (-1).

(** Does [s] start with the literal [p]? *)
Fixpoint starts_with (p s : jsstring) : bool :=
  match p, s with
  | [], _ => true
  | _ :: _, [] => false
  | a :: p', b :: s' => (a =? b)%N && starts_with p' s'
  end.

End JS.

(** ** Chunker: [splitText] of the embedding script ([src/scripts/ingest.ts]) *)

Module Chunker.
Import JS.

Definition CHUNK_SIZE : Z := 1000.
Definition CHUNK_OVERLAP : Z := 100.
(** The look-ahead of the sentence-boundary search ([end + 50]). *)
Definition LOOKAHEAD : Z := 50.
(** [CHUNK_SIZE * 0.8], which is exactly 800 in double precision. *)
Definition BOUNDARY_FLOOR : Z := 800.

(** The end of the window that starts at [start]. *)
Definition window_end (normalized : jsstring) (start : Z) : Z :=
  let end0 := start + CHUNK_SIZE in
  if end0 <? Z.of_nat (length normalized) then
    let boundary := lastIndexOf (slice normalized start (end0 + LOOKAHEAD)) DOT in
    if boundary >? BOUNDARY_FLOOR then start + boundary + 1 else end0
  else end0.

(** The [while (start < normalized.length)] loop. [None]: the fuel ran
    out before the loop condition became false. *)
Fixpoint splitText_loop (fuel : nat) (normalized : jsstring) (start : Z)
    (chunks : list jsstring) : option (list jsstring) :=
  if start <? Z.of_nat (length normalized) then
    match fuel with
    | O => None
    | S fuel' =>
        let end_ := window_end normalized start in
        splitText_loop fuel' normalized (end_ - CHUNK_OVERLAP)
          (chunks ++ [trim (slice normalized start end_)])
    end
  else Some chunks.

Definition normalize_ws (text : jsstring) : jsstring := trim (collapse_ws text).

Definition splitText (fuel : nat) (text : jsstring) : option (list jsstring) :=
  match text with
  | [] => Some []
  | _ => splitText_loop fuel (normalize_ws text) 0 []
  end.

(** Ghost view of the same loop: the windows [(start, end)] it cuts,
    before they are sliced and trimmed. *)
Fixpoint windows_loop (fuel : nat) (normalized : jsstring) (start : Z)
    : option (list (Z * Z)) :=
  if start <? Z.of_nat (length normalized) then
    match fuel with
    | O => None
    | S fuel' =>
        let end_ := window_end normalized start in
        cons (start, end_) <$> windows_loop fuel' normalized (end_ - CHUNK_OVERLAP)
    end
  else Some [].

(** The untrimmed text of a window. *)
Definition window_text (normalized : jsstring) (w : Z * Z) : jsstring :=
  slice normalized w.1 w.2.

(** Concatenation of consecutive pieces with the overlap removed from
    every piece but the first. *)
Definition stitch (pieces : list jsstring) : jsstring :=
  match pieces with
  | [] => []
  | p :: ps => p ++ concat (map (drop (Z.to_nat CHUNK_OVERLAP)) ps)
  end.

(** The overlap of consecutive windows. A window starts [CHUNK_OVERLAP]
    units before the end index of its predecessor, and that start lies
    inside the text. The end index of the predecessor may lie past the end
    of the text ([slice] stops there), so the units the two window texts
    share are [shared], the text between the start of the successor and
    the end of the predecessor: the text of the predecessor ends with
    them, the text of the successor starts with them, and they are
    [CHUNK_OVERLAP] units or, when the text ends before, what is left of
    the text from the start of the successor. *)
Fixpoint overlapping (normalized : jsstring) (ws : list (Z * Z)) : Prop :=
  match ws with
  | w1 :: (w2 :: _) as rest =>
      let shared := slice normalized w2.1 w1.2 in
      w2.1 = w1.2 - CHUNK_OVERLAP
      /\ w2.1 < Z.of_nat (length normalized)
      /\ window_text normalized w1 = slice normalized w1.1 w2.1 ++ shared
      /\ window_text normalized w2 = shared ++ slice normalized w1.2 w2.2
      /\ Z.of_nat (length shared)
         = Z.min CHUNK_OVERLAP (Z.of_nat (length normalized) - w2.1)
      /\ overlapping normalized rest
  | _ => True
  end.

End Chunker.

(** ** Text normalizer: [cleanTranscriptText] of the transcript helpers
       ([src/lib/llm.ts]) *)

Module Normalizer.
Import JS.

(** [s.replace(re, r)] for a global regular expression whose matches are
    never empty. [m prev s] is the length of the match of [re] that starts
    where [s] starts, [prev] being the code unit just before it in the
    subject (what [\b] looks at); the scan restarts after each match. *)
Fixpoint replace_all (m : option N -> jsstring -> option nat) (r : jsstring)
    (prev : option N) (skip : nat) (s : jsstring) : jsstring :=
  match s with
  | [] => []
  | c :: rest =>
      match skip with
      | S k => replace_all m r (Some c) k rest
      | O =>
          match m prev s with
          | Some (S n) => r ++ replace_all m r (Some c) n rest
          | _ => c :: replace_all m r (Some c) O rest
          end
      end
  end.

Definition replace (m : option N -> jsstring -> option nat) (r s : jsstring) : jsstring :=
  replace_all m r None O s.

(** A literal pattern. *)
Definition m_lit (p : jsstring) (_ : option N) (s : jsstring) : option nat :=
  if starts_with p s then Some (length p) else None.

(** The eleven entity replacements, in the order of the source. *)
Definition entities : list (string * string) :=
  [ ("&amp;#39;", "'"); ("&amp;quot;", String (Ascii.ascii_of_nat 34) EmptyString);
    ("&amp;amp;", "&"); ("&amp;lt;", "<"); ("&amp;gt;", ">");
    ("&#39;", "'"); ("&quot;", String (Ascii.ascii_of_nat 34) EmptyString);
    ("&amp;", "&"); ("&lt;", "<"); ("&gt;", ">"); ("&nbsp;", " ") ]%string.

Definition decode_entities (text : jsstring) : jsstring :=
  fold_left (fun acc e => replace (m_lit (lit e.1)) (lit e.2) acc) entities text.

(** Case folding of the [i] flag (without [u]): against an ASCII pattern
    only the ASCII letters fold. *)
Definition upper (c : N) : N :=
  if ((97 <=? c) && (c <=? 122))%N then (c - 32)%N else c.

Fixpoint starts_with_ci (p s : jsstring) : bool :=
  match p, s with
  | [], _ => true
  | _ :: _, [] => false
  | a :: p', b :: s' => (upper a =? upper b)%N && starts_with_ci p' s'
  end.

Definition next_is_word (s : jsstring) : bool :=
  match s with c :: _ => is_word c | [] => false end.

(** [\b] between [prev] and the head of [s]. *)
Definition word_boundary (prev : option N) (s : jsstring) : bool :=
  xorb (from_option is_word false prev) (next_is_word s).

(** Length of the greedy match of [[,.]?] at the head of [s]. *)
Definition punct_len (s : jsstring) : nat :=
  match s with
  | c :: _ => if ((c =? 44) || (c =? 46))%N then 1 else 0
  | [] => 0
  end.

(** Length of the greedy match of [\s*] at the head of [s]. *)
Fixpoint spaces_len (s : jsstring) : nat :=
  match s with
  | c :: r => if is_space c then S (spaces_len r) else 0
  | [] => 0
  end.

(** A word of an alternation, matched case-insensitively and followed by
    [\b]; the words are made of word characters. *)
Definition word_here (s : jsstring) (w : string) : bool :=
  starts_with_ci (lit w) s && negb (next_is_word (drop (length (lit w)) s)).

(** [/\b(um|uh|er|ah)\b[,.]?\s*/gi] *)
Definition m_filler (prev : option N) (s : jsstring) : option nat :=
  if word_boundary prev s && existsb (word_here s) ["um"; "uh"; "er"; "ah"]%string then
    let s1 := drop 2 s in
    let p := punct_len s1 in
    Some (2 + p + spaces_len (drop p s1))%nat
  else None.

(** [/\byou know[,.]?\s*/gi] *)
Definition m_you_know (prev : option N) (s : jsstring) : option nat :=
  if word_boundary prev s && starts_with_ci (lit "you know") s then
    let s1 := drop 8 s in
    let p := punct_len s1 in
    Some (8 + p + spaces_len (drop p s1))%nat
  else None.

(** [/\blike\b[,.]?\s+(?=\b(um|uh|I|we|they|he|she|it|you|so|and|but|the|a|an)\b)/gi].
    The greedy choices are the only ones that can succeed: after fewer
    white-space units the look-ahead would start on white space, and
    without the optional punctuation [\s+] would start on it. *)
Definition m_like (prev : option N) (s : jsstring) : option nat :=
  if word_boundary prev s && word_here s "like" then
    let s1 := drop 4 s in
    let p := punct_len s1 in
    let s2 := drop p s1 in
    let k := spaces_len s2 in
    let s3 := drop k s2 in
    if (0 <? k)%nat && next_is_word s3
       && existsb (word_here s3)
            ["um"; "uh"; "I"; "we"; "they"; "he"; "she"; "it"; "you"; "so";
             "and"; "but"; "the"; "a"; "an"]%string
    then Some (4 + p + k)%nat
    else None
  else None.

Definition remove_fillers (text : jsstring) : jsstring :=
  replace m_like [] (replace m_you_know [] (replace m_filler [] text)).

(** [[.!?]] *)
Definition is_term (c : N) : bool := ((c =? 46) || (c =? 33) || (c =? 63))%N.

(** Scanner state of [cleaned.match(/[^.!?]+[.!?]+\s*/g)]. *)
Inductive scan :=
| Skip                      (* no match in progress *)
| Body (acc : jsstring)     (* inside [[^.!?]+] *)
| Terms (acc : jsstring)    (* inside [[.!?]+] *)
| Spaces (acc : jsstring).  (* inside [\s*] *)

(** All matches of [/[^.!?]+[.!?]+\s*/g], left to right. A terminator met
    while no match is in progress cannot start one and is passed over; a
    body that reaches the end of the text without a terminator is no
    match. *)
Fixpoint match_sentences (st : scan) (s : jsstring) : list jsstring :=
  match s with
  | [] =>
      match st with
      | Skip | Body _ => []
      | Terms acc | Spaces acc => [acc]
      end
  | c :: r =>
      match st with
      | Skip => if is_term c then match_sentences Skip r else match_sentences (Body [c]) r
      | Body acc =>
          if is_term c then match_sentences (Terms (acc ++ [c])) r
          else match_sentences (Body (acc ++ [c])) r
      | Terms acc =>
          if is_term c then match_sentences (Terms (acc ++ [c])) r
          else if is_space c then match_sentences (Spaces (acc ++ [c])) r
          else acc :: match_sentences (Body [c]) r
      | Spaces acc =>
          if is_space c then match_sentences (Spaces (acc ++ [c])) r
          else if is_term c then acc :: match_sentences Skip r
          else acc :: match_sentences (Body [c]) r
      end
  end.

(** [cleaned.match(...) || [cleaned]] *)
Definition sentences_of (cleaned : jsstring) : list jsstring :=
  match match_sentences Skip cleaned with
  | [] => [cleaned]
  | l => l
  end.

(** The [for (let i = 0; i < sentences.length; i += n)] loop; it runs at
    most [sentences.length] times because [n > 0]. *)
Fixpoint paragraphs_loop (fuel : nat) (sentences : list jsstring) (n i : Z)
    (paragraphs : list jsstring) : list jsstring :=
  match fuel with
  | O => paragraphs
  | S fuel' =>
      if i <? Z.of_nat (length sentences) then
        let paragraph := trim (concat (slice sentences i (i + n))) in
        paragraphs_loop fuel' sentences n (i + n)
          (match paragraph with [] => paragraphs | _ => paragraphs ++ [paragraph] end)
      else paragraphs
  end.

(** [parts.join(sep)] *)
Fixpoint join (sep : jsstring) (parts : list jsstring) : jsstring :=
  match parts with
  | [] => []
  | [p] => p
  | p :: ps => p ++ sep ++ join sep ps
  end.

Record options := {
  removeFillers : bool;
  addParagraphs : bool;
  sentencesPerParagraph : Z
}.

Definition default_options : options :=
  {| removeFillers := true; addParagraphs := true; sentencesPerParagraph := 4 |}.

Definition cleanTranscriptText (text : jsstring) (o : options) : jsstring :=
  let cleaned := decode_entities text in
  let cleaned := if removeFillers o then remove_fillers cleaned else cleaned in
  let cleaned := trim (collapse_ws cleaned) in
  if addParagraphs o && (sentencesPerParagraph o >? 0) then
    let sentences := sentences_of cleaned in
    join [10; 10]%N
      (paragraphs_loop (length sentences) sentences (sentencesPerParagraph o) 0 [])
  else cleaned.

(** A text in which white space only occurs as single U+0020 units. *)
Fixpoint normal (s : jsstring) : Prop :=
  match s with
  | [] => True
  | c :: r =>
      (is_space c = true ->
       c = SPACE /\ match r with c' :: _ => is_space c' = false | [] => True end)
      /\ normal r
  end.

(** A text that neither starts nor ends with white space. *)
Definition trimmed (s : jsstring) : Prop :=
  trimStart s = s /\ trimStart (rev s) = rev s.

End Normalizer.

(** ** Shared vocabulary of the pipeline *)

Module Model.

(** A database uuid; only its identity matters. *)
Definition uuid := N.

(** What an awaited call does: it returns or it throws. *)
Inductive outcome (A : Type) :=
| Returned (a : A)
| Thrown (error : string).
Arguments Returned {A} a.
Arguments Thrown {A} error.

(** [TranscriptResult['source']] of the transcript helpers, which is also
    the CHECK constraint of [transcripts.source]. *)
Inductive Source := youtube_captions | extractor | whisper.

(** The string of each tag, as it is written to the store. *)
Definition source_tag (s : Source) : string :=
  match s with
  | youtube_captions => "youtube_captions"
  | extractor => "extractor"
  | whisper => "whisper"
  end.

Record TranscriptSegment := {
  seg_text : JS.jsstring;
  seg_offset : Z;    (* milliseconds *)
  seg_duration : Z   (* milliseconds *)
}.

Record TranscriptResult := {
  text : JS.jsstring;
  segments : list TranscriptSegment;
  source : Source
}.

(** [Math.round], on numbers taken as rationals: half-way cases go up. *)
Definition Math_round (x : Q) : Z := Qfloor (x + (1 # 2))%Q.

End Model.

(** ** Transcript acquisition: [fetchTranscript], [transcribeWithWhisper]
       and the fallback of [ingestVideo] *)

Module Acquire.
Import JS Model Normalizer.

(** A segment as the caption package returns it. *)
Record CaptionSegment := {
  cap_text : jsstring;
  cap_offset : Q;
  cap_duration : Q
}.

(** A segment of the speech-to-text response ([verbose_json]). *)
Record WhisperSegment := {
  ws_text : jsstring;
  ws_start : Q;   (* seconds *)
  ws_end : Q      (* seconds *)
}.

Record WhisperResponse := {
  resp_text : jsstring;                  (* empty when absent *)
  resp_segments : list WhisperSegment    (* empty when absent *)
}.

(** What the process does to its surroundings, in order. *)
Inductive Event :=
| Exec (command : string)           (* [execSync] *)
| Unlink (path : string)            (* [fs.unlinkSync] *)
| Transcribe (path : string).       (* [client.audio.transcriptions.create] *)

(** The machine: the files (with their size in bytes) and what was done. *)
Record World := {
  files : gmap string N;
  events : list Event
}.

(** The surroundings of the acquisition: the caption package, the
    downloader, the temporary directory and the speech-to-text provider. *)
Record Env := {
  (** [YoutubeTranscript.fetchTranscript]; an absent result is [[]] *)
  captions : string -> outcome (list CaptionSegment);
  (** [os.tmpdir()] *)
  tmpdir : string;
  (** does [yt-dlp --version] exit normally? *)
  ytdlp_installed : bool;
  (** the download: the files it leaves, and whether it exits normally *)
  ytdlp_download : string -> gmap string N -> gmap string N * bool;
  (** is [OPENAI_API_KEY] set, so that [getClient] returns? *)
  api_key_set : bool;
  (** the speech-to-text call on the file at a path *)
  whisper_api : string -> outcome WhisperResponse
}.

(** [fetchTranscript(videoId)] *)
Definition fetchTranscript (env : Env) (videoId : string) : option TranscriptResult :=
  match captions env videoId with
  | Thrown _ => None
  | Returned [] => None
  | Returned segs =>
      let transcriptSegments :=
        map (fun seg => {| seg_text := cap_text seg;
                           seg_offset := Math_round (cap_offset seg);
                           seg_duration := Math_round (cap_duration seg) |}) segs in
      let fullText := join [SPACE] (map seg_text transcriptSegments) in
      Some {| text := fullText; segments := transcriptSegments; source := extractor |}
  end.

(** [path.join(tempDir, `hosksaid_${videoId}.mp3`)] *)
Definition expectedFile (env : Env) (videoId : string) : string :=
  (tmpdir env +:+ "/hosksaid_" +:+ videoId +:+ ".mp3")%string.

(** The double quote that encloses the output template in the command. *)
Definition DQUOTE : string := String (Ascii.ascii_of_nat 34) EmptyString.

(** The download command, the output template
    [path.join(tempDir, `hosksaid_${videoId}.%(ext)s`)] between double
    quotes. *)
Definition download_command (env : Env) (videoId : string) : string :=
  ("yt-dlp -x --audio-format mp3 --audio-quality 5 -o " +:+ DQUOTE +:+ tmpdir env
   +:+ "/hosksaid_" +:+ videoId +:+ ".%(ext)s" +:+ DQUOTE
   +:+ " https://www.youtube.com/watch?v=" +:+ videoId)%string.

(** The ceiling: [stats.size / (1024 * 1024) > 24]. The division by a
    power of two is exact, so the test is one on the size in bytes. *)
Definition MAX_BYTES : N := (24 * 1024 * 1024)%N.

Definition too_large (size : N) : bool := (MAX_BYTES <? size)%N.

Definition record (e : Event) (w : World) : World :=
  {| files := files w; events := events w ++ [e] |}.

Definition unlinkSync (path : string) (w : World) : World :=
  {| files := delete path (files w); events := events w ++ [Unlink path] |}.

(** The [catch] block: remove the scratch file if it is there. *)
Definition cleanup_on_error (env : Env) (videoId : string) (w : World) : World :=
  match files w !! expectedFile env videoId with
  | Some _ => unlinkSync (expectedFile env videoId) w
  | None => w
  end.

(** The result built from the response. The times of a segment are
    taken as rationals and the products by 1000 are exact; the source
    rounds the products of doubles, which can differ by one millisecond
    where the exact product is within a rounding error of a half. Every
    segment of a [WhisperResponse] carries its text. *)
Definition parse_response (response : WhisperResponse) : TranscriptResult :=
  let manualSegments :=
    map (fun seg => {| seg_text := trim (ws_text seg);
                       seg_offset := Math_round (ws_start seg * 1000);
                       seg_duration := Math_round ((ws_end seg - ws_start seg) * 1000) |})
        (resp_segments response) in
  let fullText :=
    match resp_text response with
    | [] => join [SPACE] (map seg_text manualSegments)
    | t => t
    end in
  {| text := fullText; segments := manualSegments; source := whisper |}.

(** [transcribeWithWhisper(videoId)] *)
Definition transcribeWithWhisper (env : Env) (videoId : string) (w : World)
    : World * option TranscriptResult :=
  let w := record (Exec "yt-dlp --version") w in
  if negb (ytdlp_installed env) then (w, None)
  else
    let '(files', ok) := ytdlp_download env videoId (files w) in
    let w := {| files := files';
                events := events w ++ [Exec (download_command env videoId)] |} in
    if negb ok then (cleanup_on_error env videoId w, None)
    else
      match files w !! expectedFile env videoId with
      | None => (w, None)
      | Some size =>
          if too_large size then (unlinkSync (expectedFile env videoId) w, None)
          else if negb (api_key_set env) then (cleanup_on_error env videoId w, None)
          else
            let w := record (Transcribe (expectedFile env videoId)) w in
            match whisper_api env (expectedFile env videoId) with
            | Thrown _ => (cleanup_on_error env videoId w, None)
            | Returned response =>
                (unlinkSync (expectedFile env videoId) w, Some (parse_response response))
            end
      end.

(** The acquisition of [ingestVideo]: the caption package first, the
    audio transcription when it gave nothing. *)
Definition acquire (env : Env) (ytVideoId : string) (w : World)
    : World * option TranscriptResult :=
  match fetchTranscript env ytVideoId with
  | Some transcriptResult => (w, Some transcriptResult)
  | None => transcribeWithWhisper env ytVideoId w
  end.

End Acquire.

(** A concrete environment for the acquisition: no captions, a working
    downloader that leaves an audio file of [size] bytes, and a provider
    that answers with a text. *)

Module AcquireSample.
Import JS Model Acquire.

Definition response : WhisperResponse :=
  {| resp_text := lit "hello there"; resp_segments := [] |}.

Definition env (size : N) : Env :=
  {| captions := fun _ => Returned [];
     tmpdir := "/tmp";
     ytdlp_installed := true;
     ytdlp_download := fun videoId fs =>
       (<[("/tmp/hosksaid_" +:+ videoId +:+ ".mp3")%string := size]> fs, true);
     api_key_set := true;
     whisper_api := fun _ => Returned response |}.

Definition world0 : World := {| files := ∅; events := [] |}.

Definition MB : N := (1024 * 1024)%N.

End AcquireSample.

(** ** Ingestion orchestrator: [ingestVideo] of [src/scripts/ingest.ts]
       and [processTranscript] of [src/lib/llm.ts] *)

Module Ingest.
Import JS Model Acquire.

(** [Video['status']] and [Transcript['processing_status']] *)
Inductive Status := pending | processing | completed | failed.

Global Instance Status_eq_dec : EqDecision Status.
Proof. solve_decision. Defined.

(** The video as the listing provider describes it ([YouTubeVideo]). *)
Record YouTubeVideo := {
  yv_id : string;
  yv_title : jsstring;
  yv_description : jsstring;
  yv_publishedAt : string;
  yv_thumbnailUrl : string;
  yv_duration : string;    (* ISO 8601 *)
  yv_viewCount : Z
}.

(** Rows of the tables of the schema. Columns filled by the store alone
    ([created_at], [updated_at]) are left out. *)
Record VideoRow := {
  v_id : uuid;
  v_channel_id : uuid;
  v_youtube_id : string;     (* UNIQUE *)
  v_title : jsstring;
  v_description : jsstring;
  v_published_at : string;
  v_duration_seconds : Z;
  v_thumbnail_url : string;
  v_view_count : Z;
  v_status : Status
}.

Record TranscriptRow := {
  t_id : uuid;
  t_video_id : uuid;         (* UNIQUE *)
  t_raw_text : jsstring;
  t_cleaned_text : jsstring;
  t_summary : option jsstring;
  t_source : Source;
  t_processing_status : Status
}.

Record TagRow := {
  tag_id : uuid;
  tag_name : jsstring        (* UNIQUE *)
}.

(** An element of the array that [generateTags] returns: the parsed JSON
    is only checked to be an array, so an element need not be a string. *)
Inductive TagValue :=
| TagString (name : jsstring)
| TagOther.

(** The [details] object of a log entry. *)
Inductive Details :=
| NoDetails
| ErrorDetails (error : string)
| SourceDetails (source : Source) (length : Z)
| TagsDetails (tags : list TagValue).

Record LogRow := {
  log_video_id : uuid;
  log_step : string;
  log_status : string;
  log_details : Details
}.

(** The payload of [transcripts.upsert]; the store adds the [id]. *)
Record TranscriptPayload := {
  p_video_id : uuid;
  p_raw_text : jsstring;
  p_cleaned_text : jsstring;
  p_summary : option jsstring;
  p_source : Source;
  p_processing_status : Status
}.

(** A write request, as the orchestrator sends it to the store. *)
Inductive Write :=
| WVideoInsert (row : VideoRow)
| WVideoStatus (id : uuid) (status : Status)
| WLog (row : LogRow)
| WTranscriptUpsert (payload : TranscriptPayload)
| WTagUpsert (name : jsstring)
| WVideoTagUpsert (video_id tag_id : uuid).

(** The relational store. [video_tags] has the pair as its primary key.
    [journal] is the sequence of the write requests received so far. *)
Record Store := {
  videos : list VideoRow;
  transcripts : list TranscriptRow;
  tags : list TagRow;
  video_tags : list (uuid * uuid);
  ingestion_logs : list LogRow;
  next_uuid : uuid;                 (* [gen_random_uuid()] *)
  journal : list Write
}.

(** The services around the orchestrator. *)
Record Services := {
  acquisition : Acquire.Env;
  (** [getVideo] of [src/lib/youtube.ts] *)
  getVideo : string -> outcome (option YouTubeVideo);
  (** [parseDuration] of [src/lib/youtube.ts] *)
  parseDuration : string -> Z;
  (** the three language-model calls of [src/lib/llm.ts] *)
  cleanTranscript : jsstring -> outcome jsstring;
  generateSummary : jsstring -> outcome jsstring;
  generateTags : jsstring -> outcome (list TagValue);
  (** [String.prototype.toLowerCase] *)
  toLowerCase : jsstring -> jsstring
}.

Record Processed := {
  cleanedText : jsstring;
  summary : jsstring;
  tags_of : list TagValue
}.

(** [processTranscript(rawText)]: cleaning first, then summary and tags
    together ([Promise.all] rejects as soon as one of them does). *)
Definition processTranscript (sv : Services) (rawText : jsstring) : outcome Processed :=
  match cleanTranscript sv rawText with
  | Thrown e => Thrown e
  | Returned cleaned =>
      match generateSummary sv cleaned, generateTags sv cleaned with
      | Returned s, Returned t =>
          Returned {| cleanedText := cleaned; summary := s; tags_of := t |}
      | Thrown e, _ => Thrown e
      | _, Thrown e => Thrown e
      end
  end.

(** The state the orchestrator runs in: the store and the machine. *)
Record State := {
  db : Store;
  sys : World
}.

(** State-passing computations. *)
Definition M (A : Type) : Type := State -> A * State.

Definition ret {A} (a : A) : M A := fun st => (a, st).

Definition bind {A B} (m : M A) (k : A -> M B) : M B :=
  fun st => let '(a, st') := m st in k a st'.

Declare Scope ingest_scope.
Delimit Scope ingest_scope with ingest.
Notation "x <- m ;; k" := (bind m (fun x => k))
  (at level 100, m at next level, right associativity) : ingest_scope.
Notation "m ;; k" := (bind m (fun _ => k))
  (at level 100, right associativity) : ingest_scope.

Definition read {A} (f : Store -> A) : M A := fun st => (f (db st), st).

Definition write_db (w : Write) (f : Store -> Store) : M unit :=
  fun st =>
    let s := f (db st) in
    (tt, {| db := {| videos := videos s; transcripts := transcripts s; tags := tags s;
                     video_tags := video_tags s; ingestion_logs := ingestion_logs s;
                     next_uuid := next_uuid s; journal := journal s ++ [w] |};
            sys := sys st |}).

(** [.single()]: the row when there is exactly one. *)
Definition single {A} (rows : list A) : option A :=
  match rows with
  | [r] => Some r
  | _ => None
  end.

(** [from('videos').select('id, status').eq('youtube_id', ytVideoId).single()] *)
Definition select_video (ytVideoId : string) (s : Store) : option VideoRow :=
  single (filter (fun v => v_youtube_id v = ytVideoId) (videos s)).

(** [from('videos').update({ status }).eq('id', videoDbId)] *)
Definition set_status (videoDbId : uuid) (status : Status) (s : Store) : Store :=
  {| videos :=
       map (fun v =>
              if decide (v_id v = videoDbId) then
                {| v_id := v_id v; v_channel_id := v_channel_id v;
                   v_youtube_id := v_youtube_id v; v_title := v_title v;
                   v_description := v_description v; v_published_at := v_published_at v;
                   v_duration_seconds := v_duration_seconds v;
                   v_thumbnail_url := v_thumbnail_url v; v_view_count := v_view_count v;
                   v_status := status |}
              else v) (videos s);
     transcripts := transcripts s; tags := tags s; video_tags := video_tags s;
     ingestion_logs := ingestion_logs s; next_uuid := next_uuid s;
     journal := journal s |}.

Definition update_video_status (videoDbId : uuid) (status : Status) : M unit :=
  write_db (WVideoStatus videoDbId status) (set_status videoDbId status).

(** [from('videos').insert({...}).select().single()]: the new row gets a
    fresh [id]; a second row with the same [youtube_id] is refused. The
    other checks of the table (the range of the INTEGER columns, the
    foreign key of [channel_id]) are left out. *)
Definition insert_video (sv : Services) (channelDbId : uuid) (videoInfo : YouTubeVideo)
    : M (outcome uuid) :=
  fun st =>
    let s := db st in
    let row := {| v_id := next_uuid s; v_channel_id := channelDbId;
                  v_youtube_id := yv_id videoInfo; v_title := yv_title videoInfo;
                  v_description := yv_description videoInfo;
                  v_published_at := yv_publishedAt videoInfo;
                  v_duration_seconds := parseDuration sv (yv_duration videoInfo);
                  v_thumbnail_url := yv_thumbnailUrl videoInfo;
                  v_view_count := yv_viewCount videoInfo;
                  v_status := processing |} in
    if decide (yv_id videoInfo ∈ map v_youtube_id (videos s)) then
      (Thrown "duplicate key value violates unique constraint",
       {| db := {| videos := videos s; transcripts := transcripts s; tags := tags s;
                   video_tags := video_tags s; ingestion_logs := ingestion_logs s;
                   next_uuid := next_uuid s; journal := journal s ++ [WVideoInsert row] |};
          sys := sys st |})
    else
      (Returned (next_uuid s),
       {| db := {| videos := videos s ++ [row]; transcripts := transcripts s;
                   tags := tags s; video_tags := video_tags s;
                   ingestion_logs := ingestion_logs s;
                   next_uuid := (next_uuid s + 1)%N;
                   journal := journal s ++ [WVideoInsert row] |};
          sys := sys st |}).

(** The [log] closure: [from('ingestion_logs').insert({...})] *)
Definition log (videoDbId : uuid) (step status : string) (details : Details) : M unit :=
  let row := {| log_video_id := videoDbId; log_step := step; log_status := status;
                log_details := details |} in
  write_db (WLog row)
    (fun s => {| videos := videos s; transcripts := transcripts s; tags := tags s;
                 video_tags := video_tags s;
                 ingestion_logs := ingestion_logs s ++ [row];
                 next_uuid := next_uuid s; journal := journal s |}).

(** [from('transcripts').upsert({...})] without [onConflict]: the conflict
    target is the primary key [id], which the payload does not carry, so
    the request is an insert with a fresh [id]; when the video already has
    a transcript the UNIQUE constraint of [video_id] refuses it, and the
    orchestrator does not look at the error. *)
Definition upsert_transcript (p : TranscriptPayload) : M unit :=
  write_db (WTranscriptUpsert p)
    (fun s =>
       if decide (p_video_id p ∈ map t_video_id (transcripts s)) then s
       else
         {| videos := videos s;
            transcripts := transcripts s ++
              [{| t_id := next_uuid s; t_video_id := p_video_id p;
                  t_raw_text := p_raw_text p; t_cleaned_text := p_cleaned_text p;
                  t_summary := p_summary p; t_source := p_source p;
                  t_processing_status := p_processing_status p |}];
            tags := tags s; video_tags := video_tags s;
            ingestion_logs := ingestion_logs s;
            next_uuid := (next_uuid s + 1)%N; journal := journal s |}).

Definition find_tag (name : jsstring) (ts : list TagRow) : option TagRow :=
  List.find (fun t => bool_decide (tag_name t = name)) ts.

(** [from('tags').upsert({ name }, { onConflict: 'name' }).select().single()]:
    the row of that name, created when it is missing. *)
Definition upsert_tag (name : jsstring) : M TagRow :=
  fun st =>
    let s := db st in
    match find_tag name (tags s) with
    | Some t =>
        (t, {| db := {| videos := videos s; transcripts := transcripts s; tags := tags s;
                        video_tags := video_tags s; ingestion_logs := ingestion_logs s;
                        next_uuid := next_uuid s; journal := journal s ++ [WTagUpsert name] |};
               sys := sys st |})
    | None =>
        let t := {| tag_id := next_uuid s; tag_name := name |} in
        (t, {| db := {| videos := videos s; transcripts := transcripts s;
                        tags := tags s ++ [t];
                        video_tags := video_tags s; ingestion_logs := ingestion_logs s;
                        next_uuid := (next_uuid s + 1)%N;
                        journal := journal s ++ [WTagUpsert name] |};
               sys := sys st |})
    end.

(** [from('video_tags').upsert({ video_id, tag_id })]: the conflict target
    is the primary key, the pair itself. *)
Definition upsert_video_tag (videoDbId tagId : uuid) : M unit :=
  write_db (WVideoTagUpsert videoDbId tagId)
    (fun s =>
       if decide ((videoDbId, tagId) ∈ video_tags s) then s
       else
         {| videos := videos s; transcripts := transcripts s; tags := tags s;
            video_tags := video_tags s ++ [(videoDbId, tagId)];
            ingestion_logs := ingestion_logs s;
            next_uuid := next_uuid s; journal := journal s |}).

Local Open Scope ingest_scope.

(** The [for (const tagName of tags)] loop. An element that is not a
    string makes [tagName.toLowerCase()] throw. [TagOther] stands for a
    value without that method, such as a number or an object, and the
    text of the error is the one for such a value (for [null] the engine
    words the TypeError differently). *)
Fixpoint save_tags (sv : Services) (videoDbId : uuid) (tags : list TagValue)
    : M (outcome unit) :=
  match tags with
  | [] => ret (Returned tt)
  | TagOther :: _ => ret (Thrown "TypeError: tagName.toLowerCase is not a function")
  | TagString tagName :: rest =>
      tag <- upsert_tag (toLowerCase sv tagName) ;;
      upsert_video_tag videoDbId (tag_id tag) ;;
      save_tags sv videoDbId rest
  end.

(** The acquisition, run on the machine of the state. *)
Definition run_acquire (sv : Services) (ytVideoId : string) : M (option TranscriptResult) :=
  fun st =>
    let '(w, r) := acquire (acquisition sv) ytVideoId (sys st) in
    (r, {| db := db st; sys := w |}).

(** What an ingestion returns: [{ skipped }], [{ failed, error }],
    [{ success }], or an exception that leaves [ingestVideo]. *)
Inductive IngestResult :=
| Skipped
| Failed (error : string)
| Success
| Uncaught (error : string).

(** The enrichment of [ingestVideo]: the cleaned text, the summary and
    the tags that go on. *)
Definition enrich (sv : Services) (videoDbId : uuid) (skipLlmProcessing : bool)
    (transcriptResult : TranscriptResult) : M (jsstring * jsstring * list TagValue) :=
  if negb skipLlmProcessing then
    log videoDbId "llm_processing" "started" NoDetails ;;
    match processTranscript sv (text transcriptResult) with
    | Returned processed =>
        log videoDbId "llm_processing" "completed" (TagsDetails (tags_of processed)) ;;
        ret (cleanedText processed, summary processed, tags_of processed)
    | Thrown llmError =>
        log videoDbId "llm_processing" "failed" (ErrorDetails llmError) ;;
        ret (text transcriptResult, [], [])
    end
  else ret (text transcriptResult, [], []).

(** The body of the [try] block. *)
Definition try_block (sv : Services) (videoDbId : uuid) (ytVideoId : string)
    (skipLlmProcessing : bool) : M (outcome IngestResult) :=
  log videoDbId "fetch_transcript" "started" NoDetails ;;
  transcriptResult <- run_acquire sv ytVideoId ;;
  match transcriptResult with
  | None =>
      log videoDbId "fetch_transcript" "failed" (ErrorDetails "No transcript found") ;;
      update_video_status videoDbId failed ;;
      ret (Returned (Failed "No transcript"))
  | Some transcriptResult =>
      log videoDbId "fetch_transcript" "completed"
        (SourceDetails (source transcriptResult)
                       (Z.of_nat (length (text transcriptResult)))) ;;
      enriched <- enrich sv videoDbId skipLlmProcessing transcriptResult ;;
      let '(cleaned, summary, tags) := enriched in
      upsert_transcript
        {| p_video_id := videoDbId;
           p_raw_text := text transcriptResult;
           p_cleaned_text := cleaned;
           p_summary := match summary with [] => None | _ => Some summary end;
           p_source := source transcriptResult;
           p_processing_status := completed |} ;;
      saved <- save_tags sv videoDbId tags ;;
      match saved with
      | Thrown error => ret (Thrown error)
      | Returned _ =>
          update_video_status videoDbId completed ;;
          ret (Returned Success)
      end
  end.

(** The [try] with its [catch]. *)
Definition process_video (sv : Services) (videoDbId : uuid) (ytVideoId : string)
    (skipLlmProcessing : bool) : M IngestResult :=
  r <- try_block sv videoDbId ytVideoId skipLlmProcessing ;;
  match r with
  | Returned result => ret result
  | Thrown error =>
      log videoDbId "error" "failed" (ErrorDetails error) ;;
      update_video_status videoDbId failed ;;
      ret (Failed error)
  end.

(** [ingestVideo(supabase, channelDbId, ytVideoId, skipLlmProcessing)] *)
Definition ingestVideo (sv : Services) (channelDbId : uuid) (ytVideoId : string)
    (skipLlmProcessing : bool) : M IngestResult :=
  existing <- read (select_video ytVideoId) ;;
  if decide (v_status <$> existing = Some completed) then ret Skipped
  else
    match getVideo sv ytVideoId with
    | Thrown error => ret (Uncaught error)
    | Returned None => ret (Failed "Video not found")
    | Returned (Some videoInfo) =>
        match existing with
        | Some row =>
            update_video_status (v_id row) processing ;;
            process_video sv (v_id row) ytVideoId skipLlmProcessing
        | None =>
            inserted <- insert_video sv channelDbId videoInfo ;;
            match inserted with
            | Thrown error => ret (Uncaught error)
            | Returned videoDbId =>
                process_video sv videoDbId ytVideoId skipLlmProcessing
            end
        end
    end.

End Ingest.

(** ** Vocabulary of the properties of the orchestrator *)

Module IngestSpec.
Import JS Model Acquire Ingest.

(** One of the three language-model calls of the enrichment fails. *)
Definition enrichment_fails (sv : Services) (rawText : jsstring) : Prop :=
  (exists e, cleanTranscript sv rawText = Thrown e)
  \/ (exists cleaned,
        cleanTranscript sv rawText = Returned cleaned
        /\ ((exists e, generateSummary sv cleaned = Thrown e)
            \/ (exists e, generateTags sv cleaned = Thrown e))).

(** The log entry of a step and a status. *)
Definition entry (videoDbId : uuid) (step status : string) (details : Details) : LogRow :=
  {| log_video_id := videoDbId; log_step := step; log_status := status;
     log_details := details |}.

(** The steps and outcomes of the log writes of a journal, in order. *)
Definition log_trail (j : list Write) : list (string * string) :=
  omap (fun w => match w with
                 | WLog r => Some (log_step r, log_status r)
                 | _ => None
                 end) j.

(** A write of the tag-linking step. *)
Definition is_tag_write (w : Write) : Prop :=
  match w with
  | WTagUpsert _ | WVideoTagUpsert _ _ => True
  | _ => False
  end.

(** What a journal holds after its first transcript upsert. *)
Fixpoint after_transcript_upsert (j : list Write) : list Write :=
  match j with
  | [] => []
  | WTranscriptUpsert _ :: rest => rest
  | _ :: rest => after_transcript_upsert rest
  end.

(** The uniqueness constraints of the schema on tags and on the join. *)
Definition tags_unique (s : Store) : Prop :=
  NoDup (map tag_name (tags s)) /\ NoDup (video_tags s).

(** The shape of the writes of [process_video]: the log entries bracket
    the acquisition and the enrichment, and nothing else is logged unless
    an exception is caught. *)
Definition orchestrated (videoDbId : uuid) (skipLlmProcessing : bool)
    (new : list Write) : Prop :=
  (exists d, new = [WLog (entry videoDbId "fetch_transcript" "started" NoDetails);
                    WLog (entry videoDbId "fetch_transcript" "failed" d);
                    WVideoStatus videoDbId failed])
  \/ (exists d enrichment payload tagging ending,
        new = [WLog (entry videoDbId "fetch_transcript" "started" NoDetails);
               WLog (entry videoDbId "fetch_transcript" "completed" d)]
              ++ enrichment ++ [WTranscriptUpsert payload] ++ tagging ++ ending
        /\ (if skipLlmProcessing then enrichment = []
            else exists outcome d',
                enrichment = [WLog (entry videoDbId "llm_processing" "started" NoDetails);
                              WLog (entry videoDbId "llm_processing" outcome d')]
                /\ (outcome = "completed" \/ outcome = "failed")%string)
        /\ Forall is_tag_write tagging
        /\ (ending = [WVideoStatus videoDbId completed]
            \/ exists d', ending = [WLog (entry videoDbId "error" "failed" d');
                                    WVideoStatus videoDbId failed])).

(** The rows of the log writes of a journal, in order. *)
Definition logged (j : list Write) : list LogRow :=
  omap (fun w => match w with
                 | WLog r => Some r
                 | _ => None
                 end) j.

(** The preamble of [ingestVideo]: the [id] of the video row with which
    the run reaches the [try] block, if it does. It does not when the
    video is already [completed], when the listing provider throws or
    does not know the video, or when the insert of the new row is
    refused. *)
Definition reaches_try (sv : Services) (ytVideoId : string) (st : State) : option uuid :=
  let existing := select_video ytVideoId (db st) in
  if decide (v_status <$> existing = Some completed) then None
  else
    match getVideo sv ytVideoId with
    | Returned (Some videoInfo) =>
        match existing with
        | Some row => Some (v_id row)
        | None =>
            if decide (yv_id videoInfo ∈ map v_youtube_id (videos (db st))) then None
            else Some (next_uuid (db st))
        end
    | _ => None
    end.

(** The log entries of a run that reaches the [try] block, by step and
    outcome: the two of the acquisition; when a transcript was acquired
    and the enrichment is not skipped, the two of the enrichment; and,
    after an acquired transcript, the [error] entry of a run that does
    not end in success. *)
Definition steps_logged (sv : Services) (skipLlmProcessing : bool)
    (acquired : option TranscriptResult) (result : IngestResult)
    : list (string * string) :=
  match acquired with
  | None => [("fetch_transcript", "started"); ("fetch_transcript", "failed")]%string
  | Some transcriptResult =>
      [("fetch_transcript", "started"); ("fetch_transcript", "completed")]%string
      ++ (if skipLlmProcessing then []
          else [("llm_processing", "started");
                ("llm_processing",
                 match processTranscript sv (text transcriptResult) with
                 | Returned _ => "completed"
                 | Thrown _ => "failed"
                 end)]%string)
      ++ match result with
         | Success => []
         | _ => [("error", "failed")]%string
         end
  end.

End IngestSpec.

(** Concrete services and a concrete, empty store. *)

Module IngestSample.
Import JS Model Acquire Ingest.

Definition lower_ascii (c : N) : N :=
  if ((65 <=? c) && (c <=? 90))%N then (c + 32)%N else c.

Definition video (id : string) : YouTubeVideo :=
  {| yv_id := id; yv_title := lit "Update"; yv_description := lit "";
     yv_publishedAt := "2024-01-01T00:00:00Z"; yv_thumbnailUrl := "";
     yv_duration := "PT10M"; yv_viewCount := 5 |}.

(** Every call succeeds; one tag is derived. *)
Definition services : Services :=
  {| acquisition := AcquireSample.env 1000;
     getVideo := fun id => Returned (Some (video id));
     parseDuration := fun _ => 600;
     cleanTranscript := fun t => Returned t;
     generateSummary := fun _ => Returned (lit "summary");
     generateTags := fun _ => Returned [TagString (lit "Governance")];
     toLowerCase := map lower_ascii |}.

(** The same, but the tagging call fails. *)
Definition services_tagging_down : Services :=
  {| acquisition := AcquireSample.env 1000;
     getVideo := fun id => Returned (Some (video id));
     parseDuration := fun _ => 600;
     cleanTranscript := fun t => Returned t;
     generateSummary := fun _ => Returned (lit "summary");
     generateTags := fun _ => Thrown "429 rate limit";
     toLowerCase := map lower_ascii |}.

Definition empty_store : Store :=
  {| videos := []; transcripts := []; tags := []; video_tags := [];
     ingestion_logs := []; next_uuid := 1%N; journal := [] |}.

Definition state0 : State := {| db := empty_store; sys := AcquireSample.world0 |}.

End IngestSample.

(** ** Tag bookkeeping of the orchestrator *)

Module TagSpec.
Import JS Model Acquire Ingest IngestSpec.

(** A computation that keeps the uniqueness constraints. *)
Definition keeps_unique {A} (m : M A) : Prop :=
  forall st, tags_unique (db st) -> tags_unique (db (m st).2).

(** The tags that the loop reaches: those before the first element that
    is not a string. *)
Fixpoint reached (tags : list TagValue) : list jsstring :=
  match tags with
  | TagString name :: rest => name :: reached rest
  | _ => []
  end.

(** The store already holds the tag of that name and its link to the
    video. *)
Definition linked (videoDbId : uuid) (name : jsstring) (s : Store) : Prop :=
  exists t, find_tag name (tags s) = Some t /\ (videoDbId, tag_id t) ∈ video_tags s.

End TagSpec.

(** ** Retrieval: [searchVideos] of [src/lib/supabase.ts] and
       [hybridSearch] of [src/lib/search-server.ts] *)

Module Search.
Import JS Model.

Record Tag := {
  tg_id : uuid;
  tg_name : jsstring
}.

(** The selected columns of the transcript of a video. *)
Record TranscriptView := {
  tv_summary : option jsstring;
  tv_cleaned_text : option jsstring
}.

(** [VideoWithDetails], and also the row of a query on [videos] before its
    tags are flattened ([tags] is then what the join returned, if
    anything). [published_at] is the instant of the timestamp in
    milliseconds. The columns that no function looks at are left out. *)
Record Video := {
  id : uuid;
  title : jsstring;
  published_at : option Z;
  transcript : option TranscriptView;
  tags : option (list Tag)
}.

(** A row of the full-text query on [transcripts], with its video. *)
Record TranscriptHit := {
  hit_video : Video;
  hit_summary : option jsstring;
  hit_cleaned_text : option jsstring
}.

(** [tags: video.tags?.map((vt) => vt.tag) || []] *)
Definition flatten_tags (v : Video) : Video :=
  {| id := id v; title := title v; published_at := published_at v;
     transcript := transcript v; tags := Some (default [] (tags v)) |}.

Definition of_hit (t : TranscriptHit) : Video :=
  {| id := id (hit_video t); title := title (hit_video t);
     published_at := published_at (hit_video t);
     transcript := Some {| tv_summary := hit_summary t;
                           tv_cleaned_text := hit_cleaned_text t |};
     tags := Some (default [] (tags (hit_video t))) |}.

(** [map.set(k, v)] on a [Map], kept as the list of its entries in
    insertion order: a known key keeps its place and takes the value. *)
Fixpoint map_set (k : uuid) (v : Video) (m : list (uuid * Video)) : list (uuid * Video) :=
  match m with
  | [] => [(k, v)]
  | (k', v') :: r => if decide (k' = k) then (k, v) :: r else (k', v') :: map_set k v r
  end.

(** [Array.from(new Map(allVideos.map(v => [v.id, v])).values())] *)
Definition unique_by_id (allVideos : list Video) : list Video :=
  map snd (fold_left (fun m v => map_set (id v) v m) allVideos []).

(** [new Date(v.published_at || 0).getTime()] *)
Definition time_of (v : Video) : Z := default 0 (published_at v).

(** [Array.prototype.sort] with the comparator
    [(a, b) => time(b) - time(a)]: a stable sort, newest first. *)
Fixpoint insert_by_date (x : Video) (l : list Video) : list Video :=
  match l with
  | [] => [x]
  | y :: r => if time_of y <=? time_of x then x :: l else y :: insert_by_date x r
  end.

Definition sort_by_date (l : list Video) : list Video := foldr insert_by_date [] l.

(** The videos found by either query, before they are ordered. A query
    that fails gives [None] and counts as empty. *)
Definition uniqueVideos (videoResults : option (list Video))
    (transcriptResults : option (list TranscriptHit)) : list Video :=
  let mappedTranscriptResults := map of_hit (default [] transcriptResults) in
  let parsedVideoResults := map flatten_tags (default [] videoResults) in
  unique_by_id (parsedVideoResults ++ mappedTranscriptResults).

(** [searchVideos(client, query, { limit, offset })], given the answers of
    the store to the two queries. *)
Definition searchVideos (videoResults : option (list Video))
    (transcriptResults : option (list TranscriptHit)) (limit offset : Z) : list Video :=
  slice (sort_by_date (uniqueVideos videoResults transcriptResults))
        offset (offset + limit).

(** A row of [match_transcript_chunks]. *)
Record SemanticResult := {
  chunk_id : uuid;
  video_id : uuid;
  content : jsstring;
  similarity : Q
}.

(** [[...new Set(xs)]]: the first occurrence of each element. *)
Fixpoint set_elements (seen : gset uuid) (xs : list uuid) : list uuid :=
  match xs with
  | [] => []
  | x :: r =>
      if decide (x ∈ seen) then set_elements seen r
      else x :: set_elements ({[x]} ∪ seen) r
  end.

(** The video of a semantic hit, with the best chunk as its snippet. *)
Definition with_snippet (semanticResults : list SemanticResult) (video : Video) : Video :=
  let bestChunk := List.find (fun r => bool_decide (video_id r = id video)) semanticResults in
  {| id := id video; title := title video; published_at := published_at video;
     transcript :=
       Some {| tv_summary := transcript video ≫= tv_summary;
               tv_cleaned_text :=
                 match bestChunk with
                 | Some chunk => Some (content chunk)
                 | None => transcript video ≫= tv_cleaned_text
                 end |};
     tags := Some (default [] (tags video)) |}.

(** One turn of the loop [for (const v of allVideos)]. *)
Definition dedupe_step (acc : gset uuid * list Video) (v : Video)
    : gset uuid * list Video :=
  let '(seenIds, uniqueVideos) := acc in
  if decide (id v ∈ seenIds) then acc
  else ({[id v]} ∪ seenIds, uniqueVideos ++ [v]).

Definition dedupe (allVideos : list Video) : list Video :=
  (fold_left dedupe_step allVideos (∅, [])).2.

(** The videos of the semantic hits: [admin_videos ids] is the answer of
    the store for the completed videos among [ids]. *)
Definition semanticVideos (semanticResults : list SemanticResult)
    (admin_videos : list uuid -> option (list Video)) : list Video :=
  match set_elements ∅ (map video_id semanticResults) with
  | [] => []
  | semanticVideoIds =>
      match admin_videos semanticVideoIds with
      | Some data => map (with_snippet semanticResults) data
      | None => []
      end
  end.

(** [hybridSearch(query, limit)], given what the three searches returned
    ([semanticSearch], [searchVideos], [tagSearch]). *)
Definition hybridSearch (semanticResults : list SemanticResult)
    (keywordResults tagResults : list Video)
    (admin_videos : list uuid -> option (list Video)) (limit : Z) : list Video :=
  let allVideos :=
    tagResults ++ semanticVideos semanticResults admin_videos ++ keywordResults in
  slice (dedupe allVideos) 0 limit.

End Search.

(** ** Vocabulary of the properties of the retrieval *)

Module SearchSpec.
Import JS Model Search.

(** The first occurrence of every id that is not in [seen], in order. *)
Fixpoint keep_first (seen : gset uuid) (l : list Video) : list Video :=
  match l with
  | [] => []
  | v :: r =>
      if decide (id v ∈ seen) then keep_first seen r
      else v :: keep_first ({[id v]} ∪ seen) r
  end.

(** The ids of a list of videos, as a set. *)
Definition ids (l : list Video) : gset uuid := list_to_set (map id l).

(** [v] is the first video of [l] with its id. *)
Definition first_with_id (v : Video) (l : list Video) : Prop :=
  exists i, l !! i = Some v
            /\ forall j u, (j < i)%nat -> l !! j = Some u -> id u <> id v.

(** Sample rows. *)
Definition sample (i : uuid) (t : Z) : Video :=
  {| id := i; title := []; published_at := Some t; transcript := None; tags := None |}.

Definition sample_hit (i : uuid) (t : Z) : TranscriptHit :=
  {| hit_video := sample i t; hit_summary := None; hit_cleaned_text := None |}.

End SearchSpec.

(** ** Vocabulary of the properties of the acquisition *)

Module AcquireSpec.
Import Acquire.

(** A call of the speech-to-text provider. *)
Definition is_transcribe (e : Event) : bool :=
  match e with
  | Transcribe _ => true
  | _ => false
  end.

End AcquireSpec.

(** ** More vocabulary of the orchestrator *)

Module RunSpec.
Import JS Model Acquire Ingest IngestSpec.

(** A row with another status. *)
Definition with_status (status : Status) (v : VideoRow) : VideoRow :=
  {| v_id := v_id v; v_channel_id := v_channel_id v; v_youtube_id := v_youtube_id v;
     v_title := v_title v; v_description := v_description v;
     v_published_at := v_published_at v; v_duration_seconds := v_duration_seconds v;
     v_thumbnail_url := v_thumbnail_url v; v_view_count := v_view_count v;
     v_status := status |}.

(** The rows of [videos] after the status of [videoDbId] is set. *)
Definition restatus (videoDbId : uuid) (status : Status) (rows : list VideoRow)
    : list VideoRow :=
  map (fun v => if decide (v_id v = videoDbId) then with_status status v else v) rows.

(** Every element of the tag list is a string. *)
Definition all_strings (tags : list TagValue) : Prop :=
  Forall (fun t => exists name, t = TagString name) tags.

(** The state in which the [try] block of a run starts: the store of the
    beginning, but for the video row, which is there and [processing]. *)
Definition started (st : State) (videoDbId : uuid) (st1 : State) : Prop :=
  sys st1 = sys st
  /\ transcripts (db st1) = transcripts (db st)
  /\ tags (db st1) = tags (db st)
  /\ video_tags (db st1) = video_tags (db st)
  /\ ingestion_logs (db st1) = ingestion_logs (db st)
  /\ (exists before, journal (db st1) = journal (db st) ++ [before]
                     /\ log_trail [before] = [])
  /\ (exists row, row ∈ videos (db st1) /\ v_id row = videoDbId
                  /\ v_status row = processing).

End RunSpec.

(** More concrete services. *)

Module RunSample.
Import JS Model Acquire Ingest.

(** No captions and no downloader. *)
Definition env_down : Acquire.Env :=
  {| captions := fun _ => Returned [];
     tmpdir := "/tmp";
     ytdlp_installed := false;
     ytdlp_download := fun _ fs => (fs, false);
     api_key_set := true;
     whisper_api := fun _ => Thrown "unreachable" |}.

Definition services_no_transcript : Services :=
  {| acquisition := env_down;
     getVideo := fun id => Returned (Some (IngestSample.video id));
     parseDuration := fun _ => 600;
     cleanTranscript := fun t => Returned t;
     generateSummary := fun _ => Returned (lit "summary");
     generateTags := fun _ => Returned [];
     toLowerCase := map IngestSample.lower_ascii |}.

(** The tagging call answers with an array whose second element is not a
    string. *)
Definition services_bad_tag : Services :=
  {| acquisition := AcquireSample.env 1000;
     getVideo := fun id => Returned (Some (IngestSample.video id));
     parseDuration := fun _ => 600;
     cleanTranscript := fun t => Returned t;
     generateSummary := fun _ => Returned (lit "summary");
     generateTags := fun _ => Returned [TagString (lit "Cardano"); TagOther];
     toLowerCase := map IngestSample.lower_ascii |}.

End RunSample.

(** A first run that stores a transcript and then fails in the tag loop,
    and the services of a second run. *)

Module RetrySample.
Import JS Model Acquire Ingest.

(** The first run: the enrichment succeeds, and the tagging call answers
    with an array whose second element is not a string. *)
Definition services_first : Services :=
  {| acquisition := AcquireSample.env 1000;
     getVideo := fun id => Returned (Some (IngestSample.video id));
     parseDuration := fun _ => 600;
     cleanTranscript := fun _ => Returned (lit "Hello there.");
     generateSummary := fun _ => Returned (lit "A greeting.");
     generateTags := fun _ => Returned [TagString (lit "Cardano"); TagOther];
     toLowerCase := map IngestSample.lower_ascii |}.

(** The second run: the language model cannot be reached. *)
Definition services_model_down : Services :=
  {| acquisition := AcquireSample.env 1000;
     getVideo := fun id => Returned (Some (IngestSample.video id));
     parseDuration := fun _ => 600;
     cleanTranscript := fun _ => Thrown "503 service unavailable";
     generateSummary := fun _ => Thrown "503 service unavailable";
     generateTags := fun _ => Thrown "503 service unavailable";
     toLowerCase := map IngestSample.lower_ascii |}.

(** The store after the first run on the empty store. *)
Definition after_first : State :=
  (ingestVideo services_first 7%N "abc" false IngestSample.state0).2.

End RetrySample.

(** ** Durations: [parseDuration] ([src/lib/youtube.ts]) *)

Module YouTube.
Import JS.

(** [\d] *)
Definition is_digit (c : N) : bool := ((48 <=? c) && (c <=? 57))%N.

(** The greedy match of [\d*] at the head of [s], and what follows it. *)
Fixpoint span_digits (s : jsstring) : jsstring * jsstring :=
  match s with
  | c :: r =>
      if is_digit c then let '(d, rest) := span_digits r in (c :: d, rest)
      else ([], s)
  | [] => ([], [])
  end.

(** [(?:(\d+)X)?] at the head of [s]: the capture and what follows the
    group. Taking fewer digits than the greedy match cannot succeed (the
    next unit would be a digit, not [X]), so the group matches with all the
    digits or matches the empty string. *)
Definition component (X : N) (s : jsstring) : option jsstring * jsstring :=
  match span_digits s with
  | (c :: d, u :: rest) => if (u =? X)%N then (Some (c :: d), rest) else (None, s)
  | _ => (None, s)
  end.

(** [parseInt(d, 10)] on a string of decimal digits. The numbers of the
    source are doubles; the integers of the model are theirs as long as
    they stay below [2^53]. *)
Definition parseInt (d : jsstring) : Z :=
  fold_left (fun acc c => 10 * acc + (Z.of_N c - 48)) d 0.

(** Where the first match of [/PT.../] starts: every group after [PT] is
    optional, so the expression matches at the first [PT] of the subject.
    The result is the text after it. *)
Fixpoint after_PT (s : jsstring) : option jsstring :=
  match s with
  | [] => None
  | c :: r => if starts_with (lit "PT") s then Some (drop 1 r) else after_PT r
  end.

(** [parseDuration(iso8601)], with
    [/PT(?:(\d+)H)?(?:(\d+)M)?(?:(\d+)S)?/]. *)
Definition parseDuration (iso8601 : jsstring) : Z :=
  match after_PT iso8601 with
  | None => 0
  | Some s =>
      let '(h, s1) := component 72 s in
      let '(m, s2) := component 77 s1 in
      let '(sec, _) := component 83 s2 in
      let hours := parseInt (default (lit "0") h) in
      let minutes := parseInt (default (lit "0") m) in
      let seconds := parseInt (default (lit "0") sec) in
      hours * 3600 + minutes * 60 + seconds
  end.

End YouTube.

(** ISO 8601 durations as the video API writes them. *)

Module DurationSpec.
Import JS YouTube.

(** [String(n)] for a natural number: its decimal digits. *)
Fixpoint decimal_loop (fuel : nat) (n : N) (acc : jsstring) : jsstring :=
  match fuel with
  | O => acc
  | S fuel' =>
      let acc' := (48 + n mod 10)%N :: acc in
      if (n / 10 =? 0)%N then acc' else decimal_loop fuel' (n / 10)%N acc'
  end.

Definition decimal (n : N) : jsstring := decimal_loop (S (N.to_nat n)) n [].

(** A component of a duration: absent, or a number and its designator. *)
Definition part (n : option N) (X : N) : jsstring :=
  match n with
  | Some n => decimal n ++ [X]
  | None => []
  end.

(** The time part of a duration: [T], then hours, minutes and seconds,
    each of them optional. *)
Definition time_part (h m s : option N) : jsstring :=
  84%N :: part h 72 ++ part m 77 ++ part s 83.

Definition amount (n : option N) : Z :=
  match n with
  | Some n => Z.of_N n
  | None => 0
  end.

End DurationSpec.

(** ** Transcript helpers: [groupIntoParagraphs], [createSnippet]
       (the helpers that follow [src/lib/llm.ts]) and [getSnippet] of the
       search page ([src/app/search/page.tsx]) *)

Module Transcript.
Import JS Model Normalizer.

(** The loop of [groupIntoParagraphs] over the segments that are left,
    with [currentParagraph] and [paragraphs] as they stand. *)
Fixpoint group_loop (pauseThreshold : Z) (segments : list TranscriptSegment)
    (currentParagraph paragraphs : list jsstring) : list jsstring * list jsstring :=
  match segments with
  | [] => (currentParagraph, paragraphs)
  | seg :: rest =>
      let currentParagraph := currentParagraph ++ [seg_text seg] in
      match rest with
      | next :: _ =>
          let currentEnd := seg_offset seg + seg_duration seg in
          let nextStart := seg_offset next in
          let pause := nextStart - currentEnd in
          if pause >? pauseThreshold then
            group_loop pauseThreshold rest []
              (paragraphs ++ [trim (join [SPACE] currentParagraph)])
          else group_loop pauseThreshold rest currentParagraph paragraphs
      | [] => group_loop pauseThreshold rest currentParagraph paragraphs
      end
  end.

(** [groupIntoParagraphs(segments, pauseThreshold)] *)
Definition groupIntoParagraphs (segments : list TranscriptSegment) (pauseThreshold : Z)
    : list jsstring :=
  match segments with
  | [] => []
  | _ =>
      let '(currentParagraph, paragraphs) := group_loop pauseThreshold segments [] [] in
      match currentParagraph with
      | [] => paragraphs
      | _ => paragraphs ++ [trim (join [SPACE] currentParagraph)]
      end
  end.

(** [s.indexOf(needle)] from position [i] of the subject, of which [s] is
    what is left: the first index at which [needle] occurs, [-1] when there
    is none. *)
Fixpoint indexOf_from (s needle : jsstring) (i : Z) : Z :=
  if starts_with needle s then i
  else match s with
       | [] => -1
       | _ :: r => indexOf_from r needle (i + 1)
       end.

Definition indexOf (s needle : jsstring) : Z := indexOf_from s needle 0.

(** The window around a match at [index], and its ellipses. *)
Definition around (text : jsstring) (index len context : Z) : jsstring :=
  let start := Z.max 0 (index - context) in
  let end_ := Z.min (Z.of_nat (length text)) (index + len + context) in
  let snippet := slice text start end_ in
  let snippet := if start >? 0 then lit "..." ++ snippet else snippet in
  if end_ <? Z.of_nat (length text) then snippet ++ lit "..." else snippet.

(** [createSnippet(text, searchTerm, contextLength)]; [toLowerCase] is
    [String.prototype.toLowerCase]. *)
Definition createSnippet (toLowerCase : jsstring -> jsstring)
    (text searchTerm : jsstring) (contextLength : Z) : option jsstring :=
  let lowerText := toLowerCase text in
  let lowerTerm := toLowerCase searchTerm in
  let index := indexOf lowerText lowerTerm in
  if index =? -1 then None
  else Some (around text index (Z.of_nat (length searchTerm)) contextLength).

(** [getSnippet(text, query, maxLength)] of the search page. *)
Definition getSnippet (toLowerCase : jsstring -> jsstring)
    (text query : jsstring) (maxLength : Z) : jsstring :=
  let lowerText := toLowerCase text in
  let lowerQuery := toLowerCase query in
  let index := indexOf lowerText lowerQuery in
  if index =? -1 then slice text 0 maxLength ++ lit "..."
  else around text index (Z.of_nat (length query)) 80.

End Transcript.

Module TranscriptSpec.
Import JS Model Normalizer Transcript.

(** The pause between two segments that follow each other. *)
Definition pause (a b : TranscriptSegment) : Z :=
  seg_offset b - (seg_offset a + seg_duration a).

(** The number of pauses longer than the threshold. *)
Fixpoint long_pauses (pauseThreshold : Z) (segments : list TranscriptSegment) : nat :=
  match segments with
  | a :: (b :: _) as rest =>
      (if pause a b >? pauseThreshold then 1 else 0) + long_pauses pauseThreshold rest
  | _ => 0
  end.

(** A run of segments without a long pause inside. *)
Fixpoint quiet (pauseThreshold : Z) (segments : list TranscriptSegment) : Prop :=
  match segments with
  | a :: (b :: _) as rest => pause a b <= pauseThreshold /\ quiet pauseThreshold rest
  | _ => True
  end.

(** The segments cut after each long pause. *)
Fixpoint groups (pauseThreshold : Z) (segments : list TranscriptSegment)
    : list (list TranscriptSegment) :=
  match segments with
  | [] => []
  | a :: rest =>
      match rest with
      | b :: _ =>
          if pause a b >? pauseThreshold then [a] :: groups pauseThreshold rest
          else match groups pauseThreshold rest with
               | g :: gs => (a :: g) :: gs
               | [] => [[a]]
               end
      | [] => [[a]]
      end
  end.

(** The text of a paragraph. *)
Definition paragraph_of (g : list TranscriptSegment) : jsstring :=
  trim (join [SPACE] (map seg_text g)).

(** [needle] occurs in [s] at position [i]. *)
Definition occurs_at (needle s : jsstring) (i : nat) : Prop :=
  exists post, drop i s = needle ++ post /\ (i <= length s)%nat.

End TranscriptSpec.

(** ** The transcript of the video page: the [Transcript] component *)

Module Page.
Import JS Normalizer.

(** [s.split(sep)] for a separator that is not empty: the pieces between
    the occurrences of [sep], found from left to right. [skip] units of
    an occurrence are still to be passed over, [cur] is the piece so far. *)
Fixpoint split_loop (sep : jsstring) (skip : nat) (cur s : jsstring) : list jsstring :=
  match s with
  | [] => [cur]
  | c :: r =>
      match skip with
      | S k => split_loop sep k cur r
      | O =>
          if starts_with sep s then cur :: split_loop sep (length sep - 1) [] r
          else split_loop sep O (cur ++ [c]) r
      end
  end.

Definition split (sep s : jsstring) : list jsstring := split_loop sep O [] s.

(** The options of the page. *)
Definition page_options : options :=
  {| removeFillers := true; addParagraphs := true; sentencesPerParagraph := 5 |}.

(** The paragraphs that [Transcript] renders:
    [cleanedText.split('\n\n').filter(p => p.trim())]. *)
Definition Transcript (text : jsstring) : list jsstring :=
  let cleanedText := cleanTranscriptText text page_options in
  List.filter (fun p => match trim p with [] => false | _ => true end)
              (split [10; 10]%N cleanedText).

End Page.

(** ** Enrichment requests: [cleanTranscript] ([src/lib/llm.ts]) *)

Module LLM.
Import JS Model Normalizer.

(** [maxChunkLength] *)
Definition maxChunkLength : Z := 30000.

(** Scanner state of [rawText.match(/[^.!?]+[.!?]+/g)]. *)
Inductive sentence_scan :=
| Outside                      (* no match in progress *)
| Inside (acc : jsstring)      (* inside [[^.!?]+] *)
| Closing (acc : jsstring).    (* inside [[.!?]+] *)

(** All matches of [/[^.!?]+[.!?]+/g], left to right. A terminator met
    while no match is in progress is passed over; a body that reaches the
    end of the text without a terminator is no match. *)
Fixpoint match_sentences (st : sentence_scan) (s : jsstring) : list jsstring :=
  match s with
  | [] =>
      match st with
      | Outside | Inside _ => []
      | Closing acc => [acc]
      end
  | c :: r =>
      match st with
      | Outside => if is_term c then match_sentences Outside r
                   else match_sentences (Inside [c]) r
      | Inside acc =>
          if is_term c then match_sentences (Closing (acc ++ [c])) r
          else match_sentences (Inside (acc ++ [c])) r
      | Closing acc =>
          if is_term c then match_sentences (Closing (acc ++ [c])) r
          else acc :: match_sentences (Inside [c]) r
      end
  end.

(** [rawText.match(...) || [rawText]] *)
Definition sentences_of (rawText : jsstring) : list jsstring :=
  match match_sentences Outside rawText with
  | [] => [rawText]
  | l => l
  end.

(** The [for (const sentence of sentences)] loop. *)
Fixpoint chunk_loop (sentences : list jsstring) (currentChunk : jsstring)
    (chunks : list jsstring) : jsstring * list jsstring :=
  match sentences with
  | [] => (currentChunk, chunks)
  | sentence :: rest =>
      if Z.of_nat (length currentChunk) + Z.of_nat (length sentence) >? maxChunkLength
      then chunk_loop rest sentence (chunks ++ [currentChunk])
      else chunk_loop rest (currentChunk ++ sentence) chunks
  end.

(** The chunks that [cleanTranscript] sends, one request each. *)
Definition chunks_of (rawText : jsstring) : list jsstring :=
  if Z.of_nat (length rawText) >? maxChunkLength then
    let '(currentChunk, chunks) := chunk_loop (sentences_of rawText) [] [] in
    match currentChunk with
    | [] => chunks
    | _ => chunks ++ [currentChunk]
    end
  else [rawText].

(** The client that [getClient()] returns, once the API key is there.
    [chat chunk] is the completion request with the editor prompt and
    [chunk] as the user message: it throws, or it returns
    [response.choices[0].message.content], which may be null. [embed input]
    is the embeddings request. *)
Record Client := {
  chat : jsstring -> outcome (option jsstring);
  embed : jsstring -> outcome (list Q)
}.

(** The loop over the chunks. *)
Fixpoint clean_loop (chat : jsstring -> outcome (option jsstring))
    (chunks cleanedChunks : list jsstring) : outcome (list jsstring) :=
  match chunks with
  | [] => Returned cleanedChunks
  | chunk :: rest =>
      match chat chunk with
      | Thrown e => Thrown e
      | Returned content =>
          let cleaned := match content with
                         | Some (c :: s) => c :: s
                         | _ => chunk
                         end in
          clean_loop chat rest (cleanedChunks ++ [cleaned])
      end
  end.

(** [cleanTranscript(rawText)]; [getClient] is what [getClient()] does:
    it throws when the API key is not set. *)
Definition cleanTranscript (getClient : outcome Client) (rawText : jsstring)
    : outcome jsstring :=
  match getClient with
  | Thrown e => Thrown e
  | Returned client =>
      match clean_loop (chat client) (chunks_of rawText) [] with
      | Returned cleanedChunks => Returned (join [10; 10]%N cleanedChunks)
      | Thrown e => Thrown e
      end
  end.

(** [generateEmbedding(text)]. A text that is blank once its line feeds
    are spaces gets the empty vector, without a request. *)
Definition generateEmbedding (getClient : outcome Client) (text : jsstring)
    : outcome (list Q) :=
  match getClient with
  | Thrown e => Thrown e
  | Returned client =>
      let cleanText := trim (map (fun c => if (c =? 10)%N then SPACE else c) text) in
      match cleanText with
      | [] => Returned []
      | _ => embed client cleanText
      end
  end.

End LLM.

(** ** The ingestion script: [ensureChannel] and [main]
       ([src/scripts/ingest.ts]) *)

Module Script.
Import JS Model Ingest.
Local Open Scope ingest_scope.

(** A row of [channels]; [youtube_id] is UNIQUE. *)
Record ChannelRow := {
  c_id : uuid;
  c_youtube_id : string;
  c_name : jsstring;
  c_description : jsstring;
  c_thumbnail_url : string
}.

(** [YouTubeChannel], without its counters. *)
Record YouTubeChannel := {
  yc_id : string;
  yc_title : jsstring;
  yc_description : jsstring;
  yc_thumbnailUrl : string
}.

(** The store of a run: the channels beside the tables of [ingestVideo]. *)
Record Run := {
  channels : list ChannelRow;
  next_channel_id : uuid;          (* [gen_random_uuid()] *)
  ingestion : State
}.

(** The video API, as [main] and [ensureChannel] use it. *)
Record Api := {
  (** [getChannel(channelId)] *)
  getChannel : string -> outcome (option YouTubeChannel);
  (** [getChannelVideos(channelId, { maxResults: 50, pageToken })]: the ids
      of the videos of the page and [nextPageToken] *)
  getChannelVideos : string -> option string -> outcome (list string * option string);
  (** [getVideo(videoId)] of [main], of which [channelId] is all that is
      looked at *)
  video_channelId : string -> outcome (option string)
}.

(** The command line. An argument that is absent or empty is [None]: the
    script only tests the arguments for truth. [limit] is [0] when it is
    not given. *)
Record Args := {
  channelId : option string;
  videoId : option string;
  limit : Z;
  skipLlm : bool;
  dryRun : bool
}.

Record Stats := {
  n_success : Z;
  n_skipped : Z;
  n_failed : Z
}.

Definition no_stats : Stats := {| n_success := 0; n_skipped := 0; n_failed := 0 |}.

(** [ensureChannel(supabase, ytChannelId)] *)
Definition ensureChannel (api : Api) (ytChannelId : string) (r : Run)
    : outcome ChannelRow * Run :=
  match single (filter (fun c => c_youtube_id c = ytChannelId) (channels r)) with
  | Some existing => (Returned existing, r)
  | None =>
      match getChannel api ytChannelId with
      | Thrown error => (Thrown error, r)
      | Returned None => (Thrown ("Channel not found: " +:+ ytChannelId), r)
      | Returned (Some channelInfo) =>
          if decide (yc_id channelInfo ∈ map c_youtube_id (channels r)) then
            (Thrown "duplicate key value violates unique constraint", r)
          else
            let newChannel :=
              {| c_id := next_channel_id r; c_youtube_id := yc_id channelInfo;
                 c_name := yc_title channelInfo;
                 c_description := yc_description channelInfo;
                 c_thumbnail_url := yc_thumbnailUrl channelInfo |} in
            (Returned newChannel,
             {| channels := channels r ++ [newChannel];
                next_channel_id := (next_channel_id r + 1)%N;
                ingestion := ingestion r |})
      end
  end.

(** The three counters. A result that is neither a success nor a skip
    counts as failed. *)
Definition tally (result : IngestResult) (stats : Stats) : Stats :=
  match result with
  | Success => {| n_success := n_success stats + 1; n_skipped := n_skipped stats;
                  n_failed := n_failed stats |}
  | Skipped => {| n_success := n_success stats; n_skipped := n_skipped stats + 1;
                  n_failed := n_failed stats |}
  | _ => {| n_success := n_success stats; n_skipped := n_skipped stats;
            n_failed := n_failed stats + 1 |}
  end.

Definition limit_reached (args : Args) (processedCount : Z) : bool :=
  (limit args >? 0) && (processedCount >=? limit args).

(** The loop [for (const video of result.videos)] over the videos that are
    left; a call of [ingestVideo] that throws ends the script. *)
Fixpoint batch_loop (sv : Services) (channelDbId : uuid) (args : Args)
    (videos : list string) (processedCount : Z) (stats : Stats)
    : M (outcome (Z * Stats)) :=
  match videos with
  | [] => ret (Returned (processedCount, stats))
  | video :: rest =>
      if limit_reached args processedCount then ret (Returned (processedCount, stats))
      else if negb (dryRun args) then
        ingestResult <- ingestVideo sv channelDbId video (skipLlm args) ;;
        match ingestResult with
        | Uncaught error => ret (Thrown error)
        | _ => batch_loop sv channelDbId args rest (processedCount + 1)
                 (tally ingestResult stats)
        end
      else batch_loop sv channelDbId args rest (processedCount + 1) stats
  end.

(** Is a page token one that [while (pageToken)] goes on with? *)
Definition more_pages (pageToken : option string) : bool :=
  match pageToken with
  | Some (String _ _) => true
  | _ => false
  end.

(** The loop [do { ... } while (pageToken)]. [None]: the fuel ran out
    before the pages did. *)
Fixpoint pages_loop (fuel : nat) (sv : Services) (api : Api) (ytChannelId : string)
    (channelDbId : uuid) (args : Args) (pageToken : option string)
    (processedCount : Z) (stats : Stats) : M (option (outcome Stats)) :=
  match fuel with
  | O => ret None
  | S fuel' =>
      match getChannelVideos api ytChannelId pageToken with
      | Thrown error => ret (Some (Thrown error))
      | Returned (videos, nextPageToken) =>
          batch <- batch_loop sv channelDbId args videos processedCount stats ;;
          match batch with
          | Thrown error => ret (Some (Thrown error))
          | Returned (processedCount, stats) =>
              if limit_reached args processedCount then ret (Some (Returned stats))
              else if more_pages nextPageToken then
                pages_loop fuel' sv api ytChannelId channelDbId args nextPageToken
                  processedCount stats
              else ret (Some (Returned stats))
          end
      end
  end.

(** [main()], after the check of the arguments: the counters it prints, or
    the error with which the script exits. *)
Definition main (fuel : nat) (sv : Services) (api : Api) (args : Args) (r : Run)
    : option (outcome Stats) * Run :=
  match videoId args with
  | Some video =>
      match video_channelId api video with
      | Thrown error => (Some (Thrown error), r)
      | Returned None => (Some (Thrown ("Video not found: " +:+ video)), r)
      | Returned (Some ytChannelId) =>
          match ensureChannel api ytChannelId r with
          | (Thrown error, r) => (Some (Thrown error), r)
          | (Returned channel, r) =>
              let '(result, st) :=
                ingestVideo sv (c_id channel) video (skipLlm args) (ingestion r) in
              let r := {| channels := channels r; next_channel_id := next_channel_id r;
                          ingestion := st |} in
              match result with
              | Uncaught error => (Some (Thrown error), r)
              | _ => (Some (Returned (tally result no_stats)), r)
              end
          end
      end
  | None =>
      match channelId args with
      | Some ytChannelId =>
          match ensureChannel api ytChannelId r with
          | (Thrown error, r) => (Some (Thrown error), r)
          | (Returned channel, r) =>
              let '(result, st) :=
                pages_loop fuel sv api ytChannelId (c_id channel) args None 0 no_stats
                  (ingestion r) in
              (result, {| channels := channels r; next_channel_id := next_channel_id r;
                          ingestion := st |})
          end
      | None => (Some (Returned no_stats), r)
      end
  end.

End Script.

Module ScriptSpec.
Import Script.

(** The number of videos counted. *)
Definition total (stats : Stats) : Z :=
  n_success stats + n_skipped stats + n_failed stats.

End ScriptSpec.

Module ScriptSample.
Import JS Model Ingest Script.

Definition api : Api :=
  {| getChannel := fun id =>
       Returned (Some {| yc_id := id; yc_title := lit "Channel";
                         yc_description := []; yc_thumbnailUrl := "" |});
     getChannelVideos := fun _ pageToken =>
       match pageToken with
       | None => Returned (["abc"; "def"]%string, Some "next"%string)
       | Some _ => Returned (["ghi"]%string, None)
       end;
     video_channelId := fun _ => Returned (Some "UC1"%string) |}.

Definition run0 : Run :=
  {| channels := []; next_channel_id := 1%N; ingestion := IngestSample.state0 |}.

Definition args0 : Args :=
  {| channelId := Some "UC1"%string; videoId := None; limit := 2;
     skipLlm := false; dryRun := false |}.

Definition dry : Args :=
  {| channelId := Some "UC1"%string; videoId := None; limit := 0;
     skipLlm := false; dryRun := true |}.

End ScriptSample.

(** ** The cron endpoint: the ingestion of one video
       (the route that follows [src/app/api/search/route.ts]) *)

Module Cron.
Import JS Model Acquire Ingest.
Local Open Scope ingest_scope.

(** What the loop does with a video: [results.skipped++],
    [results.processed++], or [results.failed++] with its message. *)
Inductive CronResult :=
| CronSkipped
| CronProcessed
| CronFailed (error : string).

(** The enrichment of the endpoint: a failure of [processTranscript] is
    passed over. *)
Definition cron_enrich (sv : Services) (transcriptResult : TranscriptResult)
    : jsstring * jsstring * list TagValue :=
  match processTranscript sv (text transcriptResult) with
  | Returned processed => (cleanedText processed, summary processed, tags_of processed)
  | Thrown _ => (text transcriptResult, [], [])
  end.

(** The rest of the [try] block, once the row of the video is there:
    the captions, the enrichment, the transcript, the tags, the status. *)
Definition cron_process (sv : Services) (videoDbId : uuid) (ytVideo : YouTubeVideo)
    : M (outcome CronResult) :=
  match fetchTranscript (acquisition sv) (yv_id ytVideo) with
  | None =>
      update_video_status videoDbId failed ;;
      ret (Returned (CronFailed ("No transcript: " +:+ yv_id ytVideo)))
  | Some transcriptResult =>
      let '(cleanedText, summary, tags) := cron_enrich sv transcriptResult in
      upsert_transcript
        {| p_video_id := videoDbId;
           p_raw_text := text transcriptResult;
           p_cleaned_text := cleanedText;
           p_summary := match summary with [] => None | _ => Some summary end;
           p_source := source transcriptResult;
           p_processing_status := completed |} ;;
      saved <- save_tags sv videoDbId tags ;;
      match saved with
      | Thrown error => ret (Thrown error)
      | Returned _ =>
          update_video_status videoDbId completed ;;
          ret (Returned CronProcessed)
      end
  end.

(** The body of the [try] block of the loop, for the video [ytVideo] of
    the listing. *)
Definition cron_try (sv : Services) (channelDbId : uuid) (ytVideo : YouTubeVideo)
    : M (outcome CronResult) :=
  existing <- read (select_video (yv_id ytVideo)) ;;
  if decide (v_status <$> existing = Some completed) then ret (Returned CronSkipped)
  else
    inserted <-
      match existing with
      | Some row => update_video_status (v_id row) processing ;; ret (Returned (v_id row))
      | None => insert_video sv channelDbId ytVideo
      end ;;
    match inserted with
    | Thrown error => ret (Thrown error)
    | Returned videoDbId => cron_process sv videoDbId ytVideo
    end.

(** The [try] with its [catch], which only counts and records the error. *)
Definition cron_video (sv : Services) (channelDbId : uuid) (ytVideo : YouTubeVideo)
    : M CronResult :=
  r <- cron_try sv channelDbId ytVideo ;;
  match r with
  | Returned result => ret result
  | Thrown videoError => ret (CronFailed (yv_id ytVideo +:+ ": " +:+ videoError))
  end.

End Cron.

Module CronSpec.
Import JS Model Ingest.

(** Two stores with the same rows in the tables of the videos, the
    transcripts, the tags and their links; the logs are left aside. *)
Definition same_tables (s s' : Store) : Prop :=
  videos s = videos s' /\ transcripts s = transcripts s' /\ tags s = tags s'
  /\ video_tags s = video_tags s' /\ next_uuid s = next_uuid s'.

(** Two states whose stores have the same tables, on the same machine. *)
Definition agree (a b : State) : Prop := same_tables (db a) (db b) /\ sys a = sys b.

End CronSpec.

(** Services for a video that has captions. *)

Module CronSample.
Import JS Model Acquire Ingest.

Definition env_captions : Acquire.Env :=
  {| captions := fun _ =>
       Returned [{| cap_text := lit "hello"; cap_offset := 0; cap_duration := 1200 |};
                 {| cap_text := lit "world"; cap_offset := 1200; cap_duration := 900 |}];
     tmpdir := "/tmp";
     ytdlp_installed := false;
     ytdlp_download := fun _ fs => (fs, false);
     api_key_set := true;
     whisper_api := fun _ => Thrown "unreachable" |}.

Definition services : Services :=
  {| acquisition := env_captions;
     getVideo := fun id => Returned (Some (IngestSample.video id));
     parseDuration := fun _ => 600;
     cleanTranscript := fun t => Returned t;
     generateSummary := fun _ => Returned (lit "summary");
     generateTags := fun _ => Returned [TagString (lit "Governance")];
     toLowerCase := map IngestSample.lower_ascii |}.

(** The tagging call answers with an array whose second element is not a
    string. *)
Definition services_bad_tag : Services :=
  {| acquisition := env_captions;
     getVideo := fun id => Returned (Some (IngestSample.video id));
     parseDuration := fun _ => 600;
     cleanTranscript := fun t => Returned t;
     generateSummary := fun _ => Returned (lit "summary");
     generateTags := fun _ => Returned [TagString (lit "Cardano"); TagOther];
     toLowerCase := map IngestSample.lower_ascii |}.

End CronSample.

(** ** The enrichment script: [enrichVideos] *)

Module Enrich.
Import JS Model Ingest.
Local Open Scope ingest_scope.

(** [from('transcripts').update({ cleaned_text, summary }).eq('video_id', videoId)].
    The journal is that of the orchestrator and is left alone. *)
Definition update_transcript (videoId : uuid) (cleaned_text summary : jsstring) : M unit :=
  fun st =>
    let s := db st in
    (tt,
     {| db :=
          {| videos := videos s;
             transcripts :=
               map (fun t =>
                      if decide (t_video_id t = videoId) then
                        {| t_id := t_id t; t_video_id := t_video_id t;
                           t_raw_text := t_raw_text t;
                           t_cleaned_text := cleaned_text;
                           t_summary := Some summary;
                           t_source := t_source t;
                           t_processing_status := t_processing_status t |}
                      else t) (transcripts s);
             tags := tags s; video_tags := video_tags s;
             ingestion_logs := ingestion_logs s; next_uuid := next_uuid s;
             journal := journal s |};
        sys := sys st |}).

(** What the loop does with a transcript: [continue], [successCount++] or
    [failCount++]. *)
Inductive EnrichResult :=
| EnrichSkipped
| EnrichSuccess
| EnrichFailed (error : string).

(** One turn of the loop [for (const t of transcripts)]. *)
Definition enrich_transcript (sv : Services) (t : TranscriptRow) : M EnrichResult :=
  match t_raw_text t with
  | [] => ret EnrichSkipped
  | _ =>
      match processTranscript sv (t_raw_text t) with
      | Thrown err => ret (EnrichFailed err)
      | Returned processed =>
          update_transcript (t_video_id t) (cleanedText processed) (summary processed) ;;
          saved <- save_tags sv (t_video_id t) (tags_of processed) ;;
          match saved with
          | Thrown err => ret (EnrichFailed err)
          | Returned _ => ret EnrichSuccess
          end
      end
  end.

(** The rows of [from('transcripts').select(...).is('summary', null).limit(limit)],
    in the order of the table. *)
Definition pending (limit : Z) (s : Store) : list TranscriptRow :=
  take (Z.to_nat limit) (List.filter (fun t => match t_summary t with
                                               | None => true
                                               | Some _ => false
                                               end) (transcripts s)).

(** The loop, with its two counters. *)
Fixpoint enrich_loop (sv : Services) (rows : list TranscriptRow)
    (successCount failCount : Z) : M (Z * Z) :=
  match rows with
  | [] => ret (successCount, failCount)
  | t :: rest =>
      r <- enrich_transcript sv t ;;
      match r with
      | EnrichSkipped => enrich_loop sv rest successCount failCount
      | EnrichSuccess => enrich_loop sv rest (successCount + 1) failCount
      | EnrichFailed _ => enrich_loop sv rest successCount (failCount + 1)
      end
  end.

(** [enrichVideos()], given the limit of the command line. *)
Definition enrichVideos (sv : Services) (limit : Z) : M (Z * Z) :=
  fun st => enrich_loop sv (pending limit (db st)) 0 0 st.

End Enrich.

Module EnrichSpec.
Import JS Model Ingest.

(** The id under which [ingestVideo] works on a video: that of its row,
    or the one a new row gets. *)
Definition video_db_id (ytVideoId : string) (st : State) : uuid :=
  match select_video ytVideoId (db st) with
  | Some row => v_id row
  | None => next_uuid (db st)
  end.

(** The state in which the [try] block of [ingestVideo] starts. *)
Definition prepared (sv : Services) (channelDbId : uuid) (videoInfo : YouTubeVideo)
    (ytVideoId : string) (st : State) : State :=
  match select_video ytVideoId (db st) with
  | Some row => (update_video_status (v_id row) processing st).2
  | None => (insert_video sv channelDbId videoInfo st).2
  end.

(** Two stores with the same tags, the same links, and the same next id. *)
Definition same_tags (s s' : Store) : Prop :=
  tags s = tags s' /\ video_tags s = video_tags s' /\ next_uuid s = next_uuid s'.

End EnrichSpec.

Module EnrichSample.
Import JS Model Ingest.

(** The services of [IngestSample], the enrichment being down. *)
Definition services_down : Services :=
  {| acquisition := AcquireSample.env 1000;
     getVideo := fun id => Returned (Some (IngestSample.video id));
     parseDuration := fun _ => 600;
     cleanTranscript := fun _ => Thrown "503 unavailable";
     generateSummary := fun _ => Returned (lit "summary");
     generateTags := fun _ => Returned [TagString (lit "Governance")];
     toLowerCase := map IngestSample.lower_ascii |}.

End EnrichSample.

(* ===================================================================== *)
(** * Part II: properties *)
(* ===================================================================== *)

Section JSFacts.
Import JS.

Lemma trimStart_length s : (length (trimStart s) <= length s)%nat.
Proof.
  induction s as [|c r IH]; simpl; [lia|].
  destruct (is_space c); simpl; lia.
Qed.

Lemma trim_length s : (length (trim s) <= length s)%nat.
Proof.
  unfold trim, trimEnd. rewrite length_rev.
  etransitivity; [apply trimStart_length|].
  rewrite length_rev. apply trimStart_length.
Qed.

Lemma lastIndexOf_from_bounds s c i acc :
  -1 <= acc < i ->
  -1 <= lastIndexOf_from s c i acc < i + Z.of_nat (length s).
Proof.
  revert i acc. induction s as [|x r IH]; intros i acc H; simpl.
  - lia.
  - specialize (IH (i + 1) (if (x =? c)%N then i else acc)).
    destruct (x =? c)%N; lia.
Qed.

Lemma lastIndexOf_bounds s c :
  -1 <= lastIndexOf s c < Z.of_nat (length s).
Proof.
  unfold lastIndexOf.
  pose proof (lastIndexOf_from_bounds s c 0 (-1)). lia.
Qed.

Lemma slice_length_le {A} (xs : list A) from to :
  0 <= from -> 0 <= to ->
  Z.of_nat (length (slice xs from to)) <= Z.max 0 (to - from).
Proof.
  intros Hf Ht. unfold slice, rel_index.
  rewrite length_take, length_drop.
  destruct (Z.ltb_spec from 0); [lia|].
  destruct (Z.ltb_spec to 0); lia.
Qed.

(** For indices inside the JavaScript conventions' easy case, [slice] is
    [take] after [drop]. *)
Lemma slice_nonneg {A} (xs : list A) from to :
  0 <= from -> 0 <= to ->
  slice xs from to = take (Z.to_nat to - Z.to_nat from) (drop (Z.to_nat from) xs).
Proof.
  intros Hf Ht. unfold slice, rel_index.
  destruct (Z.ltb_spec from 0); [lia|].
  destruct (Z.ltb_spec to 0); [lia|].
  destruct (Z_le_gt_dec from (Z.of_nat (length xs))) as [Hle|Hgt].
  - rewrite (Z.min_l from) by lia.
    destruct (Z_le_gt_dec to (Z.of_nat (length xs))) as [Hle'|Hgt'].
    + rewrite (Z.min_l to) by lia. f_equal. lia.
    + rewrite (Z.min_r to) by lia.
      rewrite !take_ge; [done| |]; rewrite length_drop; lia.
  - rewrite (Z.min_r from) by lia.
    rewrite !drop_ge by lia. by rewrite !take_nil.
Qed.

End JSFacts.

(** ** Chunker *)

Section ChunkerFacts.
Import JS Chunker.

Lemma collapse_ws_length s : (length (collapse_ws s) <= length s)%nat.
Proof.
  induction s as [|c r IH]; simpl; [lia|].
  destruct (is_space c); [|simpl; lia].
  destruct r as [|c' r']; [simpl; lia|].
  destruct (is_space c'); simpl in *; lia.
Qed.

Lemma normalize_ws_length text : (length (normalize_ws text) <= length text)%nat.
Proof.
  unfold normalize_ws. etransitivity; [apply trim_length | apply collapse_ws_length].
Qed.

(** Every window is between 802 and 1050 units wide. *)
Lemma window_end_bounds normalized start :
  0 <= start ->
  start + BOUNDARY_FLOOR + 2 <= window_end normalized start
    <= start + CHUNK_SIZE + LOOKAHEAD.
Proof.
  intros Hs. unfold window_end, CHUNK_SIZE, LOOKAHEAD, BOUNDARY_FLOOR.
  destruct (Z.ltb_spec (start + 1000) (Z.of_nat (length normalized))); [|lia].
  pose proof (lastIndexOf_bounds (slice normalized start (start + 1000 + 50)) DOT) as Hb.
  pose proof (slice_length_le normalized start (start + 1000 + 50)) as Hl.
  destruct (Z.gtb_spec (lastIndexOf (slice normalized start (start + 1000 + 50)) DOT) 800);
    lia.
Qed.

Lemma windows_loop_enough fuel normalized start :
  0 <= start ->
  (Z.to_nat (Z.of_nat (length normalized) - start) <= fuel)%nat ->
  is_Some (windows_loop fuel normalized start).
Proof.
  revert start. induction fuel as [|fuel IH]; intros start Hs Hf; simpl.
  - destruct (Z.ltb_spec start (Z.of_nat (length normalized))); [lia|eauto].
  - destruct (Z.ltb_spec start (Z.of_nat (length normalized))); [|eauto].
    pose proof (window_end_bounds normalized start Hs) as Hw.
    unfold BOUNDARY_FLOOR, CHUNK_SIZE, LOOKAHEAD, CHUNK_OVERLAP in *.
    destruct (IH (window_end normalized start - 100)) as [ws Hws]; [lia|lia|].
    rewrite Hws. eauto.
Qed.

Lemma windows_loop_mono fuel fuel' normalized start ws :
  windows_loop fuel normalized start = Some ws ->
  (fuel <= fuel')%nat ->
  windows_loop fuel' normalized start = Some ws.
Proof.
  revert fuel' start ws. induction fuel as [|fuel IH]; intros fuel' start ws; simpl.
  - destruct (Z.ltb_spec start (Z.of_nat (length normalized))); [done|].
    intros [= <-] _. destruct fuel'; simpl;
      destruct (Z.ltb_spec start (Z.of_nat (length normalized))); done || lia.
  - destruct (Z.ltb_spec start (Z.of_nat (length normalized))) as [Hlt|Hge].
    + intros Hws Hle. destruct fuel' as [|fuel']; [lia|]. simpl.
      destruct (Z.ltb_spec start (Z.of_nat (length normalized))); [|lia].
      destruct (windows_loop fuel normalized _) as [ws'|] eqn:E; [|done].
      rewrite (IH fuel' _ ws' E) by lia. done.
    + intros [= <-] _. destruct fuel'; simpl;
        destruct (Z.ltb_spec start (Z.of_nat (length normalized))); done || lia.
Qed.

(** The loop of the source pushes the trimmed text of each window. *)
Lemma splitText_loop_windows fuel normalized start chunks :
  splitText_loop fuel normalized start chunks =
  (fun ws => chunks ++ map (fun w => trim (window_text normalized w)) ws)
    <$> windows_loop fuel normalized start.
Proof.
  revert start chunks. induction fuel as [|fuel IH]; intros start chunks; simpl.
  - destruct (start <? _); simpl; [done|]. by rewrite app_nil_r.
  - destruct (start <? _); simpl; [|by rewrite app_nil_r].
    rewrite IH. destruct (windows_loop fuel normalized _); simpl; [|done].
    by rewrite <- app_assoc.
Qed.

Lemma windows_loop_bounds fuel normalized start ws :
  0 <= start ->
  windows_loop fuel normalized start = Some ws ->
  Forall (fun w => 0 <= w.1 /\ w.1 <= w.2 <= w.1 + CHUNK_SIZE + LOOKAHEAD) ws.
Proof.
  revert start ws. induction fuel as [|fuel IH]; intros start ws Hs; simpl.
  - destruct (start <? _); [done|]. by intros [= <-].
  - destruct (start <? _); [|by intros [= <-]].
    pose proof (window_end_bounds normalized start Hs) as Hw.
    destruct (windows_loop fuel normalized _) as [ws'|] eqn:E; [|done].
    intros [= <-]. constructor.
    + simpl. unfold BOUNDARY_FLOOR in *. lia.
    + eapply IH; [|exact E]. unfold BOUNDARY_FLOOR, CHUNK_OVERLAP in *. lia.
Qed.

Lemma windows_loop_head fuel normalized start w ws :
  windows_loop fuel normalized start = Some (w :: ws) -> w.1 = start.
Proof.
  destruct fuel; simpl; destruct (start <? _); try done.
  destruct (windows_loop fuel normalized _); simpl; [|done]. by intros [= <- _].
Qed.

Lemma slice_split {A} (xs : list A) a b c :
  0 <= a <= b -> b <= c ->
  slice xs a c = slice xs a b ++ slice xs b c.
Proof.
  intros Hab Hbc. rewrite !slice_nonneg by lia.
  replace (Z.to_nat c - Z.to_nat a)%nat
    with ((Z.to_nat b - Z.to_nat a) + (Z.to_nat c - Z.to_nat b))%nat by lia.
  rewrite <- take_take_drop, drop_drop.
  do 3 f_equal. lia.
Qed.

Lemma slice_length {A} (xs : list A) a b :
  0 <= a <= b -> a <= Z.of_nat (length xs) ->
  Z.of_nat (length (slice xs a b)) = Z.min (b - a) (Z.of_nat (length xs) - a).
Proof.
  intros Hab Ha. rewrite slice_nonneg by lia.
  rewrite length_take, length_drop. lia.
Qed.

(** The first window of a run of the loop. *)
Lemma windows_loop_first fuel normalized start w ws :
  windows_loop fuel normalized start = Some (w :: ws) ->
  w = (start, window_end normalized start)
  /\ start < Z.of_nat (length normalized).
Proof.
  destruct fuel; simpl;
    destruct (Z.ltb_spec start (Z.of_nat (length normalized))); try done.
  destruct (windows_loop fuel normalized _); simpl; [|done].
  by intros [= <- _].
Qed.

Lemma windows_loop_overlapping fuel normalized start ws :
  0 <= start ->
  windows_loop fuel normalized start = Some ws -> overlapping normalized ws.
Proof.
  revert start ws. induction fuel as [|fuel IH]; intros start ws Hs; simpl.
  - destruct (start <? _); [done|]. by intros [= <-].
  - destruct (start <? _); [|by intros [= <-]].
    pose proof (window_end_bounds normalized start Hs) as Hw.
    destruct (windows_loop fuel normalized _) as [ws'|] eqn:E; [|done].
    intros [= <-]. destruct ws' as [|w2 ws'']; [done|].
    destruct (windows_loop_first _ _ _ _ _ E) as [-> Hin].
    unfold BOUNDARY_FLOOR, CHUNK_SIZE, LOOKAHEAD, CHUNK_OVERLAP in *.
    pose proof (window_end_bounds normalized (window_end normalized start - 100)
                  ltac:(lia)) as Hw2.
    unfold BOUNDARY_FLOOR, CHUNK_SIZE, LOOKAHEAD in Hw2.
    pose proof (IH (window_end normalized start - 100) _ ltac:(lia) E) as Hrest.
    cbn [overlapping]. unfold window_text. cbn [fst snd].
    split; [done|]. split; [done|].
    split; [apply slice_split; lia|].
    split; [apply slice_split; lia|].
    split; [|exact Hrest].
    rewrite slice_length by lia. unfold CHUNK_OVERLAP. lia.
Qed.

(** What the successors of a window contribute once the overlap is cut
    off: the rest of the text after the overlap. *)
Lemma windows_loop_rest fuel normalized start ws :
  0 <= start ->
  windows_loop fuel normalized start = Some ws ->
  concat (map (fun w => drop (Z.to_nat CHUNK_OVERLAP) (window_text normalized w)) ws)
  = drop (Z.to_nat (start + CHUNK_OVERLAP)) normalized.
Proof.
  revert start ws. induction fuel as [|fuel IH]; intros start ws Hs; simpl.
  - destruct (Z.ltb_spec start (Z.of_nat (length normalized))); [done|].
    intros [= <-]. simpl. rewrite drop_ge; [done|]. unfold CHUNK_OVERLAP. lia.
  - destruct (Z.ltb_spec start (Z.of_nat (length normalized))) as [Hlt|Hge].
    2:{ intros [= <-]. simpl. rewrite drop_ge; [done|]. unfold CHUNK_OVERLAP. lia. }
    pose proof (window_end_bounds normalized start Hs) as Hw.
    destruct (windows_loop fuel normalized _) as [ws'|] eqn:E; [|done].
    intros [= <-]. simpl.
    unfold BOUNDARY_FLOOR, CHUNK_SIZE, LOOKAHEAD, CHUNK_OVERLAP in *.
    rewrite (IH (window_end normalized start - 100) ws' ltac:(lia) E).
    unfold window_text. simpl. rewrite slice_nonneg by lia.
    rewrite skipn_firstn_comm, drop_drop.
    replace (Z.to_nat (window_end normalized start - 100 + 100))
      with (Z.to_nat start + Z.to_nat 100
            + (Z.to_nat (window_end normalized start) - Z.to_nat start - Z.to_nat 100))%nat
      by lia.
    rewrite <- (drop_drop normalized _ (Z.to_nat start + Z.to_nat 100)).
    replace (Z.to_nat (start + 100)) with (Z.to_nat start + Z.to_nat 100)%nat by lia.
    apply take_drop.
Qed.

Lemma windows_loop_stitch fuel normalized ws :
  windows_loop fuel normalized 0 = Some ws ->
  stitch (map (window_text normalized) ws) = normalized.
Proof.
  destruct fuel as [|fuel]; simpl.
  - destruct (Z.ltb_spec 0 (Z.of_nat (length normalized))); [done|].
    intros [= <-]. simpl. destruct normalized; [done|simpl in *; lia].
  - destruct (Z.ltb_spec 0 (Z.of_nat (length normalized))).
    2:{ intros [= <-]. simpl. destruct normalized; [done|simpl in *; lia]. }
    pose proof (window_end_bounds normalized 0 ltac:(lia)) as Hw.
    destruct (windows_loop fuel normalized _) as [ws'|] eqn:E; [|done].
    intros [= <-]. simpl.
    unfold BOUNDARY_FLOOR, CHUNK_SIZE, LOOKAHEAD, CHUNK_OVERLAP in *.
    rewrite map_map.
    pose proof (windows_loop_rest fuel normalized (window_end normalized 0 - 100) ws'
                  ltac:(lia) E) as Hrest.
    unfold CHUNK_OVERLAP in Hrest. rewrite Hrest.
    unfold window_text; simpl. rewrite slice_nonneg by lia. simpl.
    rewrite Nat.sub_0_r.
    replace (Z.to_nat (window_end normalized 0 - 100 + 100))
      with (Z.to_nat (window_end normalized 0)) by lia.
    apply take_drop.
Qed.

End ChunkerFacts.

Section ChunkerClaims.
Import JS Chunker.

(** C4. [splitText] terminates on every text: the loop never needs more
    iterations than the text has code units, so any fuel of at least the
    input length returns the same chunk list; the cursor strictly advances
    at every iteration (the configured overlap, 100, is below the chunk
    size, 1000); and the empty text yields the empty sequence. *)
Theorem splitText_terminates :
  (forall text, exists chunks,
      forall fuel, (length text <= fuel)%nat -> splitText fuel text = Some chunks)
  /\ (forall normalized start,
        0 <= start -> start < window_end normalized start - CHUNK_OVERLAP)
  /\ (forall fuel, splitText fuel [] = Some [])
  /\ CHUNK_OVERLAP < CHUNK_SIZE.
Proof.
  split; [|split; [|split]].
  - intros text. destruct text as [|c text]; [by exists []|].
    set (t := c :: text).
    pose proof (normalize_ws_length t) as Hlen.
    destruct (windows_loop_enough (length t) (normalize_ws t) 0) as [ws Hws]; [lia|lia|].
    exists (map (fun w => trim (window_text (normalize_ws t) w)) ws).
    intros fuel Hfuel. unfold splitText. subst t.
    rewrite splitText_loop_windows.
    by rewrite (windows_loop_mono _ fuel _ _ _ Hws Hfuel).
  - intros normalized start Hs.
    pose proof (window_end_bounds normalized start Hs).
    unfold BOUNDARY_FLOOR, CHUNK_OVERLAP in *. lia.
  - done.
  - done.
Qed.

Lemma splitText_terminates_witness :
  exists chunks, splitText 20 (lit "Hello world. Bye.") = Some chunks.
Proof.
  destruct splitText_terminates as [H _].
  destruct (H (lit "Hello world. Bye.")) as [chunks Hc].
  exists chunks. apply Hc. simpl. lia.
Defined.

(** C3, as amended. With a fuel equal to the input length, [splitText]
    returns chunks that are each at most [CHUNK_SIZE + LOOKAHEAD] = 1050
    units long; every chunk is the trimmed text of one window of the
    normalized text; every window after the first starts inside the text,
    100 units before the end index of its predecessor, and the texts of
    the two windows share the units from that start to that end index:
    exactly 100 when the end index lies within the text, and otherwise the
    fewer units that are left of the text; and stitching the untrimmed
    window texts, the first 100 units (all of them when there are fewer)
    removed from each successor, gives back the normalized text. *)
Theorem splitText_bounded_and_windows_reconstruct text :
  exists chunks ws,
    splitText (length text) text = Some chunks
    /\ Forall (fun c => Z.of_nat (length c) <= CHUNK_SIZE + LOOKAHEAD) chunks
    /\ chunks = map (fun w => trim (window_text (normalize_ws text) w)) ws
    /\ overlapping (normalize_ws text) ws
    /\ stitch (map (window_text (normalize_ws text)) ws) = normalize_ws text.
Proof.
  destruct text as [|c text].
  { exists [], []. repeat split; constructor. }
  set (t := c :: text).
  pose proof (normalize_ws_length t) as Hlen.
  destruct (windows_loop_enough (length t) (normalize_ws t) 0) as [ws Hws]; [lia|lia|].
  exists (map (fun w => trim (window_text (normalize_ws t) w)) ws), ws.
  split; [|split; [|split; [|split]]].
  - unfold splitText. subst t. rewrite splitText_loop_windows.
    by rewrite Hws.
  - apply Forall_map.
    eapply Forall_impl; [apply (windows_loop_bounds _ _ 0 ws ltac:(lia) Hws)|].
    intros [s e] [H1 H2]; simpl in *.
    pose proof (trim_length (window_text (normalize_ws t) (s, e))).
    pose proof (slice_length_le (normalize_ws t) s e).
    unfold window_text in *; simpl in *. lia.
  - done.
  - apply (windows_loop_overlapping (length t) _ 0 ws); [lia|exact Hws].
  - by eapply windows_loop_stitch.
Qed.

(** C3 as stated fails: 999 letters, one space, ten letters. The first
    window ends on the space, which [trim] removes from the first chunk,
    and the stitched chunks lack it. *)
Lemma splitText_stitch_counterexample :
  let text := replicate 999 97%N ++ [SPACE] ++ replicate 10 98%N in
  exists chunks,
    splitText (length text) text = Some chunks
    /\ stitch chunks <> normalize_ws text.
Proof.
  intros text.
  exists [replicate 999 97%N; replicate 99 97%N ++ [SPACE] ++ replicate 10 98%N].
  split; [by vm_compute|].
  intros H. apply (f_equal length) in H. vm_compute in H. discriminate.
Qed.

(** A short text is one chunk. *)
Example splitText_short :
  splitText 5 (lit "  Hello   world.  Bye. ") = Some [lit "Hello world. Bye."].
Proof. vm_compute. reflexivity. Qed.

(** A text of 950 units is cut twice: the second window starts 100 units
    before the end of the first and holds the last 50 units again. *)
Example splitText_tail :
  splitText 950 (replicate 950 97%N) = Some [replicate 950 97%N; replicate 50 97%N].
Proof. vm_compute. reflexivity. Qed.

(** The windows of that text: the end index of the first, 1000, lies
    past the end of the text, and the two window texts share the 50 units
    from index 900 on, which are the whole second window. *)
Example windows_tail :
  let normalized := replicate 950 97%N in
  windows_loop 950 normalized 0 = Some [(0, 1000); (900, 1900)]
  /\ overlapping normalized [(0, 1000); (900, 1900)]
  /\ slice normalized 900 1000 = replicate 50 97%N
  /\ window_text normalized (900, 1900) = replicate 50 97%N.
Proof.
  intros normalized. split; [vm_compute; reflexivity|].
  split; [|split; vm_compute; reflexivity].
  cbn [overlapping fst snd].
  split; [reflexivity|]. split; [reflexivity|].
  split; [vm_compute; reflexivity|]. split; [vm_compute; reflexivity|].
  split; [vm_compute; reflexivity|exact I].
Qed.

End ChunkerClaims.

(** ** Text normalizer *)

Section NormalizerFacts.
Import JS Normalizer.

Lemma collapse_ws_normal s : normal (collapse_ws s).
Proof.
  induction s as [|c r IH]; simpl; [done|].
  destruct (is_space c) eqn:Ec.
  - destruct r as [|c' r']; [simpl; tauto|].
    destruct (is_space c') eqn:Ec'; [exact IH|].
    split; [|exact IH]. intros _. split; [done|].
    simpl. by rewrite Ec'.
  - split; [|exact IH]. simpl. congruence.
Qed.

Lemma collapse_ws_fixed s : normal s -> collapse_ws s = s.
Proof.
  induction s as [|c r IH]; simpl; [done|].
  intros [Hc Hr]. destruct (is_space c) eqn:Ec.
  - destruct (Hc eq_refl) as [-> Hn].
    destruct r as [|c' r']; [done|]. rewrite Hn. by rewrite IH.
  - by rewrite IH.
Qed.

Lemma trimStart_suffix s : exists t, s = t ++ trimStart s.
Proof.
  induction s as [|c r [t IH]]; simpl; [by exists []|].
  destruct (is_space c).
  - exists (c :: t). simpl. by rewrite <- IH.
  - by exists [].
Qed.

Lemma trimEnd_prefix s : exists t, s = trimEnd s ++ t.
Proof.
  unfold trimEnd. destruct (trimStart_suffix (rev s)) as [t Ht].
  exists (rev t). rewrite <- rev_app_distr, <- Ht. by rewrite rev_involutive.
Qed.

Lemma normal_app_r a b : normal (a ++ b) -> normal b.
Proof. induction a as [|c a IH]; simpl; [done|]. intros [_ H]. auto. Qed.

Lemma normal_app_l a b : normal (a ++ b) -> normal a.
Proof.
  induction a as [|c a IH]; simpl; [done|].
  intros [Hc H]. split; [|auto].
  intros Ec. destruct (Hc Ec) as [-> Hn]. split; [done|].
  destruct a; [done|exact Hn].
Qed.

Lemma trim_normal s : normal s -> normal (trim s).
Proof.
  intros H. unfold trim.
  destruct (trimStart_suffix s) as [t Ht].
  destruct (trimEnd_prefix (trimStart s)) as [u Hu].
  rewrite Ht in H. apply normal_app_r in H.
  rewrite Hu in H. by apply normal_app_l in H.
Qed.

Lemma trimStart_head s :
  match trimStart s with c :: _ => is_space c = false | [] => True end.
Proof.
  induction s as [|c r IH]; simpl; [done|].
  destruct (is_space c) eqn:E; [exact IH|exact E].
Qed.

Lemma trimStart_fixed s :
  match s with c :: _ => is_space c = false | [] => True end -> trimStart s = s.
Proof. destruct s as [|c r]; simpl; [done|]. by intros ->. Qed.

Lemma trimStart_snoc l c :
  is_space c = false -> exists l', trimStart (l ++ [c]) = l' ++ [c].
Proof.
  intros Hc. induction l as [|x l [l' IH]]; simpl.
  - rewrite Hc. by exists [].
  - destruct (is_space x); [by exists l'|]. by exists (x :: l).
Qed.

Lemma trim_trimmed s : trimmed (trim s).
Proof.
  unfold trimmed, trim, trimEnd. rewrite rev_involutive. split.
  - pose proof (trimStart_head s) as Hh.
    destruct (trimStart s) as [|c r]; [done|].
    simpl rev. destruct (trimStart_snoc (rev r) c Hh) as [l' ->].
    rewrite rev_app_distr. simpl. by rewrite Hh.
  - apply trimStart_fixed, trimStart_head.
Qed.

Lemma trim_fixed s : trimmed s -> trim s = s.
Proof.
  intros [H1 H2]. unfold trim, trimEnd. rewrite H1, H2. apply rev_involutive.
Qed.

Lemma normalize_ws_idempotent s :
  trim (collapse_ws (trim (collapse_ws s))) = trim (collapse_ws s).
Proof.
  rewrite (collapse_ws_fixed (trim (collapse_ws s))).
  - apply trim_fixed, trim_trimmed.
  - apply trim_normal, collapse_ws_normal.
Qed.

Lemma elem_of_trimStart x s : x ∈ trimStart s -> x ∈ s.
Proof.
  destruct (trimStart_suffix s) as [t Ht]. intros H.
  rewrite Ht. apply elem_of_app. by right.
Qed.

Lemma elem_of_trim x s : x ∈ trim s -> x ∈ s.
Proof.
  unfold trim, trimEnd. intros H. apply elem_of_trimStart.
  apply list_elem_of_In, in_rev, list_elem_of_In, elem_of_trimStart in H.
  by apply list_elem_of_In, in_rev, list_elem_of_In.
Qed.

Lemma elem_of_collapse_ws x s : x ∈ collapse_ws s -> x ∈ s \/ x = SPACE.
Proof.
  induction s as [|c r IH]; simpl; [by left|].
  destruct (is_space c).
  - destruct r as [|c' r'].
    + intros H. apply list_elem_of_singleton in H. by right.
    + destruct (is_space c').
      * intros H. destruct (IH H); [left; by constructor|by right].
      * intros H. apply elem_of_cons in H as [->|H]; [by right|].
        destruct (IH H); [left; by constructor|by right].
  - intros H. apply elem_of_cons in H as [->|H]; [left; constructor|].
    destruct (IH H); [left; by constructor|by right].
Qed.

(** An entity pattern cannot match in a text without ampersand. *)
Lemma replace_entity_no_amp p r prev s :
  38%N ∉ s -> replace_all (m_lit (38%N :: p)) r prev O s = s.
Proof.
  revert prev. induction s as [|c rest IH]; intros prev Hs; [done|].
  apply not_elem_of_cons in Hs as [Hc Hrest].
  cbn [replace_all]. unfold m_lit at 1. cbn [starts_with].
  destruct (N.eqb_spec 38 c) as [E|_]; [congruence|].
  cbn [andb]. by rewrite IH.
Qed.

Lemma decode_entities_no_amp s : 38%N ∉ s -> decode_entities s = s.
Proof.
  intros H. unfold decode_entities, entities, replace. simpl fold_left.
  change (lit "&amp;#39;") with (38%N :: lit "amp;#39;").
  change (lit "&amp;quot;") with (38%N :: lit "amp;quot;").
  change (lit "&amp;amp;") with (38%N :: lit "amp;amp;").
  change (lit "&amp;lt;") with (38%N :: lit "amp;lt;").
  change (lit "&amp;gt;") with (38%N :: lit "amp;gt;").
  change (lit "&#39;") with (38%N :: lit "#39;").
  change (lit "&quot;") with (38%N :: lit "quot;").
  change (lit "&amp;") with (38%N :: lit "amp;").
  change (lit "&lt;") with (38%N :: lit "lt;").
  change (lit "&gt;") with (38%N :: lit "gt;").
  change (lit "&nbsp;") with (38%N :: lit "nbsp;").
  by repeat (rewrite (replace_entity_no_amp _ _ _ s) by exact H).
Qed.

End NormalizerFacts.

Section NormalizerClaims.
Import JS Normalizer.

(** C2, as amended. With filler removal and re-paragraphing switched off,
    on a text without ampersand, [cleanTranscriptText] is idempotent: what
    is left is the white-space normalization, and normalizing a normalized
    text changes nothing. *)
Theorem cleanTranscriptText_idempotent_whitespace (text : jsstring) (o : options) :
  removeFillers o = false ->
  addParagraphs o && (sentencesPerParagraph o >? 0) = false ->
  38%N ∉ text ->
  cleanTranscriptText (cleanTranscriptText text o) o = cleanTranscriptText text o.
Proof.
  intros Hf Hp Hamp. unfold cleanTranscriptText. rewrite Hf, Hp.
  rewrite (decode_entities_no_amp text Hamp).
  rewrite decode_entities_no_amp.
  - apply normalize_ws_idempotent.
  - intros H. apply elem_of_trim, elem_of_collapse_ws in H as [H|H]; [done|discriminate].
Qed.

Lemma cleanTranscriptText_idempotent_whitespace_witness :
  let o := {| removeFillers := false; addParagraphs := false; sentencesPerParagraph := 4 |} in
  let text := lit "  so   it goes.  and on " in
  cleanTranscriptText (cleanTranscriptText text o) o = cleanTranscriptText text o.
Proof.
  intros o text. apply cleanTranscriptText_idempotent_whitespace.
  - reflexivity.
  - reflexivity.
  - unfold text. vm_compute. intros H.
    repeat (apply elem_of_cons in H as [H|H]; [discriminate|]).
    by apply elem_of_nil in H.
Defined.

(** C2 as stated fails at each of the three other stages, here with the
    default options: a four-fold encoded ampersand is decoded in two
    rounds; removing [you know] from [you you know know.] leaves another
    [you know.]; and the sentences of [a. . b.] are rejoined with two
    spaces, which the next run collapses. *)
Lemma cleanTranscriptText_not_idempotent :
  let norm t := cleanTranscriptText t default_options in
  (norm (lit "&amp;amp;amp;amp;") = lit "&amp;"
   /\ norm (norm (lit "&amp;amp;amp;amp;")) = lit "&")
  /\ (norm (lit "you you know know.") = lit "you know."
      /\ norm (norm (lit "you you know know.")) = [])
  /\ (norm (lit "a. . b.") = lit "a.  b."
      /\ norm (norm (lit "a. . b.")) = lit "a. b.")
  /\ ~ (forall (T : jsstring) (o : options),
          cleanTranscriptText (cleanTranscriptText T o) o = cleanTranscriptText T o).
Proof.
  intros norm.
  split; [split; vm_compute; reflexivity|].
  split; [split; vm_compute; reflexivity|].
  split; [split; vm_compute; reflexivity|].
  intros H. specialize (H (lit "a. . b.") default_options).
  vm_compute in H. discriminate.
Qed.

(** A run of the normalizer with the default options: entities, fillers,
    white space, paragraphs of four sentences; the text after the last
    terminator is not part of any sentence and is lost. *)
Example cleanTranscriptText_sample :
  cleanTranscriptText
    (lit "Um, so like, I think it's &amp;#39;fine&amp;#39;. Uh you know, we like the plan!  One. Two. Three. Four? Five")
    default_options
  = lit "so I think it's 'fine'. we the plan! One. Two." ++ [10; 10]%N
    ++ lit "Three. Four?".
Proof. vm_compute. reflexivity. Qed.

(** [\b] keeps fillers inside words; [you know] has no closing [\b]. *)
Example remove_fillers_words :
  remove_fillers (lit "The summer plan, uh, you knowledge") = lit "The summer plan, ledge".
Proof. vm_compute. reflexivity. Qed.

End NormalizerClaims.

(** ** Transcript acquisition *)

Section AcquireClaims.
Import JS Model Acquire.

(** C5, as amended. When the caption provider gives nothing (no segments,
    or a failure) and the audio transcription succeeds, the result is the
    one of the fallback and its source is the fallback's tag, which the
    code spells [whisper]; it is never [extractor]. *)
Theorem acquire_fallback_source env ytVideoId w w' r :
  fetchTranscript env ytVideoId = None ->
  acquire env ytVideoId w = (w', Some r) ->
  transcribeWithWhisper env ytVideoId w = (w', Some r)
  /\ source r = whisper
  /\ source_tag (source r) = "whisper"%string
  /\ source r <> extractor.
Proof.
  intros Hprimary Hacq. unfold acquire in Hacq. rewrite Hprimary in Hacq.
  split; [exact Hacq|].
  assert (source r = whisper) as Hsrc.
  { unfold transcribeWithWhisper in Hacq.
    destruct (ytdlp_installed env); simpl in Hacq; [|congruence].
    destruct (ytdlp_download env ytVideoId _) as [files' ok].
    destruct ok; simpl in Hacq; [|congruence].
    destruct (files' !! expectedFile env ytVideoId) as [size|]; [|congruence].
    destruct (too_large size); [congruence|].
    destruct (api_key_set env); simpl in Hacq; [|congruence].
    destruct (whisper_api env _) as [response|e]; [|congruence].
    by injection Hacq as _ <-. }
  rewrite Hsrc. by repeat split.
Qed.

Lemma acquire_fallback_source_witness :
  let run := acquire (AcquireSample.env 1000) "abc" AcquireSample.world0 in
  fetchTranscript (AcquireSample.env 1000) "abc" = None
  /\ run.2 = Some (parse_response AcquireSample.response)
  /\ source (parse_response AcquireSample.response) = whisper.
Proof.
  intros run.
  assert (fetchTranscript (AcquireSample.env 1000) "abc" = None) as H0
    by reflexivity.
  assert (run.2 = Some (parse_response AcquireSample.response)) as H2
    by (vm_compute; reflexivity).
  assert (run = (run.1, Some (parse_response AcquireSample.response))) as Hrun
    by (rewrite <- H2; apply surjective_pairing).
  split; [exact H0|]. split; [exact H2|].
  exact (proj1 (proj2 (acquire_fallback_source _ _ _ _ _ H0 Hrun))).
Defined.

(** C5 as stated names the tag [whisper-fallback]; the result of the
    fallback does not carry it. *)
Lemma acquire_fallback_tag_counterexample :
  let run := acquire (AcquireSample.env 1000) "abc" AcquireSample.world0 in
  fetchTranscript (AcquireSample.env 1000) "abc" = None
  /\ (source_tag ∘ source) <$> run.2 = Some "whisper"%string
  /\ (source_tag ∘ source) <$> run.2 <> Some "whisper-fallback"%string.
Proof.
  intros run. split; [reflexivity|].
  assert ((source_tag ∘ source) <$> run.2 = Some "whisper"%string) as H
    by (vm_compute; reflexivity).
  split; [exact H|]. rewrite H. discriminate.
Qed.

(** C6. Whenever the download leaves an audio file above the ceiling of
    24 MB, [transcribeWithWhisper] returns [null]; what it did is: probe
    the downloader, download, remove the scratch file. The provider was
    not called, and the scratch file is gone. *)
Theorem transcribeWithWhisper_oversize env videoId w files' ok size :
  ytdlp_installed env = true ->
  ytdlp_download env videoId (files w) = (files', ok) ->
  files' !! expectedFile env videoId = Some size ->
  (MAX_BYTES < size)%N ->
  exists w',
    transcribeWithWhisper env videoId w = (w', None)
    /\ events w' = events w ++ [Exec "yt-dlp --version";
                                Exec (download_command env videoId);
                                Unlink (expectedFile env videoId)]
    /\ (forall path, Transcribe path ∉ drop (length (events w)) (events w'))
    /\ files w' !! expectedFile env videoId = None.
Proof.
  intros Hinst Hdl Hfile Hsize.
  assert (too_large size = true) as Hbig by (by apply N.ltb_lt).
  assert (forall w0 : World,
             files w0 = files' ->
             files (unlinkSync (expectedFile env videoId) w0)
               !! expectedFile env videoId = None) as Hgone.
  { intros w0 _. apply lookup_delete_eq. }
  unfold transcribeWithWhisper. rewrite Hinst. simpl.
  rewrite Hdl. destruct ok; simpl.
  - rewrite Hfile, Hbig. eexists. split; [reflexivity|]. simpl.
    rewrite <- !app_assoc. simpl. split; [done|]. split.
    + intros path. rewrite drop_app_length.
      intros H. repeat (apply elem_of_cons in H as [H|H]; [discriminate|]).
      by apply elem_of_nil in H.
    + apply lookup_delete_eq.
  - unfold cleanup_on_error. simpl. rewrite Hfile.
    eexists. split; [reflexivity|]. simpl.
    rewrite <- !app_assoc. simpl. split; [done|]. split.
    + intros path. rewrite drop_app_length.
      intros H. repeat (apply elem_of_cons in H as [H|H]; [discriminate|]).
      by apply elem_of_nil in H.
    + apply lookup_delete_eq.
Qed.

(** The scenario of a 30 MB file against the 24 MB ceiling. *)
Lemma transcribeWithWhisper_oversize_witness :
  (MAX_BYTES < 30 * AcquireSample.MB)%N
  /\ exists w',
      transcribeWithWhisper (AcquireSample.env (30 * AcquireSample.MB)) "abc"
        AcquireSample.world0 = (w', None)
      /\ (forall path, Transcribe path ∉ events w')
      /\ files w' !! "/tmp/hosksaid_abc.mp3"%string = None.
Proof.
  split; [reflexivity|].
  destruct (transcribeWithWhisper_oversize
              (AcquireSample.env (30 * AcquireSample.MB)) "abc" AcquireSample.world0
              (<["/tmp/hosksaid_abc.mp3"%string := (30 * AcquireSample.MB)%N]> ∅)
              true (30 * AcquireSample.MB)%N)
    as (w' & Hrun & _ & Hnone & Hgone).
  - reflexivity.
  - reflexivity.
  - apply lookup_insert_eq.
  - reflexivity.
  - exists w'. split; [exact Hrun|]. split; [exact Hnone | exact Hgone].
Defined.

End AcquireClaims.

(** ** Ingestion orchestrator *)

Section IngestFacts.
Import JS Model Acquire Ingest IngestSpec.
Local Open Scope ingest_scope.

Lemma processTranscript_fails sv rawText :
  enrichment_fails sv rawText -> exists e, processTranscript sv rawText = Thrown e.
Proof.
  unfold processTranscript.
  intros [[e He]|(cleaned & Hc & [[e He]|[e He]])].
  - rewrite He. eauto.
  - rewrite Hc, He. eauto.
  - rewrite Hc, He. destruct (generateSummary sv cleaned); eauto.
Qed.

Lemma processTranscript_throws sv rawText e :
  processTranscript sv rawText = Thrown e -> enrichment_fails sv rawText.
Proof.
  unfold processTranscript, enrichment_fails.
  destruct (cleanTranscript sv rawText) as [cleaned|e0]; [|by left; eauto].
  intros H. right. exists cleaned. split; [done|].
  destruct (generateSummary sv cleaned) as [s|e1]; [|left; eauto].
  destruct (generateTags sv cleaned) as [t|e2]; [done|right; eauto].
Qed.

(** The tag loop touches the tags, the join and the journal, and the
    journal only by tag writes. *)
Lemma save_tags_frame sv videoDbId tags st :
  let st' := (save_tags sv videoDbId tags st).2 in
  videos (db st') = videos (db st)
  /\ transcripts (db st') = transcripts (db st)
  /\ ingestion_logs (db st') = ingestion_logs (db st)
  /\ sys st' = sys st
  /\ exists ws, journal (db st') = journal (db st) ++ ws /\ Forall is_tag_write ws.
Proof.
  revert st. induction tags as [|[name|] rest IH]; intros st; simpl.
  - repeat split. exists []. by rewrite app_nil_r.
  - unfold bind, upsert_tag, upsert_video_tag, write_db.
    destruct (find_tag _ _) as [t|];
      (match goal with |- context [save_tags sv videoDbId rest ?s] =>
         destruct (IH s) as (Hv & Ht & Hl & Hs & ws & Hj & Hws) end);
      simpl in *; rewrite Hv, Ht, Hl, Hs, Hj;
      repeat case_decide; simpl; repeat split;
      eexists; (split; [by rewrite <- !app_assoc|]);
      repeat constructor; done.
  - repeat split. exists []. by rewrite app_nil_r.
Qed.

Lemma save_tags_journal sv videoDbId tags st r st' :
  save_tags sv videoDbId tags st = (r, st') ->
  exists ws, journal (db st') = journal (db st) ++ ws /\ Forall is_tag_write ws.
Proof.
  intros H. pose proof (save_tags_frame sv videoDbId tags st) as Hf.
  rewrite H in Hf. simpl in Hf. tauto.
Qed.

(** The writes of the [try] block and its [catch] have the bracketed
    shape, whatever the services answer. *)
Lemma process_video_orchestrated sv videoDbId ytVideoId skip st :
  exists new,
    journal (db (process_video sv videoDbId ytVideoId skip st).2)
    = journal (db st) ++ new
    /\ orchestrated videoDbId skip new.
Proof.
  unfold process_video, try_block, run_acquire, enrich, bind, ret, log,
    update_video_status, upsert_transcript, write_db. simpl.
  destruct (acquire (acquisition sv) ytVideoId (sys st)) as [w [tr|]]; simpl.
  2:{ eexists. split; [by rewrite <- !app_assoc|]. left. eexists. reflexivity. }
  destruct skip; simpl.
  - case_decide; simpl;
      (eexists; split; [by rewrite <- !app_assoc|]);
      right; exists (SourceDetails (source tr) (Z.of_nat (length (text tr)))), [];
      eexists _, [], _; (split; [reflexivity|]); do 2 (split; [done|]);
      by left.
  - destruct (processTranscript sv (text tr)) as [processed|llmError]; simpl.
    + case_decide; simpl;
        (match goal with |- context [save_tags sv videoDbId ?t ?s] =>
           destruct (save_tags sv videoDbId t s) as [saved st2] eqn:E end);
        apply save_tags_journal in E as (ws & Hj & Hws); simpl in Hj;
        destruct saved as [[]|error]; simpl; rewrite Hj;
        (eexists; split; [by rewrite <- !app_assoc|]);
        right; exists (SourceDetails (source tr) (Z.of_nat (length (text tr)))),
          [WLog (entry videoDbId "llm_processing" "started" NoDetails);
           WLog (entry videoDbId "llm_processing" "completed"
                   (TagsDetails (tags_of processed)))];
        eexists _, ws, _; (split; [simpl; reflexivity|]);
        (split; [eexists _, _; split; [reflexivity|]; auto|]); (split; [done|]);
        first [left; reflexivity | right; eexists; reflexivity].
    + case_decide; simpl;
        (eexists; split; [by rewrite <- !app_assoc|]);
        right; exists (SourceDetails (source tr) (Z.of_nat (length (text tr)))),
          [WLog (entry videoDbId "llm_processing" "started" NoDetails);
           WLog (entry videoDbId "llm_processing" "failed" (ErrorDetails llmError))];
        eexists _, [], _; (split; [simpl; reflexivity|]);
        (split; [eexists _, _; split; [reflexivity|]; auto|]); (split; [done|]);
        by left.
Qed.

Lemma orchestrated_after_upsert videoDbId skip new :
  orchestrated videoDbId skip new ->
  log_trail (after_transcript_upsert new) = []
  \/ log_trail (after_transcript_upsert new) = [("error", "failed")%string].
Proof.
  assert (forall ws, Forall is_tag_write ws -> forall rest,
             log_trail (ws ++ rest) = log_trail rest) as Htag.
  { induction 1 as [|w ws Hw _ IH]; intros rest; [done|].
    destruct w; try done; simpl; apply IH. }
  intros [[d ->]|(d & enrichment & payload & tagging & ending & -> & He & Ht & Hend)].
  - by left.
  - assert (after_transcript_upsert
              ([WLog (entry videoDbId "fetch_transcript" "started" NoDetails);
                WLog (entry videoDbId "fetch_transcript" "completed" d)]
               ++ enrichment ++ [WTranscriptUpsert payload] ++ tagging ++ ending)
            = tagging ++ ending) as ->.
    { destruct skip.
      - by subst enrichment.
      - by destruct He as (o & d' & -> & _). }
    rewrite (Htag _ Ht).
    destruct Hend as [->|[d' ->]]; [by left|by right].
Qed.

Lemma logged_app j1 j2 : logged (j1 ++ j2) = logged j1 ++ logged j2.
Proof. apply omap_app. Qed.

Lemma log_trail_app j1 j2 : log_trail (j1 ++ j2) = log_trail j1 ++ log_trail j2.
Proof. apply omap_app. Qed.

Lemma logged_tag_writes ws : Forall is_tag_write ws -> logged ws = [].
Proof. induction 1 as [|w ws Hw _ IH]; [done|]. by destruct w. Qed.

Lemma log_trail_tag_writes ws : Forall is_tag_write ws -> log_trail ws = [].
Proof. induction 1 as [|w ws Hw _ IH]; [done|]. by destruct w. Qed.

(** The log entries of the [try] block and its [catch]: what is stored
    in the log table, and the steps and outcomes, by the answers of the
    acquisition and of the enrichment and by the result of the run. *)
Lemma process_video_trail sv videoDbId ytVideoId skip st :
  exists new,
    journal (db (process_video sv videoDbId ytVideoId skip st).2)
    = journal (db st) ++ new
    /\ ingestion_logs (db (process_video sv videoDbId ytVideoId skip st).2)
       = ingestion_logs (db st) ++ logged new
    /\ log_trail new
       = steps_logged sv skip (acquire (acquisition sv) ytVideoId (sys st)).2
           (process_video sv videoDbId ytVideoId skip st).1.
Proof.
  unfold process_video, try_block, run_acquire, enrich, bind, ret, log,
    update_video_status, upsert_transcript, write_db. simpl.
  destruct (acquire (acquisition sv) ytVideoId (sys st)) as [w [tr|]]; simpl.
  2:{ eexists. split; [by rewrite <- !app_assoc|]. simpl.
      split; [by rewrite <- !app_assoc|done]. }
  destruct skip; simpl.
  - case_decide; simpl;
      (eexists; split; [by rewrite <- !app_assoc|]); simpl;
      (split; [by rewrite <- !app_assoc|done]).
  - destruct (processTranscript sv (text tr)) as [processed|llmError]; simpl.
    + case_decide; simpl;
        (match goal with |- context [save_tags sv videoDbId ?t ?s] =>
           pose proof (save_tags_frame sv videoDbId t s) as Hf;
           destruct (save_tags sv videoDbId t s) as [saved st2] end);
        simpl in Hf; destruct Hf as (_ & _ & Hl & _ & ws & Hj & Hws);
        destruct saved as [[]|error]; simpl; rewrite Hj, Hl;
        (eexists; split; [by rewrite <- !app_assoc|]);
        rewrite !logged_app, !log_trail_app,
          (logged_tag_writes ws Hws), (log_trail_tag_writes ws Hws); simpl;
        (split; [by rewrite <- !app_assoc|done]).
    + case_decide; simpl;
        (eexists; split; [by rewrite <- !app_assoc|]); simpl;
        (split; [by rewrite <- !app_assoc|done]).
Qed.

Lemma process_video_logged sv videoDbId ytVideoId skip st :
  exists new,
    journal (db (process_video sv videoDbId ytVideoId skip st).2)
    = journal (db st) ++ new
    /\ ingestion_logs (db (process_video sv videoDbId ytVideoId skip st).2)
       = ingestion_logs (db st) ++ logged new
    /\ orchestrated videoDbId skip new
    /\ log_trail new
       = steps_logged sv skip (acquire (acquisition sv) ytVideoId (sys st)).2
           (process_video sv videoDbId ytVideoId skip st).1.
Proof.
  destruct (process_video_trail sv videoDbId ytVideoId skip st)
    as (new & Hj & Hl & Ht).
  destruct (process_video_orchestrated sv videoDbId ytVideoId skip st)
    as (new' & Hj' & Hshape).
  rewrite Hj in Hj'. apply app_inv_head in Hj'. subst new'.
  by exists new.
Qed.

Lemma select_video_elem ytVideoId s row :
  select_video ytVideoId s = Some row -> row ∈ videos s.
Proof.
  unfold select_video, single. intros H.
  destruct (filter _ (videos s)) as [|r [|? ?]] eqn:E; try done.
  injection H as ->.
  assert (row ∈ filter (fun v => v_youtube_id v = ytVideoId) (videos s)) as Hin
    by (rewrite E; constructor).
  by apply list_elem_of_filter in Hin as [_ ?].
Qed.

(** What a run does when the acquisition succeeds and the enrichment
    fails: the state after the [try] block. *)
Lemma process_video_enrichment_failure sv videoDbId ytVideoId st w tr e :
  acquire (acquisition sv) ytVideoId (sys st) = (w, Some tr) ->
  processTranscript sv (text tr) = Thrown e ->
  let payload :=
    {| p_video_id := videoDbId; p_raw_text := text tr; p_cleaned_text := text tr;
       p_summary := None; p_source := source tr; p_processing_status := completed |} in
  exists st',
    process_video sv videoDbId ytVideoId false st = (Success, st')
    /\ journal (db st') = journal (db st) ++
         [WLog (entry videoDbId "fetch_transcript" "started" NoDetails);
          WLog (entry videoDbId "fetch_transcript" "completed"
                  (SourceDetails (source tr) (Z.of_nat (length (text tr)))));
          WLog (entry videoDbId "llm_processing" "started" NoDetails);
          WLog (entry videoDbId "llm_processing" "failed" (ErrorDetails e));
          WTranscriptUpsert payload;
          WVideoStatus videoDbId completed]
    /\ tags (db st') = tags (db st)
    /\ video_tags (db st') = video_tags (db st)
    /\ videos (db st') = videos (set_status videoDbId completed (db st))
    /\ transcripts (db st') =
         (if decide (videoDbId ∈ map t_video_id (transcripts (db st)))
          then transcripts (db st)
          else transcripts (db st) ++
                 [{| t_id := next_uuid (db st); t_video_id := videoDbId;
                     t_raw_text := text tr; t_cleaned_text := text tr;
                     t_summary := None; t_source := source tr;
                     t_processing_status := completed |}]).
Proof.
  intros Hacq Hllm payload.
  unfold process_video, try_block, run_acquire, enrich, bind, ret, log,
    update_video_status, upsert_transcript, write_db. simpl.
  rewrite Hacq. simpl. rewrite Hllm. simpl.
  case_decide; simpl; (eexists; split; [reflexivity|]); simpl;
    rewrite <- !app_assoc; simpl; by rewrite ?decide_True, ?decide_False by done.
Qed.

End IngestFacts.

Section TagFacts.
Import JS Model Acquire Ingest IngestSpec TagSpec.
Local Open Scope ingest_scope.

Lemma keeps_ret {A} (a : A) : keeps_unique (ret a).
Proof. by intros st H. Qed.

Lemma keeps_bind {A B} (m : M A) (k : A -> M B) :
  keeps_unique m -> (forall a, keeps_unique (k a)) -> keeps_unique (bind m k).
Proof.
  intros Hm Hk st H. unfold bind.
  specialize (Hm st H). destruct (m st) as [a st1]. by apply Hk.
Qed.

Lemma keeps_read {A} (f : Store -> A) : keeps_unique (read f).
Proof. by intros st H. Qed.

(** A write that leaves the tags and the join alone. *)
Lemma keeps_write_db w f :
  (forall s, tags (f s) = tags s /\ video_tags (f s) = video_tags s) ->
  keeps_unique (write_db w f).
Proof.
  intros Hf st H. unfold write_db, tags_unique in *. simpl.
  destruct (Hf (db st)) as [-> ->]. exact H.
Qed.

Lemma keeps_log videoDbId step status details :
  keeps_unique (log videoDbId step status details).
Proof. by apply keeps_write_db. Qed.

Lemma keeps_update_video_status videoDbId status :
  keeps_unique (update_video_status videoDbId status).
Proof. by apply keeps_write_db. Qed.

Lemma keeps_upsert_transcript p : keeps_unique (upsert_transcript p).
Proof. apply keeps_write_db. intros s. by case_decide. Qed.

Lemma keeps_insert_video sv channelDbId videoInfo :
  keeps_unique (insert_video sv channelDbId videoInfo).
Proof. intros st H. unfold insert_video. by case_decide. Qed.

Lemma keeps_run_acquire sv ytVideoId : keeps_unique (run_acquire sv ytVideoId).
Proof.
  intros st H. unfold run_acquire. by destruct (acquire _ _ _) as [w r].
Qed.

Lemma find_tag_None name ts :
  find_tag name ts = None -> name ∉ map tag_name ts.
Proof.
  unfold find_tag. induction ts as [|t ts IH]; simpl.
  - intros _. apply not_elem_of_nil.
  - case_bool_decide; [done|]. intros Hf. apply not_elem_of_cons. split; [done|auto].
Qed.

Lemma find_tag_Some name ts t :
  find_tag name ts = Some t -> tag_name t = name /\ t ∈ ts.
Proof.
  unfold find_tag. induction ts as [|t' ts IH]; simpl; [done|].
  case_bool_decide.
  - intros [= ->]. split; [done|constructor].
  - intros Hf. destruct (IH Hf). split; [done|by constructor].
Qed.

Lemma find_tag_app name ts t extra :
  find_tag name ts = Some t -> find_tag name (ts ++ extra) = Some t.
Proof.
  unfold find_tag. induction ts as [|t' ts IH]; simpl; [done|].
  by case_bool_decide.
Qed.

Lemma find_tag_app_None name ts extra :
  find_tag name ts = None -> find_tag name (ts ++ extra) = find_tag name extra.
Proof.
  unfold find_tag. induction ts as [|t' ts IH]; simpl; [done|].
  by case_bool_decide.
Qed.

Lemma keeps_upsert_tag name : keeps_unique (upsert_tag name).
Proof.
  intros st [Hn Hp]. unfold upsert_tag, tags_unique.
  destruct (find_tag name (tags (db st))) eqn:E; simpl; [done|].
  split; [|done]. rewrite map_app. apply NoDup_app. split; [done|]. split.
  - intros x Hx Hx'. apply list_elem_of_singleton in Hx'. subst x.
    by apply find_tag_None in E.
  - apply NoDup_singleton.
Qed.

Lemma keeps_upsert_video_tag videoDbId tagId :
  keeps_unique (upsert_video_tag videoDbId tagId).
Proof.
  intros st [Hn Hp]. unfold upsert_video_tag, write_db, tags_unique. simpl.
  case_decide; simpl; [done|]. split; [done|].
  apply NoDup_app. split; [done|]. split; [|apply NoDup_singleton].
  intros x Hx Hx'. apply list_elem_of_singleton in Hx'. by subst x.
Qed.

Lemma keeps_save_tags sv videoDbId tags : keeps_unique (save_tags sv videoDbId tags).
Proof.
  induction tags as [|[name|] rest IH]; simpl; try apply keeps_ret.
  apply keeps_bind; [apply keeps_upsert_tag|]. intros t.
  apply keeps_bind; [apply keeps_upsert_video_tag|]. by intros _.
Qed.

Lemma keeps_process_video sv videoDbId ytVideoId skip :
  keeps_unique (process_video sv videoDbId ytVideoId skip).
Proof.
  unfold process_video. apply keeps_bind.
  - unfold try_block.
    apply keeps_bind; [apply keeps_log|]; intros _.
    apply keeps_bind; [apply keeps_run_acquire|]; intros [tr|].
    + apply keeps_bind; [apply keeps_log|]; intros _.
      apply keeps_bind.
      * unfold enrich. destruct (negb skip); [|apply keeps_ret].
        apply keeps_bind; [apply keeps_log|]; intros _.
        destruct (processTranscript sv (text tr));
          (apply keeps_bind; [apply keeps_log|]; intros _; apply keeps_ret).
      * intros [[cleaned summary] tags].
        apply keeps_bind; [apply keeps_upsert_transcript|]; intros _.
        apply keeps_bind; [apply keeps_save_tags|]; intros [[]|error];
          [|apply keeps_ret].
        apply keeps_bind; [apply keeps_update_video_status|]; intros _.
        apply keeps_ret.
    + apply keeps_bind; [apply keeps_log|]; intros _.
      apply keeps_bind; [apply keeps_update_video_status|]; intros _.
      apply keeps_ret.
  - intros [result|error]; [apply keeps_ret|].
    apply keeps_bind; [apply keeps_log|]; intros _.
    apply keeps_bind; [apply keeps_update_video_status|]; intros _.
    apply keeps_ret.
Qed.

Lemma keeps_ingestVideo sv channelDbId ytVideoId skip :
  keeps_unique (ingestVideo sv channelDbId ytVideoId skip).
Proof.
  unfold ingestVideo.
  apply keeps_bind; [apply keeps_read|]. intros existing.
  case_decide; [apply keeps_ret|].
  destruct (getVideo sv ytVideoId) as [[videoInfo|]|error]; try apply keeps_ret.
  destruct existing as [row|].
  - apply keeps_bind; [apply keeps_update_video_status|]. intros _.
    apply keeps_process_video.
  - apply keeps_bind; [apply keeps_insert_video|]. intros [videoDbId|error].
    + apply keeps_process_video.
    + apply keeps_ret.
Qed.

(** The loop only adds: a tag found before is found after, a link made
    before is there after. *)
Lemma save_tags_mono sv videoDbId tags st :
  let st' := (save_tags sv videoDbId tags st).2 in
  (forall name t, find_tag name (Ingest.tags (db st)) = Some t ->
                  find_tag name (Ingest.tags (db st')) = Some t)
  /\ (forall p, p ∈ video_tags (db st) -> p ∈ video_tags (db st')).
Proof.
  revert st. induction tags as [|[name|] rest IH]; intros st; simpl; [done| |done].
  unfold bind, upsert_tag, upsert_video_tag, write_db.
  destruct (find_tag _ (Ingest.tags (db st))) as [t|] eqn:E; simpl;
    (match goal with |- context [save_tags sv videoDbId rest ?s] =>
       destruct (IH s) as [Ht Hp] end); simpl in *;
    case_decide; simpl in *; split; intros; try (apply Ht); try (apply Hp);
    rewrite ?elem_of_app; auto using find_tag_app.
Qed.

Lemma upsert_tag_found name st :
  find_tag name (Ingest.tags (db (upsert_tag name st).2)) = Some (upsert_tag name st).1.
Proof.
  unfold upsert_tag.
  destruct (find_tag name (Ingest.tags (db st))) as [t|] eqn:E; simpl; [done|].
  rewrite (find_tag_app_None _ _ _ E). unfold find_tag. simpl.
  by rewrite bool_decide_eq_true_2.
Qed.

Lemma upsert_video_tag_linked videoDbId tagId st :
  let st' := (upsert_video_tag videoDbId tagId st).2 in
  Ingest.tags (db st') = Ingest.tags (db st)
  /\ (videoDbId, tagId) ∈ video_tags (db st').
Proof.
  unfold upsert_video_tag, write_db. simpl.
  case_decide; simpl; [done|]. split; [done|].
  apply elem_of_app. right. constructor.
Qed.

(** After the loop every reached tag is stored and linked. *)
Lemma save_tags_links sv videoDbId tags st :
  Forall (fun name => linked videoDbId (toLowerCase sv name)
                        (db (save_tags sv videoDbId tags st).2))
         (reached tags).
Proof.
  revert st. induction tags as [|[name|] rest IH]; intros st; simpl; [done| |done].
  unfold bind.
  pose proof (upsert_tag_found (toLowerCase sv name) st) as Hfound.
  destruct (upsert_tag (toLowerCase sv name) st) as [t st1]. simpl in Hfound.
  pose proof (upsert_video_tag_linked videoDbId (tag_id t) st1) as [Hsame Hlink].
  destruct (upsert_video_tag videoDbId (tag_id t) st1) as [[] st2].
  simpl in Hsame, Hlink.
  constructor; [|apply IH].
  destruct (save_tags_mono sv videoDbId rest st2) as [Ht Hp]. simpl in Ht, Hp.
  exists t. split; [apply Ht; by rewrite Hsame | by apply Hp].
Qed.

(** When every reached tag is stored and linked, the loop changes neither
    table. *)
Lemma save_tags_linked_noop sv videoDbId tags st :
  Forall (fun name => linked videoDbId (toLowerCase sv name) (db st)) (reached tags) ->
  Ingest.tags (db (save_tags sv videoDbId tags st).2) = Ingest.tags (db st)
  /\ video_tags (db (save_tags sv videoDbId tags st).2) = video_tags (db st).
Proof.
  revert st. induction tags as [|[name|] rest IH]; intros st; simpl; [done| |done].
  intros H. apply Forall_cons in H as [(t & Hfind & Hlink) Hrest].
  unfold bind, upsert_tag, upsert_video_tag, write_db. rewrite Hfind. simpl.
  rewrite decide_True by done. simpl.
  match goal with |- context [save_tags sv videoDbId rest ?s] =>
    destruct (IH s) as [Ht Hp]; [exact Hrest|] end.
  by rewrite Ht, Hp.
Qed.

End TagFacts.

Section IngestClaims.
Import JS Model Acquire Ingest IngestSpec TagSpec.
Local Open Scope ingest_scope.

(** An enrichment failure does not abort the run. A run on a video that
    is not yet [completed], whose metadata and transcript are obtained,
    and in which one of the three enrichment calls (cleaning, summary,
    tagging) fails, returns success; it logs [llm_processing]/[failed]; it
    sends the transcript upsert with the raw text in both text columns and
    no summary; it creates no tag and no link; and the video ends
    [completed]. The row with the raw text is stored when the video had
    no transcript row; the second run below is on a video that has
    one. *)
Lemma ingestVideo_survives_enrichment_failure
    sv channelDbId ytVideoId st videoInfo w tr :
  v_status <$> select_video ytVideoId (db st) <> Some completed ->
  (select_video ytVideoId (db st) = None ->
   yv_id videoInfo ∉ map v_youtube_id (videos (db st))) ->
  getVideo sv ytVideoId = Returned (Some videoInfo) ->
  acquire (acquisition sv) ytVideoId (sys st) = (w, Some tr) ->
  enrichment_fails sv (text tr) ->
  exists videoDbId e st' before,
    let payload :=
      {| p_video_id := videoDbId; p_raw_text := text tr; p_cleaned_text := text tr;
         p_summary := None; p_source := source tr; p_processing_status := completed |} in
    ingestVideo sv channelDbId ytVideoId false st = (Success, st')
    /\ journal (db st') = journal (db st) ++ [before] ++
         [WLog (entry videoDbId "fetch_transcript" "started" NoDetails);
          WLog (entry videoDbId "fetch_transcript" "completed"
                  (SourceDetails (source tr) (Z.of_nat (length (text tr)))));
          WLog (entry videoDbId "llm_processing" "started" NoDetails);
          WLog (entry videoDbId "llm_processing" "failed" (ErrorDetails e));
          WTranscriptUpsert payload;
          WVideoStatus videoDbId completed]
    /\ tags (db st') = tags (db st)
    /\ video_tags (db st') = video_tags (db st)
    /\ (exists row, row ∈ videos (db st') /\ v_id row = videoDbId
                    /\ v_status row = completed)
    /\ (videoDbId ∉ map t_video_id (transcripts (db st)) ->
        exists row, row ∈ transcripts (db st')
                    /\ t_video_id row = videoDbId
                    /\ t_raw_text row = text tr /\ t_cleaned_text row = text tr
                    /\ t_summary row = None /\ t_processing_status row = completed).
Proof.
  intros Hnot Hfresh Hget Hacq Hfail.
  destruct (processTranscript_fails sv (text tr) Hfail) as [e He].
  unfold ingestVideo, bind, read. simpl.
  rewrite decide_False by done. rewrite Hget.
  destruct (select_video ytVideoId (db st)) as [row|] eqn:Hsel.
  - (* the video is known: it is set to processing *)
    match goal with |- context [process_video sv (v_id row) ytVideoId false ?s] =>
      destruct (process_video_enrichment_failure sv (v_id row) ytVideoId s w tr e)
        as (st' & Hrun & Hj & Ht & Hvt & Hv & Htr); [exact Hacq|exact He|] end.
    simpl in *.
    exists (v_id row), e, st', (WVideoStatus (v_id row) processing).
    split; [exact Hrun|]. split; [by rewrite Hj, <- !app_assoc|].
    split; [done|]. split; [done|]. split.
    + apply select_video_elem in Hsel.
      eexists. split.
      * rewrite Hv. apply list_elem_of_fmap. eexists. split; [reflexivity|].
        apply list_elem_of_fmap. eexists. split; [reflexivity|exact Hsel].
      * simpl. destruct (decide (v_id row = v_id row)); [simpl|done].
        by rewrite decide_True.
    + intros Hno. rewrite Htr, decide_False by done.
      eexists. split; [apply elem_of_app; right; constructor|]. done.
  - (* the video is new: it is inserted *)
    unfold insert_video. rewrite decide_False by auto. simpl.
    match goal with |- context [process_video sv ?v ytVideoId false ?s] =>
      destruct (process_video_enrichment_failure sv v ytVideoId s w tr e)
        as (st' & Hrun & Hj & Ht & Hvt & Hv & Htr); [exact Hacq|exact He|] end.
    simpl in *.
    eexists (next_uuid (db st)), e, st', (WVideoInsert _).
    split; [exact Hrun|]. split; [by rewrite Hj, <- !app_assoc|].
    split; [done|]. split; [done|]. split.
    + eexists. split.
      * rewrite Hv. apply list_elem_of_fmap. eexists. split; [reflexivity|].
        apply elem_of_app. right. constructor.
      * simpl. by rewrite decide_True.
    + intros Hno. rewrite Htr, decide_False by done.
      eexists. split; [apply elem_of_app; right; constructor|]. done.
Qed.

Lemma ingestVideo_survives_enrichment_failure_witness :
  let sv := IngestSample.services_tagging_down in
  let st := IngestSample.state0 in
  let tr := parse_response AcquireSample.response in
  enrichment_fails sv (text tr)
  /\ exists st',
      ingestVideo sv 7%N "abc" false st = (Success, st')
      /\ Ingest.tags (db st') = [] /\ video_tags (db st') = [].
Proof.
  intros sv st tr.
  assert (enrichment_fails sv (text tr)) as Hfail.
  { right. exists (text tr). split; [reflexivity|]. right. by eexists. }
  split; [exact Hfail|].
  set (run := acquire (acquisition sv) "abc" (sys st)).
  assert (run.2 = Some tr) as H2 by (vm_compute; reflexivity).
  assert (run = (run.1, Some tr)) as Hrun
    by (rewrite <- H2; apply surjective_pairing).
  destruct (ingestVideo_survives_enrichment_failure sv 7%N "abc" st
              (IngestSample.video "abc") run.1 tr)
    as (videoDbId & e & st' & before & Hres & _ & Htags & Hlinks & _).
  - discriminate.
  - intros _. apply not_elem_of_nil.
  - reflexivity.
  - exact Hrun.
  - exact Hfail.
  - exists st'. split; [exact Hres|]. split; [exact Htags|exact Hlinks].
Defined.

(** C7 fails on a second run. The first run on the empty store stores
    the transcript of the video with the cleaned text and the summary,
    then throws in the tag loop, and the video is [failed]. The second
    run finds the language model down: it logs [llm_processing]/[failed],
    sends the transcript upsert with the raw text in both text columns and
    no summary, and sets the video [completed]. The upsert names no
    conflict column, the video already has a transcript, and the request
    is refused unnoticed: the stored row still holds the cleaned text and
    the summary of the first run, and no row holds the fallback. *)
Lemma ingestVideo_retry_keeps_old_transcript :
  let sv := RetrySample.services_model_down in
  let st := RetrySample.after_first in
  let raw := lit "hello there" in
  let old :=
    {| t_id := 2%N; t_video_id := 1%N; t_raw_text := raw;
       t_cleaned_text := lit "Hello there."; t_summary := Some (lit "A greeting.");
       t_source := whisper; t_processing_status := completed |} in
  let fallback :=
    {| p_video_id := 1%N; p_raw_text := raw; p_cleaned_text := raw;
       p_summary := None; p_source := whisper; p_processing_status := completed |} in
  let run := ingestVideo sv 7%N "abc" false st in
  (ingestVideo RetrySample.services_first 7%N "abc" false IngestSample.state0).1
  = Failed "TypeError: tagName.toLowerCase is not a function"
  /\ transcripts (db st) = [old]
  /\ map (fun v => (v_id v, v_youtube_id v, v_status v)) (videos (db st))
     = [(1%N, "abc"%string, failed)]
  /\ (acquire (acquisition sv) "abc" (sys st)).2
     = Some {| text := raw; segments := []; source := whisper |}
  /\ enrichment_fails sv raw
  /\ run.1 = Success
  /\ journal (db run.2) = journal (db st) ++
       [WVideoStatus 1%N processing;
        WLog (entry 1%N "fetch_transcript" "started" NoDetails);
        WLog (entry 1%N "fetch_transcript" "completed" (SourceDetails whisper 11));
        WLog (entry 1%N "llm_processing" "started" NoDetails);
        WLog (entry 1%N "llm_processing" "failed"
                (ErrorDetails "503 service unavailable"));
        WTranscriptUpsert fallback;
        WVideoStatus 1%N completed]
  /\ transcripts (db run.2) = [old]
  /\ map (fun v => (v_id v, v_youtube_id v, v_status v)) (videos (db run.2))
     = [(1%N, "abc"%string, completed)]
  /\ ~ exists row, row ∈ transcripts (db run.2)
                   /\ t_cleaned_text row = raw /\ t_summary row = None.
Proof.
  intros sv st raw old fallback run.
  assert (transcripts (db run.2) = [old]) as Hkept by (vm_compute; reflexivity).
  split; [vm_compute; reflexivity|].
  split; [vm_compute; reflexivity|].
  split; [vm_compute; reflexivity|].
  split; [vm_compute; reflexivity|].
  split; [left; by eexists|].
  split; [vm_compute; reflexivity|].
  split; [vm_compute; reflexivity|].
  split; [exact Hkept|].
  split; [vm_compute; reflexivity|].
  intros (row & Hrow & _ & Hsummary). rewrite Hkept in Hrow.
  apply list_elem_of_singleton in Hrow. by subst row.
Qed.

(** C8, as amended. A run of [ingestVideo] that reaches the [try] block
    (the video is not yet [completed], the listing provider returns its
    metadata, and its row exists or is inserted) sends, after the one
    write of the preamble, writes of this shape: a
    [fetch_transcript]/[started] entry, then a [fetch_transcript] entry
    with the outcome of the acquisition, [completed] or [failed]; when a
    transcript was acquired and the enrichment is not skipped, a
    [llm_processing]/[started] entry and a [llm_processing] entry with the
    outcome of the enrichment; then the transcript upsert, the tag writes
    and the status update, none of which has a log entry of its own; an
    exception caught by the orchestrator adds one [error]/[failed] entry
    before the status is set to [failed]. The steps and outcomes logged
    are those of [steps_logged], and the entries are the rows added to
    the log table. A run that does not reach the [try] block adds no
    row. *)
Theorem ingestVideo_log_brackets sv channelDbId ytVideoId skip st :
  let run := ingestVideo sv channelDbId ytVideoId skip st in
  exists added,
    journal (db run.2) = journal (db st) ++ added
    /\ ingestion_logs (db run.2) = ingestion_logs (db st) ++ logged added
    /\ match reaches_try sv ytVideoId st with
       | None => logged added = []
       | Some videoDbId =>
           exists pre new,
             added = pre :: new
             /\ (pre = WVideoStatus videoDbId processing
                 \/ exists row, pre = WVideoInsert row)
             /\ orchestrated videoDbId skip new
             /\ log_trail new
                = steps_logged sv skip
                    (acquire (acquisition sv) ytVideoId (sys st)).2 run.1
             /\ (log_trail (after_transcript_upsert new) = []
                 \/ log_trail (after_transcript_upsert new)
                    = [("error", "failed")%string])
       end.
Proof.
  assert (forall videoDbId s pre,
             journal (db s) = journal (db st) ++ [pre] ->
             ingestion_logs (db s) = ingestion_logs (db st) ->
             sys s = sys st ->
             pre = WVideoStatus videoDbId processing
             \/ (exists row, pre = WVideoInsert row) ->
             let run := process_video sv videoDbId ytVideoId skip s in
             exists added,
               journal (db run.2) = journal (db st) ++ added
               /\ ingestion_logs (db run.2) = ingestion_logs (db st) ++ logged added
               /\ exists pre new,
                   added = pre :: new
                   /\ (pre = WVideoStatus videoDbId processing
                       \/ exists row, pre = WVideoInsert row)
                   /\ orchestrated videoDbId skip new
                   /\ log_trail new
                      = steps_logged sv skip
                          (acquire (acquisition sv) ytVideoId (sys st)).2 run.1
                   /\ (log_trail (after_transcript_upsert new) = []
                       \/ log_trail (after_transcript_upsert new)
                          = [("error", "failed")%string])) as Hprocess.
  { intros videoDbId s pre Hj Hl Hsys Hpre run.
    destruct (process_video_logged sv videoDbId ytVideoId skip s)
      as (new & Hj' & Hl' & Hshape & Htrail).
    exists (pre :: new). subst run. rewrite Hj', Hl', Hj, Hl, <- app_assoc.
    split; [done|]. split.
    - f_equal. change (pre :: new) with ([pre] ++ new). rewrite logged_app.
      by destruct Hpre as [->|[row ->]].
    - exists pre, new. rewrite <- Hsys.
      split; [done|]. split; [done|]. split; [done|]. split; [done|].
      by eapply orchestrated_after_upsert. }
  unfold ingestVideo, reaches_try, bind, read, ret. simpl.
  case_decide; simpl.
  { exists []. by rewrite !app_nil_r. }
  destruct (getVideo sv ytVideoId) as [[videoInfo|]|error]; simpl;
    [|exists []; by rewrite !app_nil_r|exists []; by rewrite !app_nil_r].
  destruct (select_video ytVideoId (db st)) as [row|].
  - apply Hprocess with (pre := WVideoStatus (v_id row) processing); auto.
  - unfold insert_video. case_decide; simpl.
    + eexists [_]. split; [reflexivity|]. simpl. by rewrite app_nil_r.
    + eapply Hprocess with (pre := WVideoInsert _); eauto.
Qed.

(** C8 as stated fails on a run in which every call succeeds: the journal
    holds four log entries, two for the acquisition and two for the
    enrichment, and nothing is logged after the transcript upsert, although
    the tag writes and the status update follow it. *)
Lemma ingestVideo_unlogged_steps :
  let run := ingestVideo IngestSample.services 7%N "abc" false IngestSample.state0 in
  run.1 = Success
  /\ log_trail (journal (db run.2))
     = [("fetch_transcript", "started"); ("fetch_transcript", "completed");
        ("llm_processing", "started"); ("llm_processing", "completed")]%string
  /\ map (fun r => (log_step r, log_status r)) (ingestion_logs (db run.2))
     = log_trail (journal (db run.2))
  /\ after_transcript_upsert (journal (db run.2))
     = [WTagUpsert (lit "governance"); WVideoTagUpsert 1%N 3%N;
        WVideoStatus 1%N completed]
  /\ log_trail (after_transcript_upsert (journal (db run.2))) = [].
Proof.
  intros run. repeat split; vm_compute; reflexivity.
Qed.

(** C9. Starting from a store that satisfies the uniqueness constraints
    of the schema (one tag row per name, one join row per pair), a run of
    [ingestVideo] and a second run after it keep them, whatever tags are
    derived; and linking the same derived tags to the same video a second
    time changes neither the tag table nor the join table. The name stored
    is the lowercase form of the derived tag. *)
Theorem tag_upserts_repeatable sv channelDbId ytVideoId skip videoDbId derived st :
  tags_unique (db st) ->
  let once := (ingestVideo sv channelDbId ytVideoId skip st).2 in
  let twice := (ingestVideo sv channelDbId ytVideoId skip once).2 in
  let linked_once := (save_tags sv videoDbId derived st).2 in
  let linked_twice := (save_tags sv videoDbId derived linked_once).2 in
  tags_unique (db once)
  /\ tags_unique (db twice)
  /\ tags_unique (db linked_once)
  /\ Ingest.tags (db linked_twice) = Ingest.tags (db linked_once)
  /\ video_tags (db linked_twice) = video_tags (db linked_once)
  /\ Forall (fun name => linked videoDbId (toLowerCase sv name) (db linked_once))
            (reached derived).
Proof.
  intros H once twice linked_once linked_twice.
  assert (tags_unique (db once)) as H1 by (by apply keeps_ingestVideo).
  split; [exact H1|]. split; [by apply keeps_ingestVideo|].
  split; [by apply keeps_save_tags|].
  pose proof (save_tags_links sv videoDbId derived st) as Hl.
  destruct (save_tags_linked_noop sv videoDbId derived linked_once Hl) as [Ht Hp].
  done.
Qed.

Lemma tag_upserts_repeatable_witness :
  let sv := IngestSample.services in
  let derived := [TagString (lit "Governance"); TagString (lit "governance");
                  TagString (lit "GOVERNANCE")] in
  let linked_once := (save_tags sv 1%N derived IngestSample.state0).2 in
  tags_unique (db IngestSample.state0)
  /\ Ingest.tags (db linked_once) = [{| tag_id := 1%N; tag_name := lit "governance" |}]
  /\ video_tags (db linked_once) = [(1%N, 1%N)]
  /\ tags_unique (db linked_once).
Proof.
  intros sv derived linked_once.
  assert (tags_unique (db IngestSample.state0)) as H0
    by (split; apply NoDup_nil_2).
  split; [exact H0|]. split; [reflexivity|]. split; [reflexivity|].
  exact (proj1 (proj2 (proj2
    (tag_upserts_repeatable sv 7%N "abc" false 1%N derived IngestSample.state0 H0)))).
Defined.

End IngestClaims.

(** ** Retrieval *)

Section SearchFacts.
Import JS Model Search SearchSpec.

Lemma dedupe_loop_keep_first l seen acc :
  (fold_left dedupe_step l (seen, acc)).2 = acc ++ keep_first seen l.
Proof.
  revert seen acc. induction l as [|v r IH]; intros seen acc; simpl.
  - by rewrite app_nil_r.
  - case_decide; [apply IH|]. rewrite IH. by rewrite <- app_assoc.
Qed.

Lemma dedupe_keep_first l : dedupe l = keep_first ∅ l.
Proof. unfold dedupe. by rewrite dedupe_loop_keep_first. Qed.

Lemma keep_first_elem seen l v :
  v ∈ keep_first seen l -> v ∈ l /\ id v ∉ seen.
Proof.
  revert seen. induction l as [|u r IH]; intros seen; simpl.
  - intros H. by apply elem_of_nil in H.
  - case_decide.
    + intros Hv. destruct (IH _ Hv). split; [by constructor|done].
    + intros Hv. apply elem_of_cons in Hv as [->|Hv]; [split; [constructor|done]|].
      destruct (IH _ Hv) as [? Hn]. split; [by constructor|].
      intros Hs. apply Hn, elem_of_union. by right.
Qed.

Lemma keep_first_NoDup seen l : NoDup (map id (keep_first seen l)).
Proof.
  revert seen. induction l as [|u r IH]; intros seen; simpl; [constructor|].
  case_decide; [apply IH|]. simpl. constructor; [|apply IH].
  intros Hin. apply list_elem_of_fmap in Hin as (v & Hid & Hv).
  apply keep_first_elem in Hv as [_ Hn]. set_solver.
Qed.

Lemma keep_first_cover seen l v :
  v ∈ l -> id v ∈ seen \/ id v ∈ map id (keep_first seen l).
Proof.
  revert seen. induction l as [|u r IH]; intros seen Hv; simpl.
  - by apply elem_of_nil in Hv.
  - apply elem_of_cons in Hv as [->|Hv].
    + case_decide; [by left|]. right. simpl. constructor.
    + case_decide; [by apply IH|].
      destruct (IH ({[id u]} ∪ seen) Hv) as [Hs|Hk].
      * apply elem_of_union in Hs as [Hs|Hs]; [|by left].
        right. apply elem_of_singleton in Hs. rewrite Hs. simpl. constructor.
      * right. simpl. by constructor.
Qed.

Lemma keep_first_sublist seen l : keep_first seen l `sublist_of` l.
Proof.
  revert seen. induction l as [|u r IH]; intros seen; simpl; [constructor|].
  case_decide; [by apply sublist_cons|by apply sublist_skip].
Qed.

Lemma keep_first_length seen l : (length (keep_first seen l) <= length l)%nat.
Proof. apply sublist_length, keep_first_sublist. Qed.

Lemma keep_first_first seen l v :
  v ∈ keep_first seen l -> first_with_id v l.
Proof.
  revert seen. induction l as [|u r IH]; intros seen; simpl.
  - intros H. by apply elem_of_nil in H.
  - case_decide as Hu.
    + intros Hv. pose proof (keep_first_elem _ _ _ Hv) as [_ Hn].
      destruct (IH _ Hv) as (i & Hi & Hfirst).
      exists (S i). split; [done|]. intros [|j] w Hj Hw; simpl in Hw.
      * injection Hw as <-. congruence.
      * eapply Hfirst; [|exact Hw]. lia.
    + intros Hv. apply elem_of_cons in Hv as [->|Hv].
      * exists O. split; [done|]. intros j w Hj. lia.
      * pose proof (keep_first_elem _ _ _ Hv) as [_ Hn].
        destruct (IH _ Hv) as (i & Hi & Hfirst).
        exists (S i). split; [done|]. intros [|j] w Hj Hw; simpl in Hw.
        -- injection Hw as <-. set_solver.
        -- eapply Hfirst; [|exact Hw]. lia.
Qed.

Lemma keep_first_app seen a b :
  keep_first seen (a ++ b) = keep_first seen a ++ keep_first (ids a ∪ seen) b.
Proof.
  revert seen. induction a as [|v a IH]; intros seen; simpl.
  - f_equal. unfold ids. simpl. by rewrite union_empty_l_L.
  - case_decide as Hv.
    + rewrite IH. do 2 f_equal. unfold ids. cbn [map].
      rewrite list_to_set_cons, <- union_assoc_L. symmetry.
      apply subseteq_union_1_L. apply singleton_subseteq_l.
      apply elem_of_union. by right.
    + simpl. rewrite IH. do 3 f_equal. unfold ids. cbn [map].
      rewrite list_to_set_cons.
      by rewrite (union_comm_L {[id v]} (list_to_set (map id a))), <- union_assoc_L.
Qed.

Lemma map_set_keys k v m :
  map fst (map_set k v m)
  = if decide (k ∈ map fst m) then map fst m else map fst m ++ [k].
Proof.
  induction m as [|[k' v'] m IH].
  - rewrite decide_False by apply not_elem_of_nil. done.
  - cbn [map_set map fst]. destruct (decide (k' = k)) as [->|Hne].
    + rewrite decide_True by constructor. done.
    + cbn [map fst]. rewrite IH.
      destruct (decide (k ∈ map fst m)) as [Hin|Hout].
      * rewrite decide_True by (by constructor). done.
      * rewrite decide_False; [done|].
        intros Hin. apply elem_of_cons in Hin as [?|?]; congruence.
Qed.

Lemma map_set_own_id v m :
  Forall (fun e => id e.2 = e.1) m -> Forall (fun e => id e.2 = e.1) (map_set (id v) v m).
Proof.
  induction 1 as [|[k' v'] m He Hm IH]; simpl; [by repeat constructor|].
  destruct (decide (k' = id v)); constructor; done.
Qed.

(** The entries of the [Map] built from a list of videos: one entry per
    id, every id of the list, each under its own id. *)
Lemma unique_by_id_fold l m :
  NoDup (map fst m) -> Forall (fun e => id e.2 = e.1) m ->
  let m' := fold_left (fun m v => map_set (id v) v m) l m in
  NoDup (map fst m') /\ Forall (fun e => id e.2 = e.1) m'
  /\ (forall k, k ∈ map fst m' <-> k ∈ map fst m \/ k ∈ map id l).
Proof.
  revert m. induction l as [|v l IH]; intros m Hnd Hid; simpl.
  - split; [done|]. split; [done|]. intros k. split; [by left|].
    intros [?|Hk]; [done|]. by apply elem_of_nil in Hk.
  - assert (NoDup (map fst (map_set (id v) v m))) as Hnd'.
    { rewrite map_set_keys. case_decide; [done|].
      apply NoDup_app. split; [done|]. split; [|apply NoDup_singleton].
      intros x Hx Hx'. apply list_elem_of_singleton in Hx'. by subst x. }
    destruct (IH _ Hnd' (map_set_own_id v m Hid)) as (H1 & H2 & H3).
    split; [exact H1|]. split; [exact H2|].
    intros k. rewrite H3, map_set_keys, elem_of_cons.
    case_decide as Hin.
    + split; [intros [?|?]; auto|]. intros [?|[->|?]]; auto.
    + rewrite elem_of_app, list_elem_of_singleton. tauto.
Qed.

Lemma unique_by_id_ids l :
  NoDup (map id (unique_by_id l))
  /\ (forall k, k ∈ map id (unique_by_id l) <-> k ∈ map id l).
Proof.
  destruct (unique_by_id_fold l []) as (H1 & H2 & H3);
    [constructor|constructor|].
  assert (map id (unique_by_id l)
          = map fst (fold_left (fun m v => map_set (id v) v m) l [])) as ->.
  { unfold unique_by_id. rewrite map_map. apply map_ext_Forall.
    eapply Forall_impl; [exact H2|]. by intros [k v]. }
  split; [exact H1|]. intros k. rewrite H3. split; [|by right].
  intros [Hk|Hk]; [by apply elem_of_nil in Hk|done].
Qed.

Lemma insert_by_date_perm x l : insert_by_date x l ≡ₚ x :: l.
Proof.
  induction l as [|y r IH]; simpl; [done|].
  destruct (time_of y <=? time_of x); [done|].
  rewrite IH. apply Permutation_swap.
Qed.

Lemma sort_by_date_perm l : sort_by_date l ≡ₚ l.
Proof.
  induction l as [|x r IH]; simpl; [done|].
  rewrite insert_by_date_perm. by rewrite IH.
Qed.

Lemma insert_by_date_sorted x l :
  Sorted (fun a b => time_of b <= time_of a) l ->
  Sorted (fun a b => time_of b <= time_of a) (insert_by_date x l).
Proof.
  induction 1 as [|y r Hr IH Hhd]; simpl; [repeat constructor|].
  destruct (Z.leb_spec (time_of y) (time_of x)).
  - constructor; [by constructor|]. by constructor.
  - constructor; [exact IH|].
    destruct r as [|z r']; simpl.
    + constructor. lia.
    + destruct (Z.leb_spec (time_of z) (time_of x)); constructor; [lia|].
      by inversion Hhd.
Qed.

Lemma sort_by_date_sorted l :
  StronglySorted (fun a b => time_of b <= time_of a) (sort_by_date l).
Proof.
  apply Sorted_StronglySorted.
  - intros a b c Hab Hbc. lia.
  - induction l as [|x r IH]; simpl; [constructor|].
    by apply insert_by_date_sorted.
Qed.

End SearchFacts.

Section SearchClaims.
Import JS Model Search SearchSpec.

(** C1. For a limit that is a count ([0 <= limit]) and tag results that
    respect it (both queries of [tagSearch] are limited to [limit] rows),
    [hybridSearch] returns the first [limit] videos of the list
    tag, semantic, lexical from which every video after the first of its
    id is dropped: no id occurs twice, the order of the merged list is
    kept, and each result is the first video of the merged list with its
    id. The search with the tag results alone is a prefix of the result,
    so a video of the tag results occurs exactly once, where it would be
    if only the tag search had found it. *)
Theorem hybridSearch_merge semanticResults keywordResults tagResults admin_videos limit :
  0 <= limit ->
  (length tagResults <= Z.to_nat limit)%nat ->
  let merged :=
    tagResults ++ semanticVideos semanticResults admin_videos ++ keywordResults in
  let result :=
    hybridSearch semanticResults keywordResults tagResults admin_videos limit in
  let tag_only := hybridSearch [] [] tagResults admin_videos limit in
  result = take (Z.to_nat limit) (keep_first ∅ merged)
  /\ (length result <= Z.to_nat limit)%nat
  /\ NoDup (map id result)
  /\ result `sublist_of` merged
  /\ (forall v, v ∈ result -> first_with_id v merged)
  /\ (forall v, v ∈ merged -> id v ∈ map id (keep_first ∅ merged))
  /\ tag_only `prefix_of` result
  /\ (forall v, v ∈ tagResults ->
        exists i u, tag_only !! i = Some u /\ id u = id v /\ result !! i = Some u
                    /\ forall j w, result !! j = Some w -> id w = id v -> j = i).
Proof.
  intros Hlimit Htags merged result tag_only.
  assert (forall l : list Video, slice l 0 limit = take (Z.to_nat limit) l) as Hslice.
  { intros l. rewrite slice_nonneg by lia. simpl. by rewrite Nat.sub_0_r. }
  assert (result = take (Z.to_nat limit) (keep_first ∅ merged)) as Hres.
  { unfold result, hybridSearch. by rewrite Hslice, dedupe_keep_first. }
  assert (tag_only = keep_first ∅ tagResults) as Htag.
  { unfold tag_only, hybridSearch, semanticVideos. simpl.
    rewrite Hslice, dedupe_keep_first, app_nil_r.
    apply take_ge. pose proof (keep_first_length ∅ tagResults). lia. }
  assert (exists rest, result = tag_only ++ rest) as [rest Hsplit].
  { rewrite Hres, Htag. unfold merged. rewrite keep_first_app.
    rewrite take_app_ge by (pose proof (keep_first_length ∅ tagResults); lia).
    eauto. }
  assert (NoDup (map id result)) as Hnodup.
  { rewrite Hres, fmap_take.
    eapply sublist_NoDup; [apply keep_first_NoDup | apply sublist_take]. }
  split; [exact Hres|]. split; [rewrite Hres, length_take; lia|].
  split; [exact Hnodup|]. split.
  { rewrite Hres. etransitivity; [apply sublist_take | apply keep_first_sublist]. }
  split.
  { intros v Hv. rewrite Hres in Hv. apply subseteq_take in Hv.
    by eapply keep_first_first. }
  split.
  { intros v Hv. destruct (keep_first_cover ∅ merged v Hv) as [H|H]; [set_solver|done]. }
  split; [rewrite Hsplit; by apply prefix_app_r|].
  intros v Hv.
  destruct (keep_first_cover ∅ tagResults v Hv) as [H|H]; [set_solver|].
  apply list_elem_of_fmap in H as (u & Hid & Hu).
  apply list_elem_of_lookup in Hu as [i Hi].
  exists i, u. rewrite Htag. split; [exact Hi|]. split; [done|].
  assert (result !! i = Some u) as Hri.
  { rewrite Hsplit, Htag. rewrite lookup_app_l; [done|]. by eapply lookup_lt_Some. }
  split; [exact Hri|].
  intros j w Hj Hw.
  eapply (NoDup_lookup (map id result)); [exact Hnodup| |].
  - rewrite list_lookup_fmap, Hj. simpl. by rewrite Hw, Hid.
  - by rewrite list_lookup_fmap, Hri.
Qed.

(** The scenario: a tag hit on V1, a semantic hit on V2, no lexical hit. *)
Lemma hybridSearch_merge_witness :
  let V1 := sample 1%N 100 in
  let V2 := sample 2%N 200 in
  let chunk := {| chunk_id := 9%N; video_id := 2%N; content := lit "on governance";
                  similarity := (3 # 4)%Q |} in
  let admin := fun _ : list uuid => Some [V2] in
  0 <= 20
  /\ (length [V1] <= Z.to_nat 20)%nat
  /\ map id (hybridSearch [chunk] [] [V1] admin 20) = [1%N; 2%N]
  /\ NoDup (map id (hybridSearch [chunk] [] [V1] admin 20)).
Proof.
  intros V1 V2 chunk admin.
  assert (0 <= 20) as H0 by lia.
  assert (length [V1] <= Z.to_nat 20)%nat as H1 by (simpl; lia).
  split; [exact H0|]. split; [exact H1|]. split; [reflexivity|].
  exact (proj1 (proj2 (proj2 (hybridSearch_merge [chunk] [] [V1] admin 20 H0 H1)))).
Defined.

(** C10, as amended. [searchVideos] returns the slice
    [offset, offset + limit) of the videos found by either query, one per
    id, ordered by publication date, newest first; the order in which the
    store returned them plays no part. *)
Theorem searchVideos_newest_first videoResults transcriptResults limit offset :
  exists ranked,
    searchVideos videoResults transcriptResults limit offset
    = slice ranked offset (offset + limit)
    /\ ranked ≡ₚ uniqueVideos videoResults transcriptResults
    /\ StronglySorted (fun a b => time_of b <= time_of a) ranked
    /\ NoDup (map id ranked)
    /\ (forall k, k ∈ map id ranked <->
                  k ∈ map id (default [] videoResults)
                  \/ k ∈ map (id ∘ hit_video) (default [] transcriptResults)).
Proof.
  exists (sort_by_date (uniqueVideos videoResults transcriptResults)).
  pose proof (sort_by_date_perm (uniqueVideos videoResults transcriptResults)) as Hperm.
  pose proof (Permutation_map id Hperm) as Hids.
  destruct (unique_by_id_ids
              (map flatten_tags (default [] videoResults)
               ++ map of_hit (default [] transcriptResults))) as [Hnd Hcover].
  split; [done|]. split; [exact Hperm|]. split; [apply sort_by_date_sorted|].
  split.
  - rewrite Hids. exact Hnd.
  - intros k. rewrite Hids. unfold uniqueVideos. rewrite Hcover.
    rewrite map_app, elem_of_app, !map_map. done.
Qed.

(** C10 as stated fails: the store returns an older video before a newer
    one (its order for the query), and [searchVideos] returns the newer
    one first. *)
Lemma searchVideos_not_store_order :
  let hits := [sample_hit 1%N 100; sample_hit 2%N 200] in
  map id (searchVideos (Some []) (Some hits) 20 0) = [2%N; 1%N]
  /\ map id (searchVideos (Some []) (Some hits) 20 0) <> map (id ∘ hit_video) hits.
Proof.
  intros hits. split; [reflexivity|]. vm_compute. discriminate.
Qed.

(** A video found by both queries of [searchVideos] keeps the place of
    its first occurrence and takes the value of its last one, the
    transcript hit. *)
Example uniqueVideos_both_queries :
  uniqueVideos (Some [sample 1%N 100; sample 2%N 200]) (Some [sample_hit 1%N 100])
  = [of_hit (sample_hit 1%N 100); flatten_tags (sample 2%N 200)].
Proof. reflexivity. Qed.

End SearchClaims.

(* ===================================================================== *)
(** * Part III: further properties of the sources *)
(* ===================================================================== *)

(** ** Audio transcription and acquisition *)

Section AcquireMore.
Import JS Model Acquire AcquireSpec.

(** X1. Whenever the downloader is installed, the files after
    [transcribeWithWhisper] are those the download left, minus the scratch
    file: it is removed on every path, and nothing else is touched. *)
Theorem transcribeWithWhisper_removes_scratch env videoId w :
  ytdlp_installed env = true ->
  let w' := (transcribeWithWhisper env videoId w).1 in
  files w' = delete (expectedFile env videoId) (ytdlp_download env videoId (files w)).1
  /\ files w' !! expectedFile env videoId = None.
Proof.
  intros Hinst w'.
  assert (files w' = delete (expectedFile env videoId)
                       (ytdlp_download env videoId (files w)).1) as H.
  { unfold w', transcribeWithWhisper. rewrite Hinst. cbn [negb].
    cbn [record files events].
    destruct (ytdlp_download env videoId (files w)) as [files' ok]. cbn [fst].
    assert (forall w0, files w0 = files' ->
              files (cleanup_on_error env videoId w0)
              = delete (expectedFile env videoId) files') as Hclean.
    { intros w0 Hw0. unfold cleanup_on_error. rewrite Hw0.
      destruct (files' !! expectedFile env videoId) eqn:E.
      - cbn [unlinkSync files]. by rewrite Hw0.
      - rewrite Hw0. symmetry. by apply delete_id. }
    destruct ok; cbn [negb fst]; [|by apply Hclean].
    cbn [files].
    destruct (files' !! expectedFile env videoId) as [size|] eqn:E;
      [|cbn [fst files]; symmetry; by apply delete_id].
    destruct (too_large size); [done|].
    destruct (api_key_set env); cbn [negb]; [|by apply Hclean].
    destruct (whisper_api env _); cbn [fst]; [done|by apply Hclean]. }
  split; [exact H|]. rewrite H. apply lookup_delete_eq.
Qed.

Lemma transcribeWithWhisper_removes_scratch_witness :
  let w' := (transcribeWithWhisper (AcquireSample.env 1000) "abc" AcquireSample.world0).1 in
  ytdlp_installed (AcquireSample.env 1000) = true
  /\ files w' !! "/tmp/hosksaid_abc.mp3"%string = None.
Proof.
  intros w'. split; [reflexivity|].
  exact (proj2 (transcribeWithWhisper_removes_scratch
                  (AcquireSample.env 1000) "abc" AcquireSample.world0 eq_refl)).
Defined.

(** X2. [transcribeWithWhisper] returns a transcript exactly when the
    downloader is installed, the download exits normally and leaves the
    audio file, the file is within the ceiling, the API key is set and the
    provider answers; the transcript is then the parsed answer, and what
    was done is: probe, download, one provider call, removal of the file. *)
Theorem transcribeWithWhisper_success_iff env videoId w w' r :
  transcribeWithWhisper env videoId w = (w', Some r)
  <-> ytdlp_installed env = true
      /\ exists files' size response,
          ytdlp_download env videoId (files w) = (files', true)
          /\ files' !! expectedFile env videoId = Some size
          /\ (size <= MAX_BYTES)%N
          /\ api_key_set env = true
          /\ whisper_api env (expectedFile env videoId) = Returned response
          /\ r = parse_response response
          /\ w' = {| files := delete (expectedFile env videoId) files';
                     events := events w ++
                       [Exec "yt-dlp --version";
                        Exec (download_command env videoId);
                        Transcribe (expectedFile env videoId);
                        Unlink (expectedFile env videoId)] |}.
Proof.
  unfold transcribeWithWhisper. cbn [record files events]. split.
  - destruct (ytdlp_installed env); cbn [negb]; [|discriminate].
    destruct (ytdlp_download env videoId (files w)) as [files' ok].
    destruct ok; cbn [negb]; [|discriminate]. cbn [files].
    destruct (files' !! expectedFile env videoId) as [size|] eqn:E; [|discriminate].
    destruct (too_large size) eqn:Hbig; [discriminate|].
    destruct (api_key_set env); cbn [negb]; [|discriminate].
    destruct (whisper_api env _) as [response|e] eqn:Hapi; [|discriminate].
    intros [= <- <-]. split; [done|]. exists files', size, response.
    repeat split; try done.
    + unfold too_large in Hbig. by apply N.ltb_ge in Hbig.
    + unfold unlinkSync, record. cbn [files events]. f_equal.
      by rewrite <- !app_assoc.
  - intros (-> & files' & size & response & -> & Hf & Hsize & -> & Hapi & -> & ->).
    cbn [negb files]. rewrite Hf.
    assert (too_large size = false) as -> by (by apply N.ltb_ge in Hsize).
    rewrite Hapi. unfold unlinkSync, record. cbn [files events].
    by rewrite <- !app_assoc.
Qed.

(** What [transcribeWithWhisper] does, path by path: either the provider
    is not called, or the calls are probe, download, one provider call on
    the scratch file and its removal. *)
Lemma transcribeWithWhisper_trace env videoId w :
  exists new,
    events (transcribeWithWhisper env videoId w).1 = events w ++ new
    /\ (Forall (fun e => forall p, e <> Transcribe p) new
        \/ (new = [Exec "yt-dlp --version"; Exec (download_command env videoId);
                   Transcribe (expectedFile env videoId);
                   Unlink (expectedFile env videoId)]
            /\ api_key_set env = true
            /\ exists size,
                (ytdlp_download env videoId (files w)).1 !! expectedFile env videoId
                = Some size
                /\ (size <= MAX_BYTES)%N)).
Proof.
  unfold transcribeWithWhisper. cbn [record files events].
  destruct (ytdlp_installed env); cbn [negb fst].
  2:{ eexists. split; [reflexivity|]. left. by repeat constructor. }
  destruct (ytdlp_download env videoId (files w)) as [files' ok]. cbn [fst].
  assert (forall l w0,
             events w0 = events w ++ l -> files w0 = files' ->
             Forall (fun e => forall p, e <> Transcribe p) l ->
             exists new,
               events (cleanup_on_error env videoId w0) = events w ++ new
               /\ Forall (fun e => forall p, e <> Transcribe p) new) as Hclean.
  { intros l w0 Hev Hf Hl. unfold cleanup_on_error.
    destruct (files w0 !! expectedFile env videoId).
    - exists (l ++ [Unlink (expectedFile env videoId)]).
      unfold unlinkSync. cbn [events]. rewrite Hev, <- app_assoc. split; [done|].
      apply Forall_app. split; [done|]. by repeat constructor.
    - by exists l. }
  destruct ok; cbn [negb fst].
  2:{ destruct (Hclean [Exec "yt-dlp --version"; Exec (download_command env videoId)]
                  {| files := files';
                     events := (events w ++ [Exec "yt-dlp --version"]) ++
                               [Exec (download_command env videoId)] |})
        as (new & Hnew & Hq);
        [by rewrite <- app_assoc|done|by repeat constructor|].
      exists new. split; [exact Hnew|by left]. }
  cbn [files].
  destruct (files' !! expectedFile env videoId) as [size|] eqn:E.
  2:{ eexists. cbn [fst events]. rewrite <- app_assoc. split; [reflexivity|].
      left. by repeat constructor. }
  destruct (too_large size) eqn:Hbig.
  { eexists. unfold unlinkSync. cbn [fst events]. rewrite <- !app_assoc.
    split; [reflexivity|]. left. by repeat constructor. }
  destruct (api_key_set env) eqn:Hkey; cbn [negb].
  2:{ destruct (Hclean [Exec "yt-dlp --version"; Exec (download_command env videoId)]
                  {| files := files';
                     events := (events w ++ [Exec "yt-dlp --version"]) ++
                               [Exec (download_command env videoId)] |})
        as (new & Hnew & Hq);
        [by rewrite <- app_assoc|done|by repeat constructor|].
      exists new. split; [exact Hnew|by left]. }
  assert (size <= MAX_BYTES)%N as Hsize
    by (unfold too_large in Hbig; by apply N.ltb_ge in Hbig).
  exists [Exec "yt-dlp --version"; Exec (download_command env videoId);
          Transcribe (expectedFile env videoId); Unlink (expectedFile env videoId)].
  split.
  - destruct (whisper_api env _); cbn [fst].
    + unfold unlinkSync, record. cbn [events]. by rewrite <- !app_assoc.
    + unfold cleanup_on_error, record. cbn [files]. rewrite E.
      unfold unlinkSync. cbn [events]. by rewrite <- !app_assoc.
  - right. split; [done|]. split; [done|]. by exists size.
Qed.

(** X3. The provider is called at most once, and only on the scratch file,
    once it is known to exist, to be within the ceiling, and with a key. *)
Theorem transcribeWithWhisper_provider_calls env videoId w :
  let w' := (transcribeWithWhisper env videoId w).1 in
  let new := drop (length (events w)) (events w') in
  events w' = events w ++ new
  /\ (length (List.filter is_transcribe new) <= 1)%nat
  /\ (forall p, Transcribe p ∈ new ->
        p = expectedFile env videoId
        /\ api_key_set env = true
        /\ exists size,
            (ytdlp_download env videoId (files w)).1 !! p = Some size
            /\ (size <= MAX_BYTES)%N).
Proof.
  intros w' new.
  destruct (transcribeWithWhisper_trace env videoId w) as (l & Hev & Hl).
  assert (new = l) as -> by (unfold new, w'; rewrite Hev; apply drop_app_length).
  split; [exact Hev|].
  destruct Hl as [Hquiet|(-> & Hkey & size & Hsize)].
  - split.
    + clear Hev. induction Hquiet as [|e l He _ IH]; [simpl; lia|].
      simpl. destruct e; simpl; try exact IH. exfalso. by eapply He.
    + intros p Hp. exfalso. eapply Forall_forall in Hquiet; [|exact Hp].
      by eapply Hquiet.
  - split; [simpl; lia|].
    intros p Hp.
    repeat (apply elem_of_cons in Hp as [Hp|Hp]; [try discriminate|]).
    + injection Hp as ->. split; [done|]. split; [done|]. by exists size.
    + by apply elem_of_nil in Hp.
Qed.

(** X4. When the caption provider gives segments, the acquisition returns
    them as an [extractor] transcript (one segment per caption, the text
    joined by single spaces) and leaves the machine alone: no download, no
    provider call. *)
Theorem acquire_captions_first env ytVideoId w seg segs :
  captions env ytVideoId = Returned (seg :: segs) ->
  exists r,
    acquire env ytVideoId w = (w, Some r)
    /\ source r = extractor
    /\ map seg_text (segments r) = map cap_text (seg :: segs)
    /\ text r = Normalizer.join [SPACE] (map cap_text (seg :: segs)).
Proof.
  intros H. unfold acquire, fetchTranscript. rewrite H.
  eexists. split; [reflexivity|]. cbn [source segments text].
  split; [done|]. rewrite !map_map. cbn [seg_text]. done.
Qed.

Lemma acquire_captions_first_witness :
  let env := {| captions := fun _ => Returned [{| cap_text := lit "hello";
                                                  cap_offset := 0; cap_duration := 1200 |};
                                               {| cap_text := lit "world";
                                                  cap_offset := 1200; cap_duration := 900 |}];
                tmpdir := "/tmp"; ytdlp_installed := false;
                ytdlp_download := fun _ fs => (fs, false);
                api_key_set := false;
                whisper_api := fun _ => Thrown "unreachable" |} in
  exists r, acquire env "abc" AcquireSample.world0 = (AcquireSample.world0, Some r)
            /\ text r = lit "hello world".
Proof.
  intros env.
  destruct (acquire_captions_first env "abc" AcquireSample.world0
              {| cap_text := lit "hello"; cap_offset := 0; cap_duration := 1200 |}
              [{| cap_text := lit "world"; cap_offset := 1200; cap_duration := 900 |}]
              eq_refl) as (r & Hr & _ & _ & Ht).
  exists r. split; [exact Hr|exact Ht].
Defined.

End AcquireMore.

(** ** Orchestrator: the paths of one run *)

Section RunFacts.
Import JS Model Acquire Ingest IngestSpec TagSpec RunSpec.
Local Open Scope ingest_scope.

Lemma videos_set_status videoDbId status s :
  videos (set_status videoDbId status s) = restatus videoDbId status (videos s).
Proof. reflexivity. Qed.

Lemma restatus_elem videoDbId status rows row :
  row ∈ rows -> v_id row = videoDbId ->
  with_status status row ∈ restatus videoDbId status rows.
Proof.
  intros Hin Hid. unfold restatus. apply list_elem_of_fmap.
  exists row. split; [|done]. by rewrite decide_True.
Qed.

Lemma restatus_status videoDbId status rows row :
  row ∈ restatus videoDbId status rows -> v_id row = videoDbId -> v_status row = status.
Proof.
  unfold restatus. intros Hin Hid. apply list_elem_of_fmap in Hin as (v & -> & _).
  destruct (decide (v_id v = videoDbId)); [done|]. by simpl in Hid.
Qed.

(** The preamble of [ingestVideo]: for a video that is not completed and
    that the listing provider knows, the run reaches the [try] block. *)
Lemma ingestVideo_starts sv channelDbId ytVideoId skip st videoInfo :
  v_status <$> select_video ytVideoId (db st) <> Some completed ->
  (select_video ytVideoId (db st) = None ->
   yv_id videoInfo ∉ map v_youtube_id (videos (db st))) ->
  getVideo sv ytVideoId = Returned (Some videoInfo) ->
  exists videoDbId st1,
    ingestVideo sv channelDbId ytVideoId skip st
    = process_video sv videoDbId ytVideoId skip st1
    /\ started st videoDbId st1.
Proof.
  intros Hnot Hfresh Hget. unfold ingestVideo, bind, read. simpl.
  rewrite decide_False by done. rewrite Hget.
  destruct (select_video ytVideoId (db st)) as [row|] eqn:Hsel.
  - eexists (v_id row), _. split; [reflexivity|].
    unfold started. simpl. repeat split; try done.
    + eexists. split; [reflexivity|done].
    + exists (with_status processing row). split; [|done].
      apply restatus_elem; [|done]. by eapply select_video_elem.
  - unfold insert_video. rewrite decide_False by auto. simpl.
    eexists (next_uuid (db st)), _. split; [reflexivity|].
    unfold started. simpl. repeat split; try done.
    + eexists. split; [reflexivity|done].
    + eexists. split; [apply elem_of_app; right; constructor|done].
Qed.

(** The loop returns normally exactly when every tag is a string. *)
Lemma save_tags_returns sv videoDbId tags st :
  all_strings tags -> (save_tags sv videoDbId tags st).1 = Returned tt.
Proof.
  intros H. revert st. induction H as [|t tags [name ->] _ IH]; intros st; [done|].
  simpl. unfold bind.
  destruct (upsert_tag (toLowerCase sv name) st) as [tag st1].
  destruct (upsert_video_tag videoDbId (tag_id tag) st1) as [[] st2]. apply IH.
Qed.

Lemma all_strings_reached tags :
  all_strings tags -> map TagString (reached tags) = tags.
Proof.
  induction 1 as [|t tags [name ->] _ IH]; [done|]. simpl. by rewrite IH.
Qed.

End RunFacts.

Section RunMore.
Import JS Model Acquire Ingest IngestSpec TagSpec RunSpec.
Local Open Scope ingest_scope.

Lemma process_video_no_transcript sv videoDbId ytVideoId skip st w :
  acquire (acquisition sv) ytVideoId (sys st) = (w, None) ->
  exists st',
    process_video sv videoDbId ytVideoId skip st = (Failed "No transcript", st')
    /\ sys st' = w
    /\ videos (db st') = restatus videoDbId failed (videos (db st))
    /\ transcripts (db st') = transcripts (db st)
    /\ tags (db st') = tags (db st)
    /\ video_tags (db st') = video_tags (db st)
    /\ ingestion_logs (db st') = ingestion_logs (db st) ++
         [entry videoDbId "fetch_transcript" "started" NoDetails;
          entry videoDbId "fetch_transcript" "failed" (ErrorDetails "No transcript found")].
Proof.
  intros Hacq.
  unfold process_video, try_block, run_acquire, bind, ret, log,
    update_video_status, write_db. simpl.
  rewrite Hacq. simpl. eexists. split; [reflexivity|]. simpl.
  by rewrite <- !app_assoc.
Qed.

(** X5. When neither the caption provider nor the audio transcription gives a
    transcript, the run returns [{ failed, error: 'No transcript' }]: the
    video is [failed], two log entries were written (started, failed), and
    no transcript, tag or link was stored. *)
Theorem ingestVideo_no_transcript sv channelDbId ytVideoId skip st videoInfo w :
  v_status <$> select_video ytVideoId (db st) <> Some completed ->
  (select_video ytVideoId (db st) = None ->
   yv_id videoInfo ∉ map v_youtube_id (videos (db st))) ->
  getVideo sv ytVideoId = Returned (Some videoInfo) ->
  acquire (acquisition sv) ytVideoId (sys st) = (w, None) ->
  exists videoDbId st',
    ingestVideo sv channelDbId ytVideoId skip st = (Failed "No transcript", st')
    /\ transcripts (db st') = transcripts (db st)
    /\ tags (db st') = tags (db st)
    /\ video_tags (db st') = video_tags (db st)
    /\ ingestion_logs (db st') = ingestion_logs (db st) ++
         [entry videoDbId "fetch_transcript" "started" NoDetails;
          entry videoDbId "fetch_transcript" "failed" (ErrorDetails "No transcript found")]
    /\ (exists row, row ∈ videos (db st') /\ v_id row = videoDbId)
    /\ (forall row, row ∈ videos (db st') -> v_id row = videoDbId ->
                    v_status row = failed).
Proof.
  intros Hnot Hfresh Hget Hacq.
  destruct (ingestVideo_starts sv channelDbId ytVideoId skip st videoInfo
              Hnot Hfresh Hget)
    as (videoDbId & st1 & -> & Hsys & Htr & Htags & Hlinks & Hlogs & _ & row & Hrow & Hid & _).
  rewrite <- Hsys in Hacq.
  destruct (process_video_no_transcript sv videoDbId ytVideoId skip st1 w Hacq)
    as (st' & Hrun & _ & Hv & Htr' & Htags' & Hlinks' & Hlogs').
  exists videoDbId, st'. split; [exact Hrun|].
  rewrite Htr', Htags', Hlinks', Hlogs', Htr, Htags, Hlinks, Hlogs, Hv.
  repeat split; try done.
  - exists (with_status failed row). split; [by apply restatus_elem|done].
  - intros r Hr Hrid. by eapply restatus_status.
Qed.

Lemma process_video_enriched sv videoDbId ytVideoId st w tr p :
  acquire (acquisition sv) ytVideoId (sys st) = (w, Some tr) ->
  processTranscript sv (text tr) = Returned p ->
  all_strings (tags_of p) ->
  let payload :=
    {| p_video_id := videoDbId; p_raw_text := text tr;
       p_cleaned_text := cleanedText p;
       p_summary := match summary p with [] => None | _ => Some (summary p) end;
       p_source := source tr; p_processing_status := completed |} in
  exists st',
    process_video sv videoDbId ytVideoId false st = (Success, st')
    /\ videos (db st') = restatus videoDbId completed (videos (db st))
    /\ ingestion_logs (db st') = ingestion_logs (db st) ++
         [entry videoDbId "fetch_transcript" "started" NoDetails;
          entry videoDbId "fetch_transcript" "completed"
            (SourceDetails (source tr) (Z.of_nat (length (text tr))));
          entry videoDbId "llm_processing" "started" NoDetails;
          entry videoDbId "llm_processing" "completed" (TagsDetails (tags_of p))]
    /\ WTranscriptUpsert payload ∈ journal (db st')
    /\ transcripts (db st') =
         (if decide (videoDbId ∈ map t_video_id (transcripts (db st)))
          then transcripts (db st)
          else transcripts (db st) ++
                 [{| t_id := next_uuid (db st); t_video_id := videoDbId;
                     t_raw_text := text tr; t_cleaned_text := cleanedText p;
                     t_summary := p_summary payload; t_source := source tr;
                     t_processing_status := completed |}])
    /\ Forall (fun name => linked videoDbId (toLowerCase sv name) (db st'))
              (reached (tags_of p))
    /\ (tags_unique (db st) -> tags_unique (db st')).
Proof.
  intros Hacq Hllm Hstr payload.
  unfold process_video, try_block, run_acquire, enrich, bind, ret, log,
    update_video_status, upsert_transcript, write_db. simpl.
  rewrite Hacq. simpl. rewrite Hllm. simpl.
  match goal with |- context [save_tags sv videoDbId (tags_of p) ?s] =>
    pose proof (save_tags_returns sv videoDbId (tags_of p) s Hstr) as Hret;
    pose proof (save_tags_frame sv videoDbId (tags_of p) s) as Hframe;
    pose proof (save_tags_links sv videoDbId (tags_of p) s) as Hlinked;
    pose proof (keeps_save_tags sv videoDbId (tags_of p) s) as Hkeep;
    destruct (save_tags sv videoDbId (tags_of p) s) as [saved st2] end.
  simpl in Hret. subst saved. simpl.
  simpl in Hframe. destruct Hframe as (Hv & Ht & Hl & Hs & ws & Hj & _).
  eexists. split; [reflexivity|]. simpl.
  split; [by rewrite Hv; case_decide|].
  split; [rewrite Hl; case_decide; simpl; by rewrite <- !app_assoc|].
  split.
  { rewrite Hj. apply elem_of_app. left. apply elem_of_app. left.
    apply elem_of_app. right. case_decide; simpl; constructor. }
  split; [rewrite Ht; by case_decide|].
  split; [exact Hlinked|].
  intros Huniq. apply Hkeep. by case_decide.
Qed.

(** X6. A run in which the acquisition and the three enrichment calls
    succeed, and every derived tag is a string: it returns success, logs
    the four entries of the two steps, sends the transcript upsert with the
    cleaned text and the summary (none when it is empty), stores every
    derived tag under its lowercase name and links it to the video, keeps
    the uniqueness constraints, and leaves the video [completed]. *)
Theorem ingestVideo_enriched sv channelDbId ytVideoId st videoInfo w tr p :
  v_status <$> select_video ytVideoId (db st) <> Some completed ->
  (select_video ytVideoId (db st) = None ->
   yv_id videoInfo ∉ map v_youtube_id (videos (db st))) ->
  getVideo sv ytVideoId = Returned (Some videoInfo) ->
  acquire (acquisition sv) ytVideoId (sys st) = (w, Some tr) ->
  processTranscript sv (text tr) = Returned p ->
  all_strings (tags_of p) ->
  exists videoDbId st',
    ingestVideo sv channelDbId ytVideoId false st = (Success, st')
    /\ map (fun r => (log_step r, log_status r))
           (drop (length (ingestion_logs (db st))) (ingestion_logs (db st')))
       = [("fetch_transcript", "started"); ("fetch_transcript", "completed");
          ("llm_processing", "started"); ("llm_processing", "completed")]%string
    /\ WTranscriptUpsert
         {| p_video_id := videoDbId; p_raw_text := text tr;
            p_cleaned_text := cleanedText p;
            p_summary := match summary p with [] => None | _ => Some (summary p) end;
            p_source := source tr; p_processing_status := completed |}
       ∈ journal (db st')
    /\ (videoDbId ∉ map t_video_id (transcripts (db st)) ->
        exists row, row ∈ transcripts (db st') /\ t_video_id row = videoDbId
                    /\ t_raw_text row = text tr
                    /\ t_cleaned_text row = cleanedText p
                    /\ t_source row = source tr)
    /\ Forall (fun name => linked videoDbId (toLowerCase sv name) (db st'))
              (reached (tags_of p))
    /\ map TagString (reached (tags_of p)) = tags_of p
    /\ (tags_unique (db st) -> tags_unique (db st'))
    /\ (exists row, row ∈ videos (db st') /\ v_id row = videoDbId)
    /\ (forall row, row ∈ videos (db st') -> v_id row = videoDbId ->
                    v_status row = completed).
Proof.
  intros Hnot Hfresh Hget Hacq Hllm Hstr.
  destruct (ingestVideo_starts sv channelDbId ytVideoId false st videoInfo
              Hnot Hfresh Hget)
    as (videoDbId & st1 & -> & Hsys & Htr & Htags & Hlinks & Hlogs & _ & row & Hrow & Hid & _).
  rewrite <- Hsys in Hacq.
  destruct (process_video_enriched sv videoDbId ytVideoId st1 w tr p Hacq Hllm Hstr)
    as (st' & Hrun & Hv & Hl & Hj & Ht & Hlinked & Hkeep).
  exists videoDbId, st'. split; [exact Hrun|].
  split; [by rewrite Hl, Hlogs, drop_app_length|].
  split; [exact Hj|]. split.
  { intros Hno. rewrite Ht, Htr, decide_False by done.
    eexists. split; [apply elem_of_app; right; constructor|]. done. }
  split; [exact Hlinked|]. split; [by apply all_strings_reached|].
  split.
  { intros [H1 H2]. apply Hkeep. unfold tags_unique. by rewrite Htags, Hlinks. }
  rewrite Hv. split.
  - exists (with_status completed row). split; [by apply restatus_elem|done].
  - intros r Hr Hrid. by eapply restatus_status.
Qed.

Lemma save_tags_stops sv videoDbId good rest st :
  all_strings good ->
  save_tags sv videoDbId (good ++ TagOther :: rest) st
  = (Thrown "TypeError: tagName.toLowerCase is not a function",
     (save_tags sv videoDbId good st).2).
Proof.
  intros H. revert st. induction H as [|t good [name ->] _ IH]; intros st; [done|].
  simpl. unfold bind.
  destruct (upsert_tag (toLowerCase sv name) st) as [tag st1].
  destruct (upsert_video_tag videoDbId (tag_id tag) st1) as [[] st2]. apply IH.
Qed.

Lemma reached_stops good rest :
  all_strings good -> reached (good ++ TagOther :: rest) = reached good.
Proof. induction 1 as [|t good [name ->] _ IH]; [done|]. simpl. by rewrite IH. Qed.

(** X7. The tag list is only checked to be an array. When one of its elements
    is not a string, the loop throws on it: the run returns
    [{ failed, error }], the last log entry is [error]/[failed] and the
    video ends [failed], although the transcript upsert was sent and the
    tags before that element are stored and linked. *)
Theorem ingestVideo_tag_not_a_string
    sv channelDbId ytVideoId st videoInfo w tr p good rest :
  v_status <$> select_video ytVideoId (db st) <> Some completed ->
  (select_video ytVideoId (db st) = None ->
   yv_id videoInfo ∉ map v_youtube_id (videos (db st))) ->
  getVideo sv ytVideoId = Returned (Some videoInfo) ->
  acquire (acquisition sv) ytVideoId (sys st) = (w, Some tr) ->
  processTranscript sv (text tr) = Returned p ->
  tags_of p = good ++ TagOther :: rest ->
  all_strings good ->
  exists videoDbId st' logs,
    ingestVideo sv channelDbId ytVideoId false st
    = (Failed "TypeError: tagName.toLowerCase is not a function", st')
    /\ ingestion_logs (db st') = logs ++
         [entry videoDbId "error" "failed"
            (ErrorDetails "TypeError: tagName.toLowerCase is not a function")]
    /\ (exists payload, WTranscriptUpsert payload ∈ journal (db st')
                        /\ p_video_id payload = videoDbId
                        /\ p_cleaned_text payload = cleanedText p)
    /\ Forall (fun name => linked videoDbId (toLowerCase sv name) (db st'))
              (reached good)
    /\ (exists row, row ∈ videos (db st') /\ v_id row = videoDbId)
    /\ (forall row, row ∈ videos (db st') -> v_id row = videoDbId ->
                    v_status row = failed).
Proof.
  intros Hnot Hfresh Hget Hacq Hllm Htags Hgood.
  destruct (ingestVideo_starts sv channelDbId ytVideoId false st videoInfo
              Hnot Hfresh Hget)
    as (videoDbId & st1 & -> & Hsys & _ & _ & _ & _ & _ & row & Hrow & Hid & _).
  rewrite <- Hsys in Hacq.
  unfold process_video, try_block, run_acquire, enrich, bind, ret, log,
    update_video_status, upsert_transcript, write_db. simpl.
  rewrite Hacq. simpl. rewrite Hllm. simpl. rewrite Htags.
  match goal with |- context [save_tags sv videoDbId _ ?s] =>
    rewrite (save_tags_stops sv videoDbId good rest s Hgood);
    pose proof (save_tags_frame sv videoDbId good s) as Hframe;
    pose proof (save_tags_links sv videoDbId good s) as Hlinked;
    destruct (save_tags sv videoDbId good s) as [saved st2] end.
  simpl in *. destruct Hframe as (Hv & Ht & Hl & Hs & ws & Hj & _).
  eexists videoDbId, _, _. split; [reflexivity|]. simpl.
  split; [reflexivity|]. split.
  { exists {| p_video_id := videoDbId; p_raw_text := text tr;
              p_cleaned_text := cleanedText p;
              p_summary := match summary p with [] => None | _ => Some (summary p) end;
              p_source := source tr; p_processing_status := completed |}.
    split; [|done].
    rewrite Hj. apply elem_of_app. left. apply elem_of_app. left.
    apply elem_of_app. left. apply elem_of_app. right.
    case_decide; simpl; constructor. }
  split; [exact Hlinked|].
  assert (videos (db st2) = videos (db st1)) as Hv' by (rewrite Hv; by case_decide).
  rewrite Hv'. fold (restatus videoDbId failed (videos (db st1))). split.
  - exists (with_status failed row). split; [by apply restatus_elem|done].
  - intros r Hr Hrid. by eapply restatus_status.
Qed.

(** Whatever happens in the [try] block, the run ends with a result and
    with the status of the video set: [completed] on success, [failed]
    otherwise. *)
Lemma process_video_videos sv videoDbId ytVideoId skip st :
  let r := (process_video sv videoDbId ytVideoId skip st).1 in
  let st' := (process_video sv videoDbId ytVideoId skip st).2 in
  (r = Success /\ videos (db st') = restatus videoDbId completed (videos (db st)))
  \/ ((exists e, r = Failed e)
      /\ videos (db st') = restatus videoDbId failed (videos (db st))).
Proof.
  unfold process_video, try_block, run_acquire, enrich, bind, ret, log,
    update_video_status, upsert_transcript, write_db. simpl.
  destruct (acquire (acquisition sv) ytVideoId (sys st)) as [w [tr|]]; simpl;
    [|right; eauto].
  destruct skip; simpl.
  - left. by case_decide.
  - destruct (processTranscript sv (text tr)) as [p|e]; simpl.
    + match goal with |- context [save_tags sv videoDbId ?t ?s] =>
        pose proof (save_tags_frame sv videoDbId t s) as Hframe;
        destruct (save_tags sv videoDbId t s) as [saved st2] end.
      simpl in Hframe. destruct Hframe as (Hv & _).
      destruct saved as [[]|e]; simpl; rewrite Hv;
        [left|right; split; [eauto|]]; by case_decide.
    + left. by case_decide.
Qed.

Lemma filter_restatus ytVideoId videoDbId status rows :
  filter (fun v => v_youtube_id v = ytVideoId) (restatus videoDbId status rows)
  = restatus videoDbId status (filter (fun v => v_youtube_id v = ytVideoId) rows).
Proof.
  unfold restatus. induction rows as [|v rows IH]; [done|].
  cbn [map]. rewrite !filter_cons.
  destruct (decide (v_id v = videoDbId)); cbn [with_status v_youtube_id];
    case_decide; cbn [map]; rewrite IH; try done.
  by rewrite decide_True.
  by rewrite decide_False.
Qed.

Lemma single_filter_restatus ytVideoId videoDbId status rows row :
  single (filter (fun v => v_youtube_id v = ytVideoId) rows) = Some row ->
  v_id row = videoDbId ->
  single (filter (fun v => v_youtube_id v = ytVideoId)
            (restatus videoDbId status rows))
  = Some (with_status status row).
Proof.
  intros Hsel Hid. rewrite filter_restatus.
  destruct (filter _ rows) as [|r [|? ?]]; try done.
  injection Hsel as ->. simpl. by rewrite decide_True.
Qed.

Lemma single_filter_inserted ytVideoId rows row :
  ytVideoId ∉ map v_youtube_id rows ->
  v_youtube_id row = ytVideoId ->
  single (filter (fun v => v_youtube_id v = ytVideoId) (rows ++ [row])) = Some row.
Proof.
  intros Hnew Hrow. rewrite filter_app.
  assert (filter (fun v => v_youtube_id v = ytVideoId) rows = []) as ->.
  { induction rows as [|v rows IH]; [done|].
    apply not_elem_of_cons in Hnew as [Hv Hrows].
    rewrite filter_cons, decide_False by done. auto. }
  simpl. rewrite filter_cons, decide_True by done. done.
Qed.

(** X8. A video ingested with success is skipped from then on: run again,
    with whatever services and options, [ingestVideo] returns
    [{ skipped }] and leaves the store and the machine as they are. The
    listing provider is taken to describe the video that was asked for. *)
Theorem ingestVideo_rerun_skipped
    sv channelDbId ytVideoId skip st st' videoInfo sv' channelDbId' skip' :
  getVideo sv ytVideoId = Returned (Some videoInfo) ->
  yv_id videoInfo = ytVideoId ->
  ingestVideo sv channelDbId ytVideoId skip st = (Success, st') ->
  ingestVideo sv' channelDbId' ytVideoId skip' st' = (Skipped, st').
Proof.
  intros Hget Hsame Hrun.
  assert (exists row, select_video ytVideoId (db st') = Some row
                      /\ v_status row = completed) as (row & Hsel & Hdone).
  { revert Hrun. unfold ingestVideo, bind, read. cbn [fst snd].
    case_decide; [done|]. rewrite Hget.
    destruct (select_video ytVideoId (db st)) as [row|] eqn:Hsel.
    - unfold update_video_status, write_db.
      match goal with |- context [process_video sv (v_id row) ytVideoId skip ?s] =>
        pose proof (process_video_videos sv (v_id row) ytVideoId skip s) as Hv;
        destruct (process_video sv (v_id row) ytVideoId skip s) as [r s'] end.
      cbn [fst snd db] in Hv. rewrite videos_set_status in Hv.
      intros [= -> ->].
      destruct Hv as [[_ Hv]|[[e He] _]]; [|done].
      exists (with_status completed (with_status processing row)). split; [|done].
      unfold select_video in *. rewrite Hv.
      apply single_filter_restatus; [|done].
      by apply single_filter_restatus.
    - unfold insert_video. case_decide as Hin; [done|].
      match goal with |- context [process_video sv ?v ytVideoId skip ?s] =>
        pose proof (process_video_videos sv v ytVideoId skip s) as Hv;
        destruct (process_video sv v ytVideoId skip s) as [r s'] end.
      cbn [fst snd db videos] in Hv. intros [= -> ->].
      destruct Hv as [[_ Hv]|[[e He] _]]; [|done].
      eexists. split.
      + unfold select_video. rewrite Hv.
        eapply single_filter_restatus.
        * apply single_filter_inserted; [by rewrite <- Hsame|exact Hsame].
        * reflexivity.
      + done. }
  unfold ingestVideo, bind, read. cbn [fst snd]. rewrite Hsel. cbn [fmap option_fmap option_map].
  by rewrite Hdone, decide_True.
Qed.

Lemma ingestVideo_rerun_skipped_witness :
  let first := ingestVideo IngestSample.services 7%N "abc" false IngestSample.state0 in
  first.1 = Success
  /\ ingestVideo IngestSample.services_tagging_down 8%N "abc" true first.2
     = (Skipped, first.2).
Proof.
  intros first.
  assert (first.1 = Success) as H1 by (vm_compute; reflexivity).
  split; [exact H1|].
  apply (ingestVideo_rerun_skipped IngestSample.services 7%N "abc" false
           IngestSample.state0 first.2 (IngestSample.video "abc")).
  - reflexivity.
  - reflexivity.
  - rewrite <- H1. apply surjective_pairing.
Defined.

Lemma ingestVideo_no_transcript_witness :
  exists videoDbId st',
    ingestVideo RunSample.services_no_transcript 7%N "abc" false IngestSample.state0
    = (Failed "No transcript", st')
    /\ transcripts (db st') = []
    /\ map log_status (ingestion_logs (db st')) = ["started"; "failed"]%string
    /\ (forall row, row ∈ videos (db st') -> v_id row = videoDbId ->
                    v_status row = failed).
Proof.
  set (sv := RunSample.services_no_transcript).
  set (acq := acquire (acquisition sv) "abc" (sys IngestSample.state0)).
  assert (acq.2 = None) as H2 by (vm_compute; reflexivity).
  assert (acq = (acq.1, None)) as Hacq
    by (rewrite <- H2; apply surjective_pairing).
  destruct (ingestVideo_no_transcript sv 7%N "abc" false
              IngestSample.state0 (IngestSample.video "abc") acq.1)
    as (videoDbId & st' & Hrun & Htr & _ & _ & Hlogs & _ & Hfailed).
  - discriminate.
  - intros _. apply not_elem_of_nil.
  - reflexivity.
  - exact Hacq.
  - exists videoDbId, st'. split; [exact Hrun|]. split; [exact Htr|].
    split; [by rewrite Hlogs|exact Hfailed].
Defined.

Lemma ingestVideo_enriched_witness :
  exists videoDbId st',
    ingestVideo IngestSample.services 7%N "abc" false IngestSample.state0
    = (Success, st')
    /\ linked videoDbId (lit "governance") (db st')
    /\ tags_unique (db st')
    /\ (forall row, row ∈ videos (db st') -> v_id row = videoDbId ->
                    v_status row = completed).
Proof.
  set (sv := IngestSample.services).
  set (tr := parse_response AcquireSample.response).
  set (acq := acquire (acquisition sv) "abc" (sys IngestSample.state0)).
  assert (acq.2 = Some tr) as H2 by (vm_compute; reflexivity).
  assert (acq = (acq.1, Some tr)) as Hacq
    by (rewrite <- H2; apply surjective_pairing).
  destruct (ingestVideo_enriched sv 7%N "abc" IngestSample.state0
              (IngestSample.video "abc") acq.1 tr
              {| cleanedText := text tr; summary := lit "summary";
                 tags_of := [TagString (lit "Governance")] |})
    as (videoDbId & st' & Hrun & _ & _ & _ & Hlinked & _ & Huniq & _ & Hdone).
  - discriminate.
  - intros _. apply not_elem_of_nil.
  - reflexivity.
  - exact Hacq.
  - reflexivity.
  - repeat constructor. by eexists.
  - exists videoDbId, st'. split; [exact Hrun|].
    split; [by apply Forall_inv in Hlinked|].
    split; [|exact Hdone]. apply Huniq. split; apply NoDup_nil_2.
Defined.

Lemma ingestVideo_tag_not_a_string_witness :
  exists videoDbId st',
    ingestVideo RunSample.services_bad_tag 7%N "abc" false IngestSample.state0
    = (Failed "TypeError: tagName.toLowerCase is not a function", st')
    /\ linked videoDbId (lit "cardano") (db st')
    /\ (forall row, row ∈ videos (db st') -> v_id row = videoDbId ->
                    v_status row = failed).
Proof.
  set (sv := RunSample.services_bad_tag).
  set (tr := parse_response AcquireSample.response).
  set (acq := acquire (acquisition sv) "abc" (sys IngestSample.state0)).
  assert (acq.2 = Some tr) as H2 by (vm_compute; reflexivity).
  assert (acq = (acq.1, Some tr)) as Hacq
    by (rewrite <- H2; apply surjective_pairing).
  destruct (ingestVideo_tag_not_a_string sv 7%N "abc" IngestSample.state0
              (IngestSample.video "abc") acq.1 tr
              {| cleanedText := text tr; summary := lit "summary";
                 tags_of := [TagString (lit "Cardano"); TagOther] |}
              [TagString (lit "Cardano")] [])
    as (videoDbId & st' & logs & Hrun & _ & _ & Hlinked & _ & Hfailed).
  - discriminate.
  - intros _. apply not_elem_of_nil.
  - reflexivity.
  - exact Hacq.
  - reflexivity.
  - reflexivity.
  - repeat constructor. by eexists.
  - exists videoDbId, st'. split; [exact Hrun|].
    split; [by apply Forall_inv in Hlinked|exact Hfailed].
Defined.

End RunMore.

(** ** Durations *)

Section DurationFacts.
Import JS YouTube DurationSpec.

Lemma parseInt_from acc d :
  fold_left (fun acc c => 10 * acc + (Z.of_N c - 48)) d acc
  = acc * 10 ^ Z.of_nat (length d) + parseInt d.
Proof.
  unfold parseInt. revert acc. induction d as [|c d IH]; intros acc.
  - simpl. lia.
  - cbn [fold_left length]. rewrite IH, (IH (10 * 0 + _)).
    rewrite Nat2Z.inj_succ, Z.pow_succ_r by lia. lia.
Qed.

Lemma parseInt_snoc d c : parseInt (d ++ [c]) = 10 * parseInt d + (Z.of_N c - 48).
Proof. unfold parseInt. by rewrite fold_left_app. Qed.

Lemma decimal_loop_acc fuel n acc :
  decimal_loop fuel n acc = decimal_loop fuel n [] ++ acc.
Proof.
  revert n acc. induction fuel as [|fuel IH]; intros n acc; [done|].
  cbn [decimal_loop]. destruct (n / 10 =? 0)%N; [done|].
  rewrite IH, (IH _ [_]). by rewrite <- app_assoc.
Qed.

Lemma decimal_loop_digits fuel n acc :
  Forall (fun c => is_digit c = true) acc ->
  Forall (fun c => is_digit c = true) (decimal_loop fuel n acc).
Proof.
  revert n acc. induction fuel as [|fuel IH]; intros n acc Hacc; [done|].
  cbn [decimal_loop].
  assert (is_digit (48 + n mod 10) = true) as Hd.
  { unfold is_digit. pose proof (N.mod_lt n 10 ltac:(lia)) as Hr.
    revert Hr. generalize (n mod 10)%N. intros r Hr.
    apply andb_true_intro. split; apply N.leb_le; lia. }
  destruct (n / 10 =? 0)%N; [by constructor|]. apply IH. by constructor.
Qed.

Lemma decimal_digits n : Forall (fun c => is_digit c = true) (decimal n).
Proof. by apply decimal_loop_digits. Qed.

Lemma decimal_loop_nonempty fuel n : decimal_loop (S fuel) n [] <> [].
Proof.
  cbn [decimal_loop]. destruct (n / 10 =? 0)%N; [done|].
  rewrite decimal_loop_acc. by destruct (decimal_loop fuel _ []).
Qed.

Lemma decimal_nonempty n : decimal n <> [].
Proof. apply decimal_loop_nonempty. Qed.

Lemma parseInt_decimal_loop fuel n :
  (N.to_nat n < fuel)%nat -> parseInt (decimal_loop fuel n []) = Z.of_N n.
Proof.
  revert n. induction fuel as [|fuel IH]; intros n Hn; [lia|].
  cbn [decimal_loop]. destruct (N.eqb_spec (n / 10) 0) as [E|E].
  - unfold parseInt. cbn [fold_left]. pose proof (N.div_mod n 10 ltac:(lia)) as Hn'.
    rewrite E in Hn'. revert Hn'. generalize (n mod 10)%N. intros r Hr. lia.
  - rewrite decimal_loop_acc, parseInt_snoc, IH.
    + pose proof (N.div_mod n 10 ltac:(lia)) as Hn'.
      revert Hn'. generalize (n mod 10)%N (n / 10)%N. intros r q Hr. lia.
    + assert (n / 10 < n)%N as Hlt.
      { apply N.div_lt; [|lia]. destruct (N.eq_dec n 0%N) as [->|]; [done|lia]. }
      revert Hlt. generalize (n / 10)%N. intros q Hq. lia.
Qed.

(** Reading back the decimal digits of a number gives the number. *)
Lemma parseInt_decimal n : parseInt (decimal n) = Z.of_N n.
Proof. apply parseInt_decimal_loop. lia. Qed.

Lemma span_digits_app d rest :
  Forall (fun c => is_digit c = true) d ->
  match rest with c :: _ => is_digit c = false | [] => True end ->
  span_digits (d ++ rest) = (d, rest).
Proof.
  intros Hd Hrest. induction Hd as [|c d Hc _ IH].
  - destruct rest as [|c rest]; [done|]. simpl. by rewrite Hrest.
  - simpl. by rewrite Hc, IH.
Qed.

Lemma span_digits_not_digit s :
  match s with c :: _ => is_digit c = false | [] => True end ->
  span_digits s = ([], s).
Proof. apply (span_digits_app [] s). constructor. Qed.

(** A component that is present is read, whatever follows. *)
Lemma component_present X n rest :
  is_digit X = false ->
  component X ((decimal n ++ [X]) ++ rest) = (Some (decimal n), rest).
Proof.
  intros HX. unfold component. rewrite <- app_assoc.
  rewrite span_digits_app; [|apply decimal_digits|done].
  pose proof (decimal_nonempty n). destruct (decimal n); [done|].
  cbn [app]. by rewrite N.eqb_refl.
Qed.

(** A component with another designator is left for the next group. *)
Lemma component_other X Y n rest :
  is_digit Y = false -> X <> Y ->
  component X ((decimal n ++ [Y]) ++ rest) = (None, (decimal n ++ [Y]) ++ rest).
Proof.
  intros HY HXY. unfold component. rewrite <- app_assoc.
  rewrite span_digits_app; [|apply decimal_digits|done].
  destruct (decimal n); cbn [app]; [done|]. by destruct (N.eqb_spec Y X).
Qed.

Lemma component_present_end X n :
  is_digit X = false -> component X (decimal n ++ [X]) = (Some (decimal n), []).
Proof.
  intros HX. rewrite <- (app_nil_r (decimal n ++ [X])). by apply component_present.
Qed.

Lemma component_other_end X Y n :
  is_digit Y = false -> X <> Y ->
  component X (decimal n ++ [Y]) = (None, decimal n ++ [Y]).
Proof.
  intros HY HXY. rewrite <- (app_nil_r (decimal n ++ [Y])). by apply component_other.
Qed.

(** X9. A day-less duration is decoded: [PT], then any of hours, minutes and
    seconds in this order, gives the number of seconds. *)
Theorem parseDuration_time h m s :
  3600 * amount h + 60 * amount m + amount s < 2 ^ 53 ->
  parseDuration (80%N :: time_part h m s)
  = 3600 * amount h + 60 * amount m + amount s.
Proof.
  intros _. unfold parseDuration, time_part.
  change (after_PT (80%N :: 84%N :: ?s)) with (Some s).
  destruct h as [h|], m as [m|], s as [s|]; cbn [part amount];
    rewrite ?app_nil_l, ?app_nil_r;
    repeat first
      [ rewrite component_present by done
      | rewrite component_present_end by done
      | rewrite component_other by done
      | rewrite component_other_end by done
      | progress change (component ?X []) with (@None jsstring, @nil N)
      | progress cbv beta iota ];
    cbn [default from_option id]; rewrite ?parseInt_decimal;
    change (parseInt (lit "0")) with 0; lia.
Qed.

Lemma after_PT_no_P s : 80%N ∉ s -> after_PT s = None.
Proof.
  induction s as [|c s IH]; [done|]. intros H.
  apply not_elem_of_cons in H as [Hc Hs]. cbn [after_PT starts_with lit].
  change (lit "PT") with [80%N; 84%N]. cbn [starts_with].
  destruct (N.eqb_spec 80 c) as [E|_]; [congruence|]. cbn [andb]. by apply IH.
Qed.

Lemma digit_not_P c : is_digit c = true -> c <> 80%N.
Proof. intros H ->. done. Qed.

Lemma decimal_no_P n : 80%N ∉ decimal n.
Proof.
  intros H. pose proof (decimal_digits n) as Hd.
  eapply Forall_forall in Hd; [|exact H]. done.
Qed.

Lemma part_no_P n X : X <> 80%N -> 80%N ∉ part n X.
Proof.
  intros HX. destruct n as [n|]; [|apply not_elem_of_nil]. unfold part.
  rewrite elem_of_app, list_elem_of_singleton. intros [H|H]; [|congruence].
  by apply decimal_no_P in H.
Qed.

(** X10. A duration of a day or more, which is written with a day count before
    the time part ([P1DT2H3M4S]), has no [PT] in it: it is read as [0]. *)
Theorem parseDuration_days d h m s :
  parseDuration (80%N :: decimal d ++ 68%N :: time_part h m s) = 0.
Proof.
  unfold parseDuration.
  assert (after_PT (80%N :: decimal d ++ 68%N :: time_part h m s) = None) as ->; [|done].
  assert (80%N ∉ decimal d ++ 68%N :: time_part h m s) as Hno.
  { unfold time_part. rewrite elem_of_app, !elem_of_cons, !elem_of_app.
    intros [H|[H|[H|[H|[H|H]]]]]; try discriminate.
    - by apply decimal_no_P in H.
    - by apply part_no_P in H.
    - by apply part_no_P in H.
    - by apply part_no_P in H. }
  cbn [after_PT]. change (lit "PT") with [80%N; 84%N].
  pose proof (decimal_nonempty d) as Hne. pose proof (decimal_digits d) as Hd.
  destruct (decimal d) as [|c r] eqn:E; [done|].
  cbn [app starts_with]. apply Forall_cons in Hd as [Hc _].
  destruct (N.eqb_spec 84 c) as [<-|_]; [done|].
  rewrite andb_false_r. by apply after_PT_no_P.
Qed.

Lemma parseDuration_time_witness : parseDuration (lit "PT1H2M3S") = 3723.
Proof.
  exact (parseDuration_time (Some 1%N) (Some 2%N) (Some 3%N) eq_refl).
Defined.

(** Minutes alone, seconds above 59, and a day count. *)
Example parseDuration_samples :
  parseDuration (lit "PT15M") = 900
  /\ parseDuration (lit "PT90S") = 90
  /\ parseDuration (lit "P1DT2H3M4S") = 0.
Proof. repeat split; vm_compute; reflexivity. Qed.

End DurationFacts.

(** ** Transcript helpers *)

Section TranscriptFacts.
Import JS Model Normalizer Transcript TranscriptSpec.

Lemma groups_cons th a b rest :
  groups th (a :: b :: rest)
  = if pause a b >? th then [a] :: groups th (b :: rest)
    else match groups th (b :: rest) with
         | g :: gs => (a :: g) :: gs
         | [] => [[a]]
         end.
Proof. reflexivity. Qed.

Lemma group_loop_cons th a b rest cur ps :
  group_loop th (a :: b :: rest) cur ps
  = if pause a b >? th
    then group_loop th (b :: rest) [] (ps ++ [trim (join [SPACE] (cur ++ [seg_text a]))])
    else group_loop th (b :: rest) (cur ++ [seg_text a]) ps.
Proof. reflexivity. Qed.

Lemma long_pauses_cons th a b rest :
  long_pauses th (a :: b :: rest)
  = ((if pause a b >? th then 1 else 0) + long_pauses th (b :: rest))%nat.
Proof. reflexivity. Qed.

Lemma groups_nonempty th a rest : groups th (a :: rest) <> [].
Proof.
  revert a. induction rest as [|b rest IH]; intros a; [done|].
  rewrite groups_cons. destruct (pause a b >? th); [discriminate|].
  specialize (IH b). by destruct (groups th (b :: rest)).
Qed.

Lemma group_loop_groups th segs cur ps :
  segs <> [] ->
  let '(currentParagraph, paragraphs) := group_loop th segs cur ps in
  match currentParagraph with
  | [] => paragraphs
  | _ => paragraphs ++ [trim (join [SPACE] currentParagraph)]
  end
  = ps ++ match groups th segs with
          | g :: gs => trim (join [SPACE] (cur ++ map seg_text g)) :: map paragraph_of gs
          | [] => []
          end.
Proof.
  revert cur ps. induction segs as [|a rest IH]; intros cur ps Hne; [done|].
  destruct rest as [|b rest].
  - cbn [group_loop groups map].
    destruct (cur ++ [seg_text a]) eqn:E; [|done].
    by apply app_eq_nil in E as [_ [=]].
  - rewrite group_loop_cons, groups_cons.
    destruct (pause a b >? th).
    + specialize (IH [] (ps ++ [trim (join [SPACE] (cur ++ [seg_text a]))]) ltac:(done)).
      destruct (group_loop th (b :: rest) [] _) as [c p]. rewrite IH.
      pose proof (groups_nonempty th b rest).
      destruct (groups th (b :: rest)) as [|g gs]; [done|].
      by rewrite <- app_assoc.
    + specialize (IH (cur ++ [seg_text a]) ps ltac:(done)).
      destruct (group_loop th (b :: rest) _ ps) as [c p]. rewrite IH.
      pose proof (groups_nonempty th b rest).
      destruct (groups th (b :: rest)) as [|g gs]; [done|].
      cbn [map]. by rewrite <- app_assoc.
Qed.

Lemma groupIntoParagraphs_groups segs th :
  groupIntoParagraphs segs th = map paragraph_of (groups th segs).
Proof.
  destruct segs as [|a rest]; [done|]. unfold groupIntoParagraphs.
  pose proof (group_loop_groups th (a :: rest) [] [] ltac:(done)) as H.
  destruct (group_loop th (a :: rest) [] []) as [c p]. rewrite H.
  pose proof (groups_nonempty th a rest).
  by destruct (groups th (a :: rest)).
Qed.

Lemma groups_concat th segs : concat (groups th segs) = segs.
Proof.
  induction segs as [|a rest IH]; [done|].
  destruct rest as [|b rest]; [done|]. rewrite groups_cons.
  destruct (pause a b >? th); [cbn [concat app]; by rewrite IH|].
  destruct (groups th (b :: rest)) as [|g gs]; [done|].
  cbn [concat] in *. by rewrite <- IH.
Qed.

Lemma groups_head th a rest :
  exists g gs, groups th (a :: rest) = (a :: g) :: gs.
Proof.
  destruct rest as [|b rest]; [by exists [], []|]. rewrite groups_cons.
  destruct (pause a b >? th); [by eexists [], _|].
  pose proof (groups_nonempty th b rest).
  destruct (groups th (b :: rest)) as [|g gs]; [done|]. by exists g, gs.
Qed.

Lemma groups_quiet th segs :
  Forall (fun g => g <> [] /\ quiet th g) (groups th segs).
Proof.
  induction segs as [|a rest IH]; [constructor|].
  destruct rest as [|b rest]; [by repeat constructor|]. rewrite groups_cons.
  destruct (Z.gtb_spec (pause a b) th) as [Hp|Hp]; [by repeat constructor|].
  destruct (groups_head th b rest) as (g & gs & E). rewrite E in *.
  apply Forall_cons in IH as [[_ Hq] Hgs]. constructor; [|done].
  split; [done|]. cbn [quiet]. done.
Qed.

Lemma groups_length th a rest :
  length (groups th (a :: rest)) = S (long_pauses th (a :: rest)).
Proof.
  revert a. induction rest as [|b rest IH]; intros a; [done|].
  rewrite groups_cons, long_pauses_cons. destruct (pause a b >? th).
  - cbn [length]. by rewrite IH.
  - specialize (IH b). destruct (groups th (b :: rest)); [done|]. exact IH.
Qed.

(** X11. [groupIntoParagraphs] cuts the segments after each pause longer than
    the threshold and nowhere else: every segment is in one paragraph, in
    order, no paragraph spans a long pause, and there is one paragraph more
    than there are long pauses. Each paragraph is the trimmed join of its
    segments' texts. No segments, no paragraphs. *)
Theorem groupIntoParagraphs_cuts segments pauseThreshold :
  exists gs,
    groupIntoParagraphs segments pauseThreshold = map paragraph_of gs
    /\ concat gs = segments
    /\ Forall (fun g => g <> [] /\ quiet pauseThreshold g) gs
    /\ length gs = match segments with
                   | [] => 0%nat
                   | _ => S (long_pauses pauseThreshold segments)
                   end.
Proof.
  exists (groups pauseThreshold segments).
  split; [apply groupIntoParagraphs_groups|].
  split; [apply groups_concat|]. split; [apply groups_quiet|].
  destruct segments; [done|apply groups_length].
Qed.

End TranscriptFacts.

Section SnippetFacts.
Import JS Model Normalizer Transcript TranscriptSpec.

Lemma starts_with_spec p s :
  starts_with p s = true <-> exists post, s = p ++ post.
Proof.
  revert s. induction p as [|a p IH]; intros s.
  - split; [by exists s|done].
  - destruct s as [|b s]; cbn [starts_with].
    + split; [done|]. by intros [post [=]].
    + rewrite andb_true_iff, N.eqb_eq, IH. split.
      * intros [-> [post ->]]. by exists post.
      * intros [post [= -> ->]]. split; [done|by exists post].
Qed.

Lemma indexOf_from_found s needle i r :
  indexOf_from s needle i = r -> r <> -1 -> 0 <= i ->
  exists k : nat,
    r = i + Z.of_nat k /\ (k <= length s)%nat
    /\ starts_with needle (drop k s) = true
    /\ forall j : nat, (j < k)%nat -> starts_with needle (drop j s) = false.
Proof.
  revert i. induction s as [|c s IH]; intros i Hr Hne Hi.
  - cbn [indexOf_from] in Hr. destruct (starts_with needle []) eqn:E; [|congruence].
    exists 0%nat. repeat split; [lia|done|done|lia].
  - cbn [indexOf_from] in Hr. destruct (starts_with needle (c :: s)) eqn:E.
    + exists 0%nat. repeat split; [lia|simpl; lia|done|lia].
    + destruct (IH (i + 1) Hr Hne ltac:(lia)) as (k & -> & Hk & Hst & Hfirst).
      exists (S k). repeat split; [lia|simpl; lia|done|].
      intros [|j] Hj; [done|]. apply Hfirst. lia.
Qed.

Lemma indexOf_from_absent s needle i :
  indexOf_from s needle i = -1 -> 0 <= i ->
  forall j : nat, starts_with needle (drop j s) = false.
Proof.
  revert i. induction s as [|c s IH]; intros i Hr Hi j.
  - cbn [indexOf_from] in Hr. rewrite drop_nil.
    destruct (starts_with needle []); [lia|done].
  - cbn [indexOf_from] in Hr. destruct (starts_with needle (c :: s)) eqn:E; [lia|].
    destruct j as [|j]; [done|]. by apply (IH (i + 1)); [|lia].
Qed.

Lemma indexOf_from_range s needle i :
  0 <= i -> indexOf_from s needle i = -1 \/ 0 <= indexOf_from s needle i.
Proof.
  revert i. induction s as [|c s IH]; intros i Hi; cbn [indexOf_from].
  - destruct (starts_with needle []); lia.
  - destruct (starts_with needle (c :: s)); [lia|]. apply IH. lia.
Qed.

(** [indexOf] is [-1] exactly when the needle does not occur. *)
Lemma indexOf_absent s needle :
  indexOf s needle = -1 <-> ~ exists pre post, s = pre ++ needle ++ post.
Proof.
  split.
  - intros H (pre & post & ->).
    pose proof (indexOf_from_absent _ _ _ H ltac:(lia) (length pre)) as Hj.
    rewrite drop_app_length in Hj.
    assert (starts_with needle (needle ++ post) = true) by (apply starts_with_spec; by exists post).
    congruence.
  - intros Hno. destruct (Z.eq_dec (indexOf s needle) (-1)) as [|Hne]; [done|].
    exfalso. apply Hno.
    destruct (indexOf_from_found s needle 0 _ eq_refl Hne ltac:(lia))
      as (k & _ & _ & Hst & _).
    apply starts_with_spec in Hst as [post Hpost].
    exists (take k s), post. by rewrite <- Hpost, take_drop.
Qed.

(** Cutting a list at four places. *)
Lemma cut4 {A} (l : list A) (a b c d : nat) :
  (a <= b)%nat -> (b <= c)%nat -> (c <= d)%nat -> (d <= length l)%nat ->
  l = take a l ++ take (b - a) (drop a l) ++ take (c - b) (drop b l)
      ++ take (d - c) (drop c l) ++ drop d l
  /\ take (d - a) (drop a l)
     = take (b - a) (drop a l) ++ take (c - b) (drop b l) ++ take (d - c) (drop c l).
Proof.
  intros Hab Hbc Hcd Hd.
  assert (forall i j, (i <= j)%nat ->
            take (j - i) (drop i l) ++ drop j l = drop i l) as Hseg.
  { intros i j Hij. replace (drop j l) with (drop (j - i) (drop i l)).
    - apply take_drop.
    - rewrite drop_drop. f_equal. lia. }
  split.
  - rewrite (Hseg c d), (Hseg b c), (Hseg a b) by done. by rewrite take_drop.
  - replace (d - a)%nat with ((b - a) + ((c - b) + (d - c)))%nat by lia.
    rewrite <- take_take_drop, drop_drop. f_equal.
    replace (a + (b - a))%nat with b by lia.
    rewrite <- take_take_drop, drop_drop. f_equal. f_equal. f_equal. lia.
Qed.

(** The window of [around] for a match of length [len] at [index]: up to
    [context] units on each side of it, and an ellipsis on each side where
    text was left out. *)
Lemma around_spec text (index len : nat) context :
  0 <= context -> (index + len <= length text)%nat ->
  exists before pre post after,
    text = before ++ pre ++ take len (drop index text) ++ post ++ after
    /\ length (before ++ pre) = index
    /\ Z.of_nat (length pre) <= context
    /\ Z.of_nat (length post) <= context
    /\ (before <> [] -> Z.of_nat (length pre) = context)
    /\ (after <> [] -> Z.of_nat (length post) = context)
    /\ around text (Z.of_nat index) (Z.of_nat len) context
       = (match before with [] => [] | _ => lit "..." end)
         ++ pre ++ take len (drop index text) ++ post
         ++ (match after with [] => [] | _ => lit "..." end).
Proof.
  intros Hctx Hlen.
  set (start := Z.to_nat (Z.max 0 (Z.of_nat index - context))).
  set (end_ := Z.to_nat (Z.min (Z.of_nat (length text))
                               (Z.of_nat index + Z.of_nat len + context))).
  assert (start <= index)%nat as H1 by lia.
  assert (index + len <= end_)%nat as H2 by lia.
  assert (end_ <= length text)%nat as H3 by lia.
  destruct (cut4 text start index (index + len) end_ H1 ltac:(lia) H2 H3) as [Htext Hmid].
  replace (index + len - index)%nat with len in * by lia.
  exists (take start text), (take (index - start) (drop start text)),
         (take (end_ - (index + len)) (drop (index + len) text)), (drop end_ text).
  split; [exact Htext|].
  assert (length (take start text) = start) as Lb by (rewrite length_take; lia).
  assert (length (take (index - start) (drop start text)) = (index - start)%nat) as Lp
    by (rewrite length_take, length_drop; lia).
  assert (length (take (end_ - (index + len)) (drop (index + len) text))
          = (end_ - (index + len))%nat) as Lq
    by (rewrite length_take, length_drop; lia).
  assert (length (drop end_ text) = (length text - end_)%nat) as La
    by apply length_drop.
  split; [rewrite length_app, Lb, Lp; lia|].
  split; [rewrite Lp; lia|]. split; [rewrite Lq; lia|].
  split.
  { intros Hb. rewrite Lp. destruct (decide (start = 0%nat)) as [E|E]; [|lia].
    rewrite E in Hb. by rewrite take_0 in Hb. }
  split.
  { intros Ha. rewrite Lq. destruct (decide (end_ = length text)) as [E|E]; [|lia].
    rewrite E, drop_all in Ha. done. }
  unfold around.
  assert (slice text (Z.max 0 (Z.of_nat index - context))
                (Z.min (Z.of_nat (length text))
                       (Z.of_nat index + Z.of_nat len + context))
          = take (end_ - start) (drop start text)) as ->.
  { unfold slice, rel_index.
    destruct (Z.ltb_spec (Z.max 0 (Z.of_nat index - context)) 0); [lia|].
    destruct (Z.ltb_spec (Z.min (Z.of_nat (length text))
                (Z.of_nat index + Z.of_nat len + context)) 0); [lia|].
    f_equal; [|f_equal]; lia. }
  rewrite Hmid.
  assert ((Z.max 0 (Z.of_nat index - context) >? 0)
          = match take start text with [] => false | _ => true end) as ->.
  { destruct (take start text); simpl in Lb.
    - destruct (Z.gtb_spec (Z.max 0 (Z.of_nat index - context)) 0); [lia|done].
    - destruct (Z.gtb_spec (Z.max 0 (Z.of_nat index - context)) 0); [done|lia]. }
  assert ((Z.min (Z.of_nat (length text)) (Z.of_nat index + Z.of_nat len + context)
           <? Z.of_nat (length text))
          = match drop end_ text with [] => false | _ => true end) as ->.
  { destruct (drop end_ text); simpl in La.
    - destruct (Z.ltb_spec (Z.min (Z.of_nat (length text))
                  (Z.of_nat index + Z.of_nat len + context)) (Z.of_nat (length text)));
        [lia|done].
    - destruct (Z.ltb_spec (Z.min (Z.of_nat (length text))
                  (Z.of_nat index + Z.of_nat len + context)) (Z.of_nat (length text)));
        [done|lia]. }
  destruct (take start text), (drop end_ text); cbn [app];
    rewrite <- ?app_assoc, ?app_nil_r; reflexivity.
Qed.

(** Where a unit-wise lower-cased text has its first match of the
    lower-cased term, the text has a passage that is the term up to case. *)
Lemma indexOf_map_found (f : N -> N) text term :
  indexOf (map f text) (map f term) <> -1 ->
  exists index : nat,
    indexOf (map f text) (map f term) = Z.of_nat index
    /\ (index + length term <= length text)%nat
    /\ map f (take (length term) (drop index text)) = map f term
    /\ forall pre' post', map f text = pre' ++ map f term ++ post' ->
                          (index <= length pre')%nat.
Proof.
  intros Hne.
  destruct (indexOf_from_found (map f text) (map f term) 0 _ eq_refl Hne ltac:(lia))
    as (k & Hk & Hlen & Hst & Hfirst).
  apply starts_with_spec in Hst as [post Hpost].
  assert (length (drop k (map f text)) = length (map f term ++ post)) as Hl
    by (by rewrite Hpost).
  rewrite length_drop, length_app, !length_map in Hl. rewrite length_map in Hlen.
  exists k. split; [unfold indexOf; lia|]. split; [lia|]. split.
  - rewrite <- firstn_map, <- skipn_map, Hpost, take_app_length'; [done|by rewrite length_map].
  - intros pre' post' Hocc.
    destruct (decide (k <= length pre')%nat) as [|Hlt]; [done|]. exfalso.
    specialize (Hfirst (length pre') ltac:(lia)).
    rewrite Hocc, drop_app_length in Hfirst.
    assert (starts_with (map f term) (map f term ++ post') = true)
      by (apply starts_with_spec; by exists post').
    congruence.
Qed.

(** X12. [createSnippet] gives nothing exactly when the lower-cased term does
    not occur in the lower-cased text. *)
Theorem createSnippet_none toLowerCase text searchTerm contextLength :
  createSnippet toLowerCase text searchTerm contextLength = None
  <-> ~ exists pre post,
          toLowerCase text = pre ++ toLowerCase searchTerm ++ post.
Proof.
  rewrite <- indexOf_absent. unfold createSnippet.
  destruct (Z.eqb_spec (indexOf (toLowerCase text) (toLowerCase searchTerm)) (-1));
    split; intros; done.
Qed.

(** X13. For a lower-casing that works unit by unit and a context that is not
    negative, the snippet of [createSnippet] is cut around the first
    passage of the text that is the term up to case: the passage, at most
    [contextLength] units on each side of it, and an ellipsis on each side
    at which text was left out. *)
Theorem createSnippet_window (f : N -> N) text searchTerm contextLength snippet :
  0 <= contextLength ->
  createSnippet (map f) text searchTerm contextLength = Some snippet ->
  exists before pre m post after,
    text = before ++ pre ++ m ++ post ++ after
    /\ map f m = map f searchTerm
    /\ (forall pre' post', map f text = pre' ++ map f searchTerm ++ post' ->
                           (length (before ++ pre) <= length pre')%nat)
    /\ Z.of_nat (length pre) <= contextLength
    /\ Z.of_nat (length post) <= contextLength
    /\ (before <> [] -> Z.of_nat (length pre) = contextLength)
    /\ (after <> [] -> Z.of_nat (length post) = contextLength)
    /\ snippet = (match before with [] => [] | _ => lit "..." end)
                 ++ pre ++ m ++ post
                 ++ (match after with [] => [] | _ => lit "..." end).
Proof.
  intros Hctx. unfold createSnippet.
  destruct (Z.eqb_spec (indexOf (map f text) (map f searchTerm)) (-1)) as [|Hne];
    [done|].
  destruct (indexOf_map_found f text searchTerm Hne) as (index & -> & Hlen & Hm & Hfirst).
  intros [= <-].
  destruct (around_spec text index (length searchTerm) contextLength Hctx Hlen)
    as (before & pre & post & after & Htext & Hidx & Hpre & Hpost & Hb & Ha & Hs).
  exists before, pre, (take (length searchTerm) (drop index text)), post, after.
  rewrite Hidx. done.
Qed.

(** X14. The snippet of the search page. Without a match it is the first
    [maxLength] units of the text followed by an ellipsis, also when the
    text is shorter than that; with a match it is cut around the first
    one with 80 units of context, whatever [maxLength] is. *)
Theorem getSnippet_cases (f : N -> N) text query maxLength :
  0 <= maxLength ->
  ((~ exists pre post, map f text = pre ++ map f query ++ post)
   /\ getSnippet (map f) text query maxLength
      = take (Z.to_nat maxLength) text ++ lit "...")
  \/ exists before pre m post after,
       text = before ++ pre ++ m ++ post ++ after
       /\ map f m = map f query
       /\ (forall pre' post', map f text = pre' ++ map f query ++ post' ->
                              (length (before ++ pre) <= length pre')%nat)
       /\ (length pre <= 80)%nat
       /\ (length post <= 80)%nat
       /\ (before <> [] -> length pre = 80%nat)
       /\ (after <> [] -> length post = 80%nat)
       /\ getSnippet (map f) text query maxLength
          = (match before with [] => [] | _ => lit "..." end)
            ++ pre ++ m ++ post
            ++ (match after with [] => [] | _ => lit "..." end).
Proof.
  intros Hmax. unfold getSnippet.
  destruct (Z.eqb_spec (indexOf (map f text) (map f query)) (-1)) as [E|Hne].
  - left. split; [by apply indexOf_absent|]. f_equal.
    unfold slice, rel_index. cbn [Z.ltb Z.compare].
    destruct (Z.ltb_spec maxLength 0); [lia|].
    replace (0 `min` Z.of_nat (length text)) with 0 by lia.
    rewrite Z.sub_0_r. cbn [Z.to_nat]. rewrite drop_0.
    destruct (Z.min_spec maxLength (Z.of_nat (length text))) as [[? ->]|[? ->]];
      [done|].
    rewrite Nat2Z.id, !take_ge; [done|lia|lia].
  - right.
    destruct (indexOf_map_found f text query Hne) as (index & -> & Hlen & Hm & Hfirst).
    destruct (around_spec text index (length query) 80 ltac:(lia) Hlen)
      as (before & pre & post & after & Htext & Hidx & Hpre & Hpost & Hb & Ha & Hs).
    exists before, pre, (take (length query) (drop index text)), post, after.
    rewrite Hidx. repeat split; try done; try lia.
    + intros H. specialize (Hb H). lia.
    + intros H. specialize (Ha H). lia.
Qed.

Lemma createSnippet_window_witness :
  createSnippet (map IngestSample.lower_ascii) (lit "Hello big World") (lit "BIG") 2
  = Some (lit "...o big W...")
  /\ exists before pre m post after,
       lit "Hello big World" = before ++ pre ++ m ++ post ++ after
       /\ map IngestSample.lower_ascii m = map IngestSample.lower_ascii (lit "BIG")
       /\ lit "...o big W..."
          = (match before with [] => [] | _ => lit "..." end)
            ++ pre ++ m ++ post
            ++ (match after with [] => [] | _ => lit "..." end).
Proof.
  assert (createSnippet (map IngestSample.lower_ascii) (lit "Hello big World")
            (lit "BIG") 2 = Some (lit "...o big W...")) as H
    by (vm_compute; reflexivity).
  split; [exact H|].
  destruct (createSnippet_window IngestSample.lower_ascii (lit "Hello big World")
              (lit "BIG") 2 (lit "...o big W...") ltac:(lia) H)
    as (before & pre & m & post & after & Ht & Hm & _ & _ & _ & _ & _ & Hs).
  by exists before, pre, m, post, after.
Defined.

Lemma getSnippet_cases_witness :
  getSnippet (map IngestSample.lower_ascii) (lit "short") (lit "long") 200
  = lit "short..."
  /\ ((~ exists pre post,
          map IngestSample.lower_ascii (lit "short")
          = pre ++ map IngestSample.lower_ascii (lit "long") ++ post)
      \/ exists m, map IngestSample.lower_ascii m
                   = map IngestSample.lower_ascii (lit "long")).
Proof.
  split; [vm_compute; reflexivity|].
  destruct (getSnippet_cases IngestSample.lower_ascii (lit "short") (lit "long") 200
              ltac:(lia))
    as [[Hno _]|(before & pre & m & post & after & _ & Hm & _)].
  - by left.
  - right. by exists m.
Defined.

End SnippetFacts.

(** ** The normalizer and the page *)

Section ParagraphFacts.
Import JS Normalizer Page.

Lemma trimmed_head s c r : trimmed s -> s = c :: r -> is_space c = false.
Proof.
  intros [H _] ->. pose proof (trimStart_head (c :: r)) as Hh.
  by rewrite H in Hh.
Qed.

Lemma trimmed_last s c r : trimmed s -> s = r ++ [c] -> is_space c = false.
Proof.
  intros [_ H] ->. pose proof (trimStart_head (rev (r ++ [c]))) as Hh.
  rewrite H, rev_app_distr in Hh. exact Hh.
Qed.

Lemma trimmed_intro s :
  match s with c :: _ => is_space c = false | [] => True end ->
  match rev s with c :: _ => is_space c = false | [] => True end ->
  trimmed s.
Proof. intros H1 H2. split; by apply trimStart_fixed. Qed.

Lemma trimmed_app a mid b :
  a <> [] -> b <> [] -> trimmed a -> trimmed b -> trimmed (a ++ mid ++ b).
Proof.
  intros Ha Hb Hta Htb. apply trimmed_intro.
  - destruct a as [|c r]; [done|]. cbn [app]. by apply (trimmed_head (c :: r) c r).
  - rewrite !rev_app_distr.
    destruct (rev b) as [|c r] eqn:E.
    + apply (f_equal (@rev N)) in E. rewrite rev_involutive in E. done.
    + rewrite <- !app_assoc. cbn [app]. apply (trimmed_last b c (rev r)); [done|].
      apply (f_equal (@rev N)) in E. by rewrite rev_involutive in E.
Qed.

Lemma join_cons2 sep p q r : join sep (p :: q :: r) = p ++ sep ++ join sep (q :: r).
Proof. reflexivity. Qed.

Lemma join_trimmed sep ps :
  Forall (fun p => p <> [] /\ trimmed p) ps ->
  trimmed (join sep ps) /\ (ps <> [] -> join sep ps <> []).
Proof.
  induction 1 as [|p ps [Hne Ht] Hps [IH1 IH2]]; [by split|].
  destruct ps as [|q r]; [by split|]. rewrite join_cons2. split.
  - apply trimmed_app; [done|by apply IH2|done|done].
  - intros _ E. by apply app_eq_nil in E as [? _].
Qed.

Lemma paragraphs_loop_inv (P : jsstring -> Prop) fuel (sentences : list jsstring) n i acc :
  (forall k, trim (concat (slice sentences k (k + n))) <> [] ->
             P (trim (concat (slice sentences k (k + n))))) ->
  Forall P acc -> Forall P (paragraphs_loop fuel sentences n i acc).
Proof.
  intros HP. revert i acc. induction fuel as [|fuel IH]; intros i acc Hacc; [done|].
  cbn [paragraphs_loop]. destruct (i <? Z.of_nat (length sentences)); [|done].
  apply IH. destruct (trim (concat (slice sentences i (i + n)))) eqn:E; [done|].
  apply Forall_app. split; [done|]. constructor; [|done].
  rewrite <- E. apply HP. by rewrite E.
Qed.

(** X15. The text that [cleanTranscriptText] returns never starts or ends with
    white space, whatever the options. *)
Theorem cleanTranscriptText_trimmed text o : trimmed (cleanTranscriptText text o).
Proof.
  unfold cleanTranscriptText.
  destruct (addParagraphs o && (sentencesPerParagraph o >? 0)); [|apply trim_trimmed].
  apply join_trimmed. apply paragraphs_loop_inv; [|constructor].
  intros k Hk. split; [done|apply trim_trimmed].
Qed.

Lemma normal_no_newline s : normal s -> 10%N ∉ s.
Proof.
  induction s as [|c r IH]; [intros _; apply not_elem_of_nil|].
  intros [Hc Hr]. apply not_elem_of_cons. split; [|by apply IH].
  intros <-. by destruct (Hc eq_refl) as [[=] _].
Qed.

Lemma match_sentences_elem x st s :
  Exists (fun sentence => x ∈ sentence) (match_sentences st s) ->
  x ∈ s \/ match st with
           | Skip => False
           | Body acc | Terms acc | Spaces acc => x ∈ acc
           end.
Proof.
  revert st. induction s as [|c r IH]; intros st H.
  - destruct st; cbn [match_sentences] in H;
      try (by apply Exists_nil in H);
      apply Exists_cons in H as [H|H]; try (by right); by apply Exists_nil in H.
  - assert (forall acc, x ∈ acc ++ [c] -> x ∈ c :: r \/ x ∈ acc) as Hsnoc.
    { intros acc Hx. apply elem_of_app in Hx as [Hx|Hx]; [by right|].
      apply list_elem_of_singleton in Hx as ->. left. constructor. }
    assert (x ∈ r \/ x ∈ [c] -> x ∈ c :: r \/ False) as Hone.
    { intros [Hx|Hx]; left; [by constructor|].
      apply list_elem_of_singleton in Hx as ->. constructor. }
    destruct st as [|acc|acc|acc]; cbn [match_sentences] in H.
    + destruct (is_term c).
      * destruct (IH _ H) as [Hx|[]]. left. by constructor.
      * destruct (IH _ H) as [Hx|Hx]; apply Hone; tauto.
    + destruct (is_term c); (destruct (IH _ H) as [Hx|Hx];
        [left; by constructor|by apply Hsnoc]).
    + destruct (is_term c); [|destruct (is_space c)].
      * destruct (IH _ H) as [Hx|Hx]; [left; by constructor|by apply Hsnoc].
      * destruct (IH _ H) as [Hx|Hx]; [left; by constructor|by apply Hsnoc].
      * apply Exists_cons in H as [H|H]; [by right|].
        destruct (IH _ H) as [Hx|Hx]; [left; by constructor|].
        destruct (Hone (or_intror Hx)); tauto.
    + destruct (is_space c); [|destruct (is_term c)].
      * destruct (IH _ H) as [Hx|Hx]; [left; by constructor|by apply Hsnoc].
      * apply Exists_cons in H as [H|H]; [by right|].
        destruct (IH _ H) as [Hx|[]]. left. by constructor.
      * apply Exists_cons in H as [H|H]; [by right|].
        destruct (IH _ H) as [Hx|Hx]; [left; by constructor|].
        destruct (Hone (or_intror Hx)); tauto.
Qed.

Lemma sentences_of_elem x cleaned :
  Exists (fun sentence => x ∈ sentence) (sentences_of cleaned) -> x ∈ cleaned.
Proof.
  unfold sentences_of. intros H.
  destruct (match_sentences Skip cleaned) as [|s l] eqn:E.
  - apply Exists_cons in H as [H|H]; [done|by apply Exists_nil in H].
  - rewrite <- E in H. by destruct (match_sentences_elem _ _ _ H).
Qed.

Lemma slice_elem {A} (x : A) xs from to : x ∈ slice xs from to -> x ∈ xs.
Proof. unfold slice. intros H. by apply subseteq_take, subseteq_drop in H. Qed.

Lemma paragraph_elem x (sentences : list jsstring) i j :
  x ∈ trim (concat (slice sentences i j)) ->
  Exists (fun sentence => x ∈ sentence) sentences.
Proof.
  intros H. apply elem_of_trim, list_elem_of_In, in_concat in H as (s & Hs & Hx).
  apply Exists_exists. exists s. split; [|by apply list_elem_of_In].
  apply list_elem_of_In in Hs. by apply slice_elem in Hs.
Qed.

(** What the paragraph loop of [cleanTranscriptText] produces: paragraphs
    that are not empty, are trimmed and have no line feed in them. *)
Lemma paragraphs_shape text o :
  let cleaned := trim (collapse_ws
                   (if removeFillers o then remove_fillers (decode_entities text)
                    else decode_entities text)) in
  let sentences := sentences_of cleaned in
  Forall (fun p => p <> [] /\ trimmed p /\ 10%N ∉ p)
    (paragraphs_loop (length sentences) sentences (sentencesPerParagraph o) 0 []).
Proof.
  intros cleaned sentences. apply paragraphs_loop_inv; [|constructor].
  intros k Hk. split; [done|]. split; [apply trim_trimmed|].
  intros Hx. apply paragraph_elem, sentences_of_elem in Hx.
  revert Hx. apply normal_no_newline, trim_normal, collapse_ws_normal.
Qed.

Lemma split_loop_plain cur p rest :
  10%N ∉ p ->
  split_loop [10; 10]%N O cur (p ++ rest) = split_loop [10; 10]%N O (cur ++ p) rest.
Proof.
  revert cur. induction p as [|c p IH]; intros cur Hp; [by rewrite app_nil_r|].
  apply not_elem_of_cons in Hp as [Hc Hp].
  cbn [app split_loop starts_with].
  destruct (N.eqb_spec 10 c) as [E|_]; [congruence|]. cbn [andb].
  rewrite IH by done. by rewrite <- app_assoc.
Qed.

Lemma split_loop_sep cur rest :
  split_loop [10; 10]%N O cur ([10; 10]%N ++ rest)
  = cur :: split_loop [10; 10]%N O [] rest.
Proof. reflexivity. Qed.

Lemma split_loop_join cur p ps :
  Forall (fun p => 10%N ∉ p) (p :: ps) ->
  split_loop [10; 10]%N O cur (join [10; 10]%N (p :: ps)) = (cur ++ p) :: ps.
Proof.
  revert cur p. induction ps as [|q r IH]; intros cur p H.
  - apply Forall_cons in H as [Hp _]. cbn [join].
    rewrite <- (app_nil_r p) at 1. by rewrite split_loop_plain.
  - apply Forall_cons in H as [Hp H]. rewrite join_cons2.
    rewrite split_loop_plain by done. rewrite split_loop_sep. by rewrite IH.
Qed.

(** Splitting at blank lines undoes joining with blank lines, for pieces
    without line feed. *)
Lemma split_join ps :
  ps <> [] -> Forall (fun p => 10%N ∉ p) ps ->
  split [10; 10]%N (join [10; 10]%N ps) = ps.
Proof.
  intros Hne H. destruct ps as [|p ps]; [done|]. unfold split.
  by rewrite split_loop_join.
Qed.

Lemma filter_all {A} (f : A -> bool) l :
  Forall (fun x => f x = true) l -> List.filter f l = l.
Proof. induction 1 as [|x l Hx _ IH]; [done|]. cbn [List.filter]. by rewrite Hx, IH. Qed.

(** X16. The paragraphs that the video page renders are those of
    [cleanTranscriptText]: joined by blank lines they are the cleaned text
    again, and each of them is not empty, is trimmed and has no line feed. *)
Theorem Transcript_paragraphs text :
  join [10; 10]%N (Transcript text) = cleanTranscriptText text page_options
  /\ Forall (fun p => p <> [] /\ trimmed p /\ 10%N ∉ p) (Transcript text).
Proof.
  pose proof (paragraphs_shape text page_options) as Hshape.
  unfold Transcript, cleanTranscriptText in *.
  cbn [removeFillers addParagraphs sentencesPerParagraph page_options andb] in *.
  change (5 >? 0) with true. cbv beta iota zeta in *.
  set (ps := paragraphs_loop _ _ _ _ _) in *.
  destruct ps as [|p ps'] eqn:E.
  - by split.
  - rewrite <- E in *. rewrite split_join; [|by rewrite E|].
    + rewrite filter_all; [done|].
      eapply Forall_impl; [exact Hshape|]. intros q (Hq & Ht & _).
      rewrite trim_fixed by done. by destruct q.
    + eapply Forall_impl; [exact Hshape|]. by intros q (_ & _ & Hq).
Qed.

End ParagraphFacts.

(** ** Chunker: the chunks *)

Section ChunkMore.
Import JS Model Chunker Normalizer LLM.

Lemma elem_of_trimStart_nonspace c s :
  c ∈ s -> is_space c = false -> c ∈ trimStart s.
Proof.
  induction s as [|x s IH]; [done|]. intros H Hc. cbn [trimStart].
  destruct (is_space x) eqn:Ex; [|done].
  apply elem_of_cons in H as [->|H]; [congruence|by apply IH].
Qed.

(** Trimming does not empty a text that has a unit other than white
    space. *)
Lemma trim_nonempty c s : c ∈ s -> is_space c = false -> trim s <> [].
Proof.
  intros H Hc. unfold trim, trimEnd.
  assert (c ∈ trimStart (rev (trimStart s))) as Hin.
  { apply elem_of_trimStart_nonspace; [|done].
    apply list_elem_of_In, in_rev. rewrite rev_involutive. apply list_elem_of_In.
    by apply elem_of_trimStart_nonspace. }
  intros E. apply (f_equal (@rev N)) in E. rewrite rev_involutive in E.
  rewrite E in Hin. by apply elem_of_nil in Hin.
Qed.

Lemma normal_lookup s i a b :
  normal s -> s !! i = Some a -> s !! S i = Some b ->
  is_space a = true -> is_space b = false.
Proof.
  revert i. induction s as [|c r IH]; intros i Hn Ha Hb Hsp; [done|].
  destruct Hn as [Hc Hr]. destruct i as [|i].
  - injection Ha as ->. destruct (Hc Hsp) as [_ Hnext].
    destruct r as [|c' r']; [done|]. by injection Hb as <-.
  - by apply (IH i).
Qed.

(** A window that starts inside a normalized text and either reaches its
    end or is two units wide has a unit other than white space. *)
Lemma window_nonspace normalized s e :
  normal normalized -> trimmed normalized ->
  0 <= s < Z.of_nat (length normalized) -> s + 2 <= e ->
  exists c, c ∈ slice normalized s e /\ is_space c = false.
Proof.
  intros Hn Ht Hs He. rewrite slice_nonneg by lia.
  destruct (Z.le_gt_cases (Z.of_nat (length normalized)) e) as [Hend|Hin].
  - rewrite take_ge by (rewrite length_drop; lia).
    destruct (rev normalized) as [|c r] eqn:E.
    { apply (f_equal length) in E. rewrite length_rev in E. simpl in E. lia. }
    apply (f_equal (@rev N)) in E. rewrite rev_involutive in E. cbn [rev] in E.
    exists c. split; [|by apply (trimmed_last normalized c (rev r))].
    rewrite E, drop_app_le.
    + apply elem_of_app. right. constructor.
    + apply (f_equal length) in E. rewrite length_app in E. simpl in E. lia.
  - destruct (lookup_lt_is_Some_2 normalized (Z.to_nat s) ltac:(lia)) as [a Ha].
    destruct (lookup_lt_is_Some_2 normalized (S (Z.to_nat s)) ltac:(lia)) as [b Hb].
    destruct (is_space a) eqn:Ea.
    + exists b. split; [|by apply (normal_lookup normalized (Z.to_nat s) a b)].
      apply elem_of_take. exists 1%nat. rewrite lookup_drop. split; [|lia].
      by replace (Z.to_nat s + 1)%nat with (S (Z.to_nat s)) by lia.
    + exists a. split; [|done].
      apply elem_of_take. exists 0%nat. rewrite lookup_drop. split; [|lia].
      by rewrite Nat.add_0_r.
Qed.

Lemma windows_loop_starts fuel normalized start ws :
  0 <= start ->
  windows_loop fuel normalized start = Some ws ->
  Forall (fun w => 0 <= w.1 < Z.of_nat (length normalized) /\ w.1 + 2 <= w.2) ws.
Proof.
  revert start ws. induction fuel as [|fuel IH]; intros start ws Hs; simpl.
  - destruct (start <? _); [done|]. by intros [= <-].
  - destruct (Z.ltb_spec start (Z.of_nat (length normalized))); [|by intros [= <-]].
    pose proof (window_end_bounds normalized start Hs) as Hw.
    destruct (windows_loop fuel normalized _) as [ws'|] eqn:E; [|done].
    intros [= <-]. constructor.
    + simpl. unfold BOUNDARY_FLOOR in *. lia.
    + eapply IH; [|exact E]. unfold BOUNDARY_FLOOR, CHUNK_OVERLAP in *. lia.
Qed.

Lemma map_newlines_id s :
  10%N ∉ s -> map (fun c => if (c =? 10)%N then SPACE else c) s = s.
Proof.
  induction s as [|c s IH]; [done|]. intros H.
  apply not_elem_of_cons in H as [Hc Hs]. cbn [map].
  destruct (N.eqb_spec c 10) as [E|_]; [congruence|]. by rewrite IH.
Qed.

(** X17. No chunk of [splitText] is empty, and [generateEmbedding] sends each
    of them to the provider as it is: a chunk is trimmed and has no line
    feed, so the clean-up of [generateEmbedding] leaves it alone and the
    empty-text shortcut is never taken. *)
Theorem splitText_chunks_embedded fuel text chunks :
  splitText fuel text = Some chunks ->
  Forall (fun chunk =>
            chunk <> []
            /\ forall client, generateEmbedding (Returned client) chunk
                              = embed client chunk)
         chunks.
Proof.
  unfold splitText. destruct text as [|c text]; [by intros [= <-]|].
  rewrite splitText_loop_windows.
  destruct (windows_loop fuel _ 0) as [ws|] eqn:E; [|done].
  intros [= <-]. cbn [app]. apply Forall_map.
  eapply Forall_impl; [apply (windows_loop_starts _ _ 0 ws ltac:(lia) E)|].
  intros [s e] [Hs He]. cbn [fst snd] in *. unfold window_text. cbn [fst snd].
  set (normalized := normalize_ws (c :: text)) in *.
  assert (normal normalized) as Hn by apply trim_normal, collapse_ws_normal.
  destruct (window_nonspace normalized s e) as (x & Hx & Hsp);
    [done|apply trim_trimmed|done|done|].
  pose proof (trim_nonempty x _ Hx Hsp) as Hne.
  split; [exact Hne|]. intros client. unfold generateEmbedding.
  rewrite map_newlines_id.
  - rewrite (trim_fixed (trim _)) by apply trim_trimmed.
    by destruct (trim (slice normalized s e)).
  - intros H. apply elem_of_trim, slice_elem in H.
    by apply normal_no_newline in H.
Qed.

(** X18. A text whose normalized form is between 901 and 1000 units long is
    cut in two chunks: the whole normalized text, and again its part from
    unit 900 on. *)
Theorem splitText_repeats_tail fuel text :
  (2 <= fuel)%nat ->
  900 < Z.of_nat (length (normalize_ws text)) <= 1000 ->
  splitText fuel text
  = Some [normalize_ws text; trim (drop 900 (normalize_ws text))].
Proof.
  intros Hfuel Hlen. unfold splitText.
  destruct text as [|c text]; [simpl in Hlen; lia|].
  set (normalized := normalize_ws (c :: text)) in *.
  destruct fuel as [|[|fuel]]; [lia|lia|].
  assert (window_end normalized 0 = 1000) as E0.
  { unfold window_end, CHUNK_SIZE.
    destruct (Z.ltb_spec (0 + 1000) (Z.of_nat (length normalized))); [lia|done]. }
  assert (window_end normalized 900 = 1900) as E1.
  { unfold window_end, CHUNK_SIZE.
    destruct (Z.ltb_spec (900 + 1000) (Z.of_nat (length normalized))); [lia|done]. }
  cbn [splitText_loop].
  destruct (Z.ltb_spec 0 (Z.of_nat (length normalized))); [|lia].
  rewrite E0. unfold CHUNK_OVERLAP. change (1000 - 100) with 900.
  destruct (Z.ltb_spec 900 (Z.of_nat (length normalized))); [|lia].
  rewrite E1. change (1900 - 100) with 1800.
  assert (splitText_loop fuel normalized 1800
            (([] ++ [trim (slice normalized 0 1000)]) ++ [trim (slice normalized 900 1900)])
          = Some (([] ++ [trim (slice normalized 0 1000)])
                  ++ [trim (slice normalized 900 1900)])) as ->.
  { destruct fuel; cbn [splitText_loop];
      destruct (Z.ltb_spec 1800 (Z.of_nat (length normalized))); done || lia. }
  cbn [app]. f_equal. f_equal; [|f_equal].
  - rewrite slice_nonneg by lia. rewrite drop_0, take_ge by lia.
    apply trim_fixed. unfold normalized, normalize_ws. apply trim_trimmed.
  - rewrite slice_nonneg by lia. f_equal. rewrite take_ge; [done|].
    rewrite length_drop. lia.
Qed.

Lemma splitText_chunks_embedded_witness :
  Forall (fun chunk =>
            chunk <> []
            /\ forall client, generateEmbedding (Returned client) chunk
                              = embed client chunk)
         [lit "Hello world. Bye."].
Proof.
  apply (splitText_chunks_embedded 5 (lit "  Hello   world.  Bye. ")).
  vm_compute. reflexivity.
Defined.

Lemma splitText_repeats_tail_witness :
  splitText 2 (replicate 950 97%N) = Some [replicate 950 97%N; replicate 50 97%N].
Proof.
  rewrite (splitText_repeats_tail 2 (replicate 950 97%N)).
  - vm_compute. reflexivity.
  - lia.
  - vm_compute. split; [reflexivity|discriminate].
Defined.

End ChunkMore.

(** ** Enrichment requests *)

Section LLMFacts.
Import JS Model Normalizer LLM.

Lemma chunk_loop_concat sentences cur chunks :
  concat (chunk_loop sentences cur chunks).2 ++ (chunk_loop sentences cur chunks).1
  = concat chunks ++ cur ++ concat sentences.
Proof.
  revert cur chunks. induction sentences as [|s rest IH]; intros cur chunks.
  - cbn [chunk_loop concat fst snd]. by rewrite app_nil_r.
  - cbn [chunk_loop concat].
    destruct (_ >? maxChunkLength); rewrite IH.
    + rewrite concat_app. cbn [concat]. by rewrite app_nil_r, <- !app_assoc.
    + by rewrite <- !app_assoc.
Qed.

Lemma chunk_loop_bound (Q : jsstring -> Prop) sentences cur chunks :
  (forall c, Z.of_nat (length c) <= maxChunkLength -> Q c) ->
  Forall Q sentences -> Q cur -> Forall Q chunks ->
  Q (chunk_loop sentences cur chunks).1 /\ Forall Q (chunk_loop sentences cur chunks).2.
Proof.
  intros Hsmall Hs. revert cur chunks.
  induction Hs as [|s rest Hs Hrest IH]; intros cur chunks Hcur Hchunks; [done|].
  cbn [chunk_loop].
  destruct (Z.gtb_spec (Z.of_nat (length cur) + Z.of_nat (length s)) maxChunkLength).
  - apply IH; [done|]. apply Forall_app. split; [done|by constructor].
  - apply IH; [|done]. apply Hsmall. rewrite length_app. lia.
Qed.

(** X19. The chunks that [cleanTranscript] sends for a text above the limit are
    the sentences in order, nothing added or left out, and each chunk is
    within the limit unless it is one sentence that is itself above it. *)
Theorem cleanTranscript_chunks rawText :
  Z.of_nat (length rawText) > maxChunkLength ->
  concat (chunks_of rawText) = concat (sentences_of rawText)
  /\ Forall (fun chunk => Z.of_nat (length chunk) <= maxChunkLength
                          \/ chunk ∈ sentences_of rawText)
            (chunks_of rawText).
Proof.
  intros Hlong. unfold chunks_of.
  destruct (Z.gtb_spec (Z.of_nat (length rawText)) maxChunkLength); [|lia].
  pose proof (chunk_loop_concat (sentences_of rawText) [] []) as Hc.
  pose proof (chunk_loop_bound
                (fun chunk => Z.of_nat (length chunk) <= maxChunkLength
                              \/ chunk ∈ sentences_of rawText)
                (sentences_of rawText) [] []) as Hb.
  destruct (chunk_loop (sentences_of rawText) [] []) as [cur chunks].
  cbn [fst snd concat app] in *.
  destruct Hb as [Hcur Hchunks].
  - intros c Hc'. by left.
  - apply Forall_forall. intros c Hc'. by right.
  - left. unfold maxChunkLength. simpl. lia.
  - constructor.
  - destruct cur as [|c cur].
    + rewrite app_nil_r in Hc. by split.
    + split; [by rewrite concat_app; cbn [concat]; rewrite app_nil_r|].
      apply Forall_app. split; [done|by constructor].
Qed.

Lemma match_sentences_no_term st s :
  Forall (fun c => is_term c = false) s ->
  match_sentences st s = match st with Closing acc => [acc] | _ => [] end
  \/ exists acc, st = Closing acc /\ s <> [] /\ match_sentences st s = [acc].
Proof.
  intros H. revert st. induction H as [|c r Hc Hr IH]; intros st.
  - left. by destruct st.
  - destruct st as [|acc|acc]; cbn [match_sentences]; rewrite Hc.
    + left. destruct (IH (Inside [c])) as [->|(acc & [=] & _)]. done.
    + left. destruct (IH (Inside (acc ++ [c]))) as [->|(acc' & [=] & _)]. done.
    + right. exists acc. split; [done|]. split; [done|].
      destruct (IH (Inside [c])) as [->|(acc' & [=] & _)]. done.
Qed.

(** X20. A text above the limit without any sentence terminator, as captions
    without punctuation are, is sent as two requests: an empty one, then
    the whole text in one piece. *)
Theorem cleanTranscript_unpunctuated rawText :
  Z.of_nat (length rawText) > maxChunkLength ->
  Forall (fun c => is_term c = false) rawText ->
  chunks_of rawText = [[]; rawText].
Proof.
  intros Hlong Hno. unfold chunks_of, sentences_of.
  destruct (Z.gtb_spec (Z.of_nat (length rawText)) maxChunkLength); [|lia].
  destruct (match_sentences_no_term Outside rawText Hno) as [->|(acc & [=] & _)].
  cbn [chunk_loop length]. 
  destruct (Z.gtb_spec (Z.of_nat 0 + Z.of_nat (length rawText)) maxChunkLength); [|lia].
  cbn [app]. destruct rawText; [simpl in *; unfold maxChunkLength in *; lia|done].
Qed.

Lemma chunk_loop_prefix sentences cur chunks :
  exists more, (chunk_loop sentences cur chunks).2 = chunks ++ more.
Proof.
  revert cur chunks. induction sentences as [|s rest IH]; intros cur chunks.
  - exists []. by rewrite app_nil_r.
  - cbn [chunk_loop]. destruct (_ >? maxChunkLength); [|apply IH].
    destruct (IH s (chunks ++ [cur])) as [more ->].
    exists (cur :: more). by rewrite <- app_assoc.
Qed.

(** X21. When the first sentence of a text above the limit is itself above the
    limit, the first request that [cleanTranscript] sends is empty; the
    sentence follows as a chunk of its own. *)
Theorem cleanTranscript_empty_request rawText first rest :
  Z.of_nat (length rawText) > maxChunkLength ->
  sentences_of rawText = first :: rest ->
  Z.of_nat (length first) > maxChunkLength ->
  exists more, chunks_of rawText = [] :: first :: more.
Proof.
  intros Hlong Hs Hfirst. unfold chunks_of. rewrite Hs.
  destruct (Z.gtb_spec (Z.of_nat (length rawText)) maxChunkLength); [|lia].
  cbn [chunk_loop length].
  destruct (Z.gtb_spec (Z.of_nat 0 + Z.of_nat (length first)) maxChunkLength); [|lia].
  cbn [app]. destruct rest as [|s rest].
  - cbn [chunk_loop]. exists [].
    destruct first; [simpl in *; unfold maxChunkLength in *; lia|done].
  - cbn [chunk_loop].
    destruct (Z.gtb_spec (Z.of_nat (length first) + Z.of_nat (length s)) maxChunkLength);
      [|lia].
    cbn [app].
    match goal with |- context [chunk_loop rest s ?c] =>
      destruct (chunk_loop_prefix rest s c) as [more Hmore];
      destruct (chunk_loop rest s c) as [cur chunks] end.
    cbn [snd] in Hmore. subst chunks. destruct cur; [by exists more|].
    eexists. cbn [app]. reflexivity.
Qed.

Lemma match_sentences_closed st body t tail :
  is_term t = true ->
  Forall (fun c => is_term c = false) tail ->
  match_sentences st ((body ++ [t]) ++ tail) = match_sentences st (body ++ [t]).
Proof.
  intros Ht Htail. revert st. induction body as [|c body IH]; intros st.
  - cbn [app]. destruct st as [|acc|acc]; cbn [match_sentences]; rewrite Ht.
    + by destruct (match_sentences_no_term Outside tail Htail) as [->|(acc & [=] & _)].
    + by destruct (match_sentences_no_term (Closing (acc ++ [t])) tail Htail)
        as [->|(acc' & [= <-] & _ & ->)].
    + by destruct (match_sentences_no_term (Closing (acc ++ [t])) tail Htail)
        as [->|(acc' & [= <-] & _ & ->)].
  - cbn [app]. destruct st as [|acc|acc]; cbn [match_sentences];
      destruct (is_term c); by rewrite ?IH.
Qed.

Lemma match_sentences_some st s t :
  is_term t = true ->
  st <> Outside \/ Exists (fun c => is_term c = false) s ->
  match_sentences st (s ++ [t]) <> [].
Proof.
  intros Ht. revert st. induction s as [|c s IH]; intros st H.
  - destruct H as [H|H]; [|by apply Exists_nil in H].
    destruct st; [done| |]; cbn [app match_sentences]; by rewrite Ht.
  - cbn [app]. destruct st as [|acc|acc]; cbn [match_sentences].
    + destruct H as [H|H]; [done|]. destruct (is_term c) eqn:Ec.
      * apply IH. right. apply Exists_cons in H as [H|H]; [congruence|done].
      * apply IH. by left.
    + destruct (is_term c); apply IH; by left.
    + destruct (is_term c); [apply IH; by left|done].
Qed.

(** X22. In a text above the limit that has a sentence, what follows the last
    sentence terminator is in no sentence: it is in no request, as if it
    were not there. *)
Theorem cleanTranscript_drops_tail body t tail :
  Z.of_nat (length (body ++ [t])) > maxChunkLength ->
  is_term t = true ->
  Exists (fun c => is_term c = false) body ->
  Forall (fun c => is_term c = false) tail ->
  chunks_of ((body ++ [t]) ++ tail) = chunks_of (body ++ [t]).
Proof.
  intros Hlong Ht Hbody Htail. unfold chunks_of, sentences_of.
  rewrite (match_sentences_closed Outside body t tail Ht Htail).
  pose proof (match_sentences_some Outside body t Ht (or_intror Hbody)) as Hne.
  assert ((Z.of_nat (length (body ++ [t])) >? maxChunkLength) = true) as ->
    by (apply Z.gtb_lt; lia).
  assert ((Z.of_nat (length ((body ++ [t]) ++ tail)) >? maxChunkLength) = true) as ->
    by (apply Z.gtb_lt; rewrite (length_app (body ++ [t])); lia).
  by destruct (match_sentences Outside (body ++ [t])).
Qed.

Lemma sentences_of_unpunctuated rawText :
  Forall (fun c => is_term c = false) rawText -> sentences_of rawText = [rawText].
Proof.
  intros Hno. unfold sentences_of.
  by destruct (match_sentences_no_term Outside rawText Hno) as [->|(acc & [=] & _)].
Qed.

Lemma replicate_long n (c : N) :
  30000 < Z.of_N n -> Z.of_nat (length (replicate (N.to_nat n) c)) > maxChunkLength.
Proof. intros H. rewrite length_replicate. unfold maxChunkLength. lia. Qed.

Lemma cleanTranscript_chunks_witness :
  let rawText := replicate (N.to_nat 30001) 97%N in
  concat (chunks_of rawText) = concat (sentences_of rawText).
Proof.
  intros rawText.
  apply (cleanTranscript_chunks rawText). apply replicate_long. lia.
Defined.

Lemma cleanTranscript_unpunctuated_witness :
  let rawText := replicate (N.to_nat 30001) 97%N in
  chunks_of rawText = [[]; rawText].
Proof.
  intros rawText. apply cleanTranscript_unpunctuated.
  - apply replicate_long. lia.
  - by apply Forall_replicate.
Defined.

Lemma cleanTranscript_empty_request_witness :
  let rawText := replicate (N.to_nat 30001) 97%N in
  exists more, chunks_of rawText = [] :: rawText :: more.
Proof.
  intros rawText. apply (cleanTranscript_empty_request rawText rawText []).
  - apply replicate_long. lia.
  - apply sentences_of_unpunctuated. by apply Forall_replicate.
  - apply replicate_long. lia.
Defined.

Lemma cleanTranscript_drops_tail_witness :
  let body := replicate (N.to_nat 30000) 97%N in
  chunks_of ((body ++ [DOT]) ++ lit " and then") = chunks_of (body ++ [DOT]).
Proof.
  intros body. apply cleanTranscript_drops_tail.
  - unfold body. rewrite length_app, length_replicate.
    unfold maxChunkLength. simpl length. lia.
  - reflexivity.
  - unfold body. replace (N.to_nat 30000) with (S (N.to_nat 29999)) by lia.
    by apply Exists_cons_hd.
  - by repeat constructor.
Defined.

End LLMFacts.

(** ** Lexical search: pages and sources *)

Section SearchMore.
Import JS Model Search SearchSpec.

Lemma map_set_length k v m : (length (map_set k v m) <= S (length m))%nat.
Proof.
  induction m as [|[k' v'] m IH]; cbn [map_set length]; [lia|].
  destruct (decide (k' = k)); cbn [length]; lia.
Qed.

Lemma unique_by_id_fold_length l m :
  (length (fold_left (fun m v => map_set (id v) v m) l m) <= length m + length l)%nat.
Proof.
  revert m. induction l as [|v l IH]; intros m; cbn [fold_left length]; [lia|].
  etransitivity; [apply IH|]. pose proof (map_set_length (id v) v m). lia.
Qed.

Lemma unique_by_id_length l : (length (unique_by_id l) <= length l)%nat.
Proof.
  unfold unique_by_id. rewrite length_map.
  pose proof (unique_by_id_fold_length l []). simpl in *. lia.
Qed.

(** X23. [searchVideos] limits each of its two queries to [limit] rows and
    cuts the page out of what they returned. A page therefore has at most
    [limit] videos, and the pages together have at most [2 * limit]: from
    [offset = 2 * limit] on, every page is empty, however many videos
    match. *)
Theorem searchVideos_pages videoResults transcriptResults limit offset :
  0 <= limit -> 0 <= offset ->
  Z.of_nat (length (default [] videoResults)) <= limit ->
  Z.of_nat (length (default [] transcriptResults)) <= limit ->
  Z.of_nat (length (searchVideos videoResults transcriptResults limit offset))
  <= Z.min limit (Z.max 0 (2 * limit - offset)).
Proof.
  intros Hlimit Hoffset Hv Ht. unfold searchVideos.
  rewrite slice_nonneg by lia. rewrite length_take, length_drop.
  rewrite (Permutation_length (sort_by_date_perm _)).
  pose proof (unique_by_id_length
                (map flatten_tags (default [] videoResults)
                 ++ map of_hit (default [] transcriptResults))) as Hu.
  rewrite length_app, !length_map in Hu. unfold uniqueVideos. lia.
Qed.

Lemma map_set_other k v m k' v' :
  (k', v') ∈ map_set k v m -> k' <> k -> (k', v') ∈ m.
Proof.
  induction m as [|[k0 v0] m IH]; cbn [map_set]; intros H Hne.
  - apply list_elem_of_singleton in H. congruence.
  - destruct (decide (k0 = k)) as [->|Hk].
    + apply elem_of_cons in H as [[= -> ->]|H]; [done|by constructor].
    + apply elem_of_cons in H as [->|H]; [constructor|].
      constructor. by apply IH.
Qed.

Lemma map_set_same k v m v' :
  NoDup (map fst m) -> (k, v') ∈ map_set k v m -> v' = v.
Proof.
  induction m as [|[k0 v0] m IH]; cbn [map_set map fst]; intros Hnd H.
  - apply list_elem_of_singleton in H. congruence.
  - apply NoDup_cons in Hnd as [Hk0 Hnd].
    destruct (decide (k0 = k)) as [->|Hk].
    + apply elem_of_cons in H as [[= ->]|H]; [done|].
      exfalso. apply Hk0. apply list_elem_of_fmap. by exists (k, v').
    + apply elem_of_cons in H as [[= -> ->]|H]; [done|]. by apply IH.
Qed.

Lemma map_set_NoDup k v m : NoDup (map fst m) -> NoDup (map fst (map_set k v m)).
Proof.
  intros Hnd. rewrite map_set_keys. case_decide; [done|].
  apply NoDup_app. split; [done|]. split; [|apply NoDup_singleton].
  intros x Hx Hx'. apply list_elem_of_singleton in Hx'. by subst x.
Qed.

(** In the [Map] built over [m] from the videos [l], an entry whose key is
    the id of a video of [l] holds a video of [l]. *)
Lemma unique_by_id_fold_source l m k v :
  NoDup (map fst m) ->
  (k, v) ∈ fold_left (fun m v => map_set (id v) v m) l m ->
  k ∈ map id l -> v ∈ l.
Proof.
  revert m. induction l as [|x l IH]; intros m Hnd H Hk.
  - by apply elem_of_nil in Hk.
  - cbn [fold_left] in H. cbn [map] in Hk.
    destruct (decide (k ∈ map id l)) as [Hin|Hout].
    + apply elem_of_cons. right. eapply IH; [|exact H|exact Hin].
      by apply map_set_NoDup.
    + apply elem_of_cons in Hk as [->|Hk]; [|done].
      assert ((id x, v) ∈ map_set (id x) x m) as Hm.
      { clear IH. revert H. generalize (map_set (id x) x m) as m1.
        induction l as [|y l IHl]; intros m1 H; [done|].
        cbn [fold_left] in H. cbn [map] in Hout.
        apply not_elem_of_cons in Hout as [Hy Hl].
        apply (IHl Hl) in H. by apply map_set_other in H. }
      apply map_set_same in Hm as ->; [constructor|done].
Qed.

(** X24. A video that the full-text query on the transcripts returned is given
    as that query returned it, also when the query on titles and
    descriptions found it too: its summary and cleaned text are those of
    the transcript hit. *)
Theorem searchVideos_transcript_hit videoResults transcriptResults limit offset u :
  u ∈ searchVideos videoResults transcriptResults limit offset ->
  id u ∈ map (id ∘ hit_video) (default [] transcriptResults) ->
  exists hit, hit ∈ default [] transcriptResults /\ u = of_hit hit.
Proof.
  intros Hu Hid. unfold searchVideos in Hu. apply slice_elem in Hu.
  rewrite (sort_by_date_perm _) in Hu.
  unfold uniqueVideos, unique_by_id in Hu.
  apply list_elem_of_fmap in Hu as ([k v] & -> & He). cbn [snd] in *.
  destruct (unique_by_id_fold
              (map flatten_tags (default [] videoResults)
               ++ map of_hit (default [] transcriptResults)) [])
    as (_ & Hown & _); [constructor|constructor|].
  cbv zeta in Hown. eapply Forall_forall in Hown; [|exact He]. cbn [fst snd] in Hown.
  subst k. rewrite fold_left_app in He.
  apply unique_by_id_fold_source in He.
  - apply list_elem_of_fmap in He as (hit & -> & Hhit). by exists hit.
  - destruct (unique_by_id_fold (map flatten_tags (default [] videoResults)) [])
      as (Hnd & _ & _); [constructor|constructor|]. exact Hnd.
  - by rewrite map_map.
Qed.

Lemma searchVideos_pages_witness :
  searchVideos (Some [sample 1%N 100; sample 2%N 200])
               (Some [sample_hit 3%N 300; sample_hit 1%N 100]) 2 4 = [].
Proof.
  pose proof (searchVideos_pages (Some [sample 1%N 100; sample 2%N 200])
                (Some [sample_hit 3%N 300; sample_hit 1%N 100]) 2 4
                ltac:(lia) ltac:(lia) ltac:(simpl; lia) ltac:(simpl; lia)) as H.
  destruct (searchVideos _ _ 2 4); [done|]. simpl in H. lia.
Defined.

Lemma searchVideos_transcript_hit_witness :
  let u := of_hit (sample_hit 1%N 100) in
  exists hit, hit ∈ [sample_hit 1%N 100] /\ u = of_hit hit.
Proof.
  intros u.
  apply (searchVideos_transcript_hit (Some [sample 1%N 100; sample 2%N 200])
           (Some [sample_hit 1%N 100]) 20 0 u).
  - vm_compute. apply elem_of_cons. right. apply elem_of_cons. by left.
  - vm_compute. apply elem_of_cons. by left.
Defined.

End SearchMore.

(** ** The ingestion script *)

Section ScriptFacts.
Import JS Model Ingest Script ScriptSpec.
Local Open Scope ingest_scope.

Lemma batch_loop_dry sv channelDbId args videos processedCount stats st :
  dryRun args = true ->
  exists n, batch_loop sv channelDbId args videos processedCount stats st
            = (Returned (n, stats), st).
Proof.
  intros Hdry. revert processedCount.
  induction videos as [|video rest IH]; intros processedCount; [by eexists|].
  cbn [batch_loop]. rewrite Hdry. cbn [negb].
  destruct (limit_reached args processedCount); [by eexists|apply IH].
Qed.

Lemma pages_loop_dry fuel sv api ytChannelId channelDbId args pageToken
    processedCount stats st :
  dryRun args = true ->
  exists res,
    pages_loop fuel sv api ytChannelId channelDbId args pageToken processedCount stats st
    = (res, st)
    /\ forall stats', res = Some (Returned stats') -> stats' = stats.
Proof.
  intros Hdry. revert pageToken processedCount.
  induction fuel as [|fuel IH]; intros pageToken processedCount; [by eexists|].
  cbn [pages_loop].
  destruct (getChannelVideos api ytChannelId pageToken) as [[videos next]|e];
    [|by eexists].
  unfold bind.
  destruct (batch_loop_dry sv channelDbId args videos processedCount stats st Hdry)
    as [n ->].
  destruct (limit_reached args n).
  - eexists. split; [reflexivity|]. by intros ? [= <-].
  - destruct (more_pages next); [apply IH|].
    eexists. split; [reflexivity|]. by intros ? [= <-].
Qed.

Lemma ensureChannel_ingestion api ytChannelId r :
  ingestion (ensureChannel api ytChannelId r).2 = ingestion r.
Proof.
  unfold ensureChannel.
  destruct (single _); [done|].
  destruct (getChannel api ytChannelId) as [[info|]|e]; try done.
  by case_decide.
Qed.

(** X25. In channel mode, a dry run leaves the tables of the ingestion as they
    are and counts nothing; but it is [ensureChannel] that runs first, and
    the store after the run is the store after [ensureChannel]: a channel
    that was not there is created. *)
Theorem main_dry_run fuel sv api args ytChannelId r :
  dryRun args = true -> videoId args = None -> channelId args = Some ytChannelId ->
  (main fuel sv api args r).2 = (ensureChannel api ytChannelId r).2
  /\ ingestion (main fuel sv api args r).2 = ingestion r
  /\ forall stats, (main fuel sv api args r).1 = Some (Returned stats) ->
                   stats = no_stats.
Proof.
  intros Hdry Hv Hc.
  assert ((main fuel sv api args r).2 = (ensureChannel api ytChannelId r).2
          /\ forall stats, (main fuel sv api args r).1 = Some (Returned stats) ->
                           stats = no_stats) as [H1 H2].
  { unfold main. rewrite Hv, Hc.
    destruct (ensureChannel api ytChannelId r) as [[channel|e] r1]; [|done].
    destruct (pages_loop_dry fuel sv api ytChannelId (c_id channel) args None 0
                no_stats (ingestion r1) Hdry) as (res & -> & Hres).
    split; [by destruct r1|exact Hres]. }
  split; [exact H1|]. split; [|exact H2].
  rewrite H1. apply ensureChannel_ingestion.
Qed.

Lemma main_dry_run_witness :
  let run := main 5 IngestSample.services ScriptSample.api ScriptSample.dry
               ScriptSample.run0 in
  run.1 = Some (Returned no_stats)
  /\ map c_youtube_id (channels run.2) = ["UC1"%string]
  /\ ingestion run.2 = IngestSample.state0.
Proof.
  intros run.
  destruct (main_dry_run 5 IngestSample.services ScriptSample.api ScriptSample.dry
              "UC1" ScriptSample.run0 eq_refl eq_refl eq_refl) as (H1 & H2 & H3).
  fold run in H1, H2, H3. split; [reflexivity|]. split; [by rewrite H1|exact H2].
Defined.

Lemma tally_total result stats : total (tally result stats) = total stats + 1.
Proof. unfold total. destruct result; cbn; lia. Qed.

Lemma batch_loop_count sv channelDbId args videos processedCount stats st n stats' :
  0 < limit args ->
  (batch_loop sv channelDbId args videos processedCount stats st).1
  = Returned (n, stats') ->
  processedCount <= limit args -> total stats <= processedCount ->
  n <= limit args /\ total stats' <= n.
Proof.
  intros Hlimit. revert processedCount stats st.
  induction videos as [|video rest IH]; intros processedCount stats st.
  - cbn. by intros [= <- <-].
  - cbn [batch_loop]. unfold limit_reached.
    destruct (Z.gtb_spec (limit args) 0) as [_|?]; [|lia]. cbn [andb].
    destruct (Z.geb_spec processedCount (limit args)) as [?|Hlt].
    { cbn. by intros [= <- <-]. }
    destruct (dryRun args); cbn [negb].
    + intros Hr Hn Ht. eapply IH; [exact Hr|lia|lia].
    + unfold bind.
      destruct (ingestVideo sv channelDbId video (skipLlm args) st) as [result st1].
      intros Hr Hn Ht.
      assert (forall result',
                 (batch_loop sv channelDbId args rest (processedCount + 1)
                    (tally result' stats) st1).1 = Returned (n, stats') ->
                 n <= limit args /\ total stats' <= n) as Hgo.
      { intros result' H'. eapply IH; [exact H'|lia|].
        rewrite tally_total. lia. }
      destruct result as [|e| |e];
        [by apply (Hgo Skipped)|by apply (Hgo (Failed e))|by apply (Hgo Success)|done].
Qed.

Lemma pages_loop_count fuel sv api ytChannelId channelDbId args pageToken
    processedCount stats st stats' :
  0 < limit args ->
  (pages_loop fuel sv api ytChannelId channelDbId args pageToken processedCount stats st).1
  = Some (Returned stats') ->
  processedCount <= limit args -> total stats <= processedCount ->
  total stats' <= limit args.
Proof.
  intros Hlimit. revert pageToken processedCount stats st.
  induction fuel as [|fuel IH]; intros pageToken processedCount stats st; [done|].
  cbn [pages_loop].
  destruct (getChannelVideos api ytChannelId pageToken) as [[videos next]|e]; [|done].
  unfold bind.
  pose proof (batch_loop_count sv channelDbId args videos processedCount stats st) as Hb.
  destruct (batch_loop sv channelDbId args videos processedCount stats st)
    as [[[n stats1]|e] st1]; [|done].
  cbn [fst] in Hb. intros H Hn Ht.
  destruct (Hb n stats1 Hlimit eq_refl Hn Ht) as [Hn1 Ht1].
  destruct (limit_reached args n).
  - cbn in H. injection H as <-. lia.
  - destruct (more_pages next); [by eapply IH|].
    cbn in H. injection H as <-. lia.
Qed.

(** X26. With a limit, the script never counts more videos than the limit,
    whatever the pages hold. *)
Theorem main_limit fuel sv api args r stats :
  0 < limit args -> videoId args = None ->
  (main fuel sv api args r).1 = Some (Returned stats) ->
  total stats <= limit args.
Proof.
  intros Hlimit Hv. unfold main. rewrite Hv.
  destruct (channelId args) as [ytChannelId|]; [|intros [= <-]; unfold total; cbn; lia].
  destruct (ensureChannel api ytChannelId r) as [[channel|e] r1]; [|done].
  pose proof (pages_loop_count fuel sv api ytChannelId (c_id channel) args None 0
                no_stats (ingestion r1) stats Hlimit) as Hp.
  destruct (pages_loop fuel sv api ytChannelId (c_id channel) args None 0 no_stats
              (ingestion r1)) as [res st]. cbn [fst] in *.
  intros ->. apply Hp; [done|lia|unfold total; cbn; lia].
Qed.

Lemma main_limit_witness :
  let run := main 5 IngestSample.services ScriptSample.api ScriptSample.args0
               ScriptSample.run0 in
  exists stats, run.1 = Some (Returned stats) /\ total stats <= 2.
Proof.
  intros run.
  assert (exists stats, run.1 = Some (Returned stats)) as [stats Hs]
    by (eexists; vm_compute; reflexivity).
  exists stats. split; [exact Hs|].
  apply (main_limit 5 IngestSample.services ScriptSample.api ScriptSample.args0
           ScriptSample.run0 stats); [reflexivity|reflexivity|exact Hs].
Defined.

Lemma filter_youtube_id_absent ytChannelId rows :
  ytChannelId ∉ map c_youtube_id rows ->
  filter (fun c => c_youtube_id c = ytChannelId) rows = [].
Proof.
  induction rows as [|c rows IH]; [done|]. cbn [map]. intros H.
  apply not_elem_of_cons in H as [Hc Hrows].
  rewrite filter_cons, decide_False by done. by apply IH.
Qed.

(** X27. [ensureChannel] is repeatable: once it has returned the row of a
    channel under the id that was asked for, it returns that row again and
    changes nothing more, without asking the video API; and it keeps the
    ids of the channels distinct. *)
Theorem ensureChannel_again api ytChannelId r row r' :
  ensureChannel api ytChannelId r = (Returned row, r') ->
  c_youtube_id row = ytChannelId ->
  (forall api', ensureChannel api' ytChannelId r' = (Returned row, r'))
  /\ (NoDup (map c_youtube_id (channels r)) -> NoDup (map c_youtube_id (channels r'))).
Proof.
  unfold ensureChannel.
  destruct (single (filter _ (channels r))) as [existing|] eqn:E.
  - intros [= <- <-] _. split; [|done]. intros api'. by rewrite E.
  - destruct (getChannel api ytChannelId) as [[info|]|e]; try done.
    case_decide as Hfresh; [done|]. intros [= <- <-] Hid. cbn in Hid. cbn [channels].
    split.
    + intros api'. rewrite filter_app, filter_youtube_id_absent by (by rewrite <- Hid).
      rewrite filter_cons, decide_True by done. done.
    + intros Hnd. rewrite map_app. apply NoDup_app. split; [done|].
      split; [|apply NoDup_singleton]. intros x Hx Hx'.
      apply list_elem_of_singleton in Hx'. by subst x.
Qed.

Lemma ensureChannel_again_witness :
  let first := ensureChannel ScriptSample.api "UC1" ScriptSample.run0 in
  exists row, first.1 = Returned row
              /\ ensureChannel ScriptSample.api "UC1" first.2 = (Returned row, first.2).
Proof.
  intros first.
  assert (exists row, first = (Returned row, first.2) /\ c_youtube_id row = "UC1"%string)
    as (row & Hf & Hid) by (eexists; split; reflexivity).
  exists row. split; [by rewrite Hf|].
  by apply (ensureChannel_again ScriptSample.api "UC1" ScriptSample.run0 row first.2 Hf Hid).
Defined.

(** In video mode [main] does not look at the dry-run flag: the video is
    ingested all the same. *)
Example main_video_mode_dry_run fuel sv api args r :
  videoId args <> None ->
  main fuel sv api args r
  = main fuel sv api {| channelId := channelId args; videoId := videoId args;
                        limit := limit args; skipLlm := skipLlm args;
                        dryRun := negb (dryRun args) |} r.
Proof. intros H. unfold main. cbn. by destruct (videoId args). Qed.

End ScriptFacts.

(** ** The cron endpoint and the script *)

Section CronFacts.
Import JS Model Acquire Ingest IngestSpec TagSpec RunSpec Cron CronSpec.
Local Open Scope ingest_scope.

Lemma agree_refl a : agree a a.
Proof. by repeat split. Qed.

Lemma agree_log videoDbId step status details a b :
  agree a b -> agree (log videoDbId step status details a).2 b.
Proof. intros [(H1 & H2 & H3 & H4 & H5) Hs]. by repeat split. Qed.

Lemma agree_update_video_status videoDbId status a b :
  agree a b ->
  agree (update_video_status videoDbId status a).2 (update_video_status videoDbId status b).2.
Proof.
  intros [(H1 & H2 & H3 & H4 & H5) Hs]. repeat split; try done.
  cbn. by rewrite H1.
Qed.

Lemma agree_upsert_transcript p a b :
  agree a b -> agree (upsert_transcript p a).2 (upsert_transcript p b).2.
Proof.
  intros [(H1 & H2 & H3 & H4 & H5) Hs]. unfold upsert_transcript, write_db. cbn.
  rewrite H2. case_decide; cbn; repeat split; try done; by rewrite ?H2, ?H5.
Qed.

Lemma agree_upsert_tag name a b :
  agree a b ->
  (upsert_tag name a).1 = (upsert_tag name b).1
  /\ agree (upsert_tag name a).2 (upsert_tag name b).2.
Proof.
  intros [(H1 & H2 & H3 & H4 & H5) Hs]. unfold upsert_tag. rewrite H3.
  destruct (find_tag name (tags (db b))); cbn; rewrite ?H5, ?H3;
    repeat split; done.
Qed.

Lemma agree_upsert_video_tag videoDbId tagId a b :
  agree a b ->
  agree (upsert_video_tag videoDbId tagId a).2 (upsert_video_tag videoDbId tagId b).2.
Proof.
  intros [(H1 & H2 & H3 & H4 & H5) Hs]. unfold upsert_video_tag, write_db. cbn.
  rewrite H4. case_decide; cbn; repeat split; try done; by rewrite ?H4.
Qed.

Lemma agree_save_tags sv videoDbId tags a b :
  agree a b ->
  (save_tags sv videoDbId tags a).1 = (save_tags sv videoDbId tags b).1
  /\ agree (save_tags sv videoDbId tags a).2 (save_tags sv videoDbId tags b).2.
Proof.
  revert a b. induction tags as [|[name|] tags IH]; intros a b Hag; [done| |done].
  cbn [save_tags]. unfold bind.
  destruct (agree_upsert_tag (toLowerCase sv name) a b Hag) as [Ht Hag1].
  destruct (upsert_tag (toLowerCase sv name) a) as [t a1].
  destruct (upsert_tag (toLowerCase sv name) b) as [t' b1].
  cbn [fst snd] in *. subst t'.
  pose proof (agree_upsert_video_tag videoDbId (tag_id t) a1 b1 Hag1) as Hag2.
  destruct (upsert_video_tag videoDbId (tag_id t) a1) as [[] a2].
  destruct (upsert_video_tag videoDbId (tag_id t) b1) as [[] b2].
  by apply IH.
Qed.

Lemma agree_sym a b : agree a b -> agree b a.
Proof. intros [(H1 & H2 & H3 & H4 & H5) Hs]. by repeat split. Qed.

Lemma acquire_captions env ytVideoId w tr :
  fetchTranscript env ytVideoId = Some tr -> acquire env ytVideoId w = (w, Some tr).
Proof. intros H. unfold acquire. by rewrite H. Qed.

(** The [try] block of the script on a video with captions whose derived
    tags are strings: the writes of the endpoint, on a state that differs
    from the starting one by log entries only. *)
Lemma process_video_captions sv videoDbId ytVideoId st tr :
  fetchTranscript (acquisition sv) ytVideoId = Some tr ->
  all_strings (cron_enrich sv tr).2 ->
  exists st1,
    agree st1 st
    /\ process_video sv videoDbId ytVideoId false st
       = (Success,
          (update_video_status videoDbId completed
             (save_tags sv videoDbId (cron_enrich sv tr).2
                (upsert_transcript
                   {| p_video_id := videoDbId; p_raw_text := text tr;
                      p_cleaned_text := (cron_enrich sv tr).1.1;
                      p_summary := match (cron_enrich sv tr).1.2 with
                                   | [] => None
                                   | _ => Some (cron_enrich sv tr).1.2
                                   end;
                      p_source := source tr; p_processing_status := completed |}
                   st1).2).2).2).
Proof.
  intros Hcap Hstr.
  unfold process_video, try_block, run_acquire, enrich, bind, ret. cbn [negb].
  set (s0 := (log videoDbId "fetch_transcript" "started" NoDetails st).2).
  assert (agree s0 st) as H0 by apply agree_log, agree_refl.
  change (log videoDbId "fetch_transcript" "started" NoDetails st) with (tt, s0).
  cbv beta iota. rewrite (acquire_captions _ _ _ _ Hcap). cbv beta iota.
  set (s1 := {| db := db s0; sys := sys s0 |}).
  assert (agree s1 st) as H1 by exact H0.
  clearbody s1. clear H0. clearbody s0.
  match goal with |- context [log videoDbId "fetch_transcript" "completed" ?d s1] =>
    set (s2 := (log videoDbId "fetch_transcript" "completed" d s1).2);
    assert (agree s2 st) as H2 by (by apply agree_log);
    change (log videoDbId "fetch_transcript" "completed" d s1) with (tt, s2) end.
  cbv beta iota. clearbody s2.
  set (s3 := (log videoDbId "llm_processing" "started" NoDetails s2).2).
  assert (agree s3 st) as H3 by (by apply agree_log).
  change (log videoDbId "llm_processing" "started" NoDetails s2) with (tt, s3).
  cbv beta iota. clearbody s3.
  unfold cron_enrich in *.
  destruct (processTranscript sv (text tr)) as [p|e]; cbn [fst snd] in *.
  - match goal with |- context [log videoDbId "llm_processing" "completed" ?d s3] =>
      set (s4 := (log videoDbId "llm_processing" "completed" d s3).2);
      assert (agree s4 st) as H4 by (by apply agree_log);
      change (log videoDbId "llm_processing" "completed" d s3) with (tt, s4) end.
    cbv beta iota. clearbody s4. exists s4. split; [exact H4|].
    destruct (upsert_transcript _ s4) as [[] s5]. cbn [snd].
    pose proof (save_tags_returns sv videoDbId (tags_of p) s5 Hstr) as Hret.
    destruct (save_tags sv videoDbId (tags_of p) s5) as [saved s6].
    cbn [fst snd] in *. subst saved.
    by destruct (update_video_status videoDbId completed s6) as [[] s7].
  - match goal with |- context [log videoDbId "llm_processing" "failed" ?d s3] =>
      set (s4 := (log videoDbId "llm_processing" "failed" d s3).2);
      assert (agree s4 st) as H4 by (by apply agree_log);
      change (log videoDbId "llm_processing" "failed" d s3) with (tt, s4) end.
    cbv beta iota. clearbody s4. exists s4. split; [exact H4|].
    destruct (upsert_transcript _ s4) as [[] s5]. cbn [snd save_tags]. unfold ret.
    cbn [snd].
    by destruct (update_video_status videoDbId completed s5) as [[] s7].
Qed.

(** The endpoint on a video that it goes on with, once the row of the
    video is there. *)
Lemma cron_captions sv videoDbId ytVideo st tr :
  fetchTranscript (acquisition sv) (yv_id ytVideo) = Some tr ->
  all_strings (cron_enrich sv tr).2 ->
  cron_process sv videoDbId ytVideo st
  = (Returned CronProcessed,
     (update_video_status videoDbId completed
        (save_tags sv videoDbId (cron_enrich sv tr).2
           (upsert_transcript
              {| p_video_id := videoDbId; p_raw_text := text tr;
                 p_cleaned_text := (cron_enrich sv tr).1.1;
                 p_summary := match (cron_enrich sv tr).1.2 with
                              | [] => None
                              | _ => Some (cron_enrich sv tr).1.2
                              end;
                 p_source := source tr; p_processing_status := completed |}
              st).2).2).2).
Proof.
  intros Hcap Hstr. unfold cron_process. rewrite Hcap.
  destruct (cron_enrich sv tr) as [[cleaned summary] tags]. cbn [fst snd] in *.
  unfold bind, ret.
  destruct (upsert_transcript _ st) as [[] s1]. cbn [snd].
  pose proof (save_tags_returns sv videoDbId tags s1 Hstr) as Hret.
  destruct (save_tags sv videoDbId tags s1) as [saved s2].
  cbn [fst snd] in *. subst saved.
  by destruct (update_video_status videoDbId completed s2) as [[] s3].
Qed.

(** X28. The script and the cron endpoint store the same rows for a video with
    captions whose derived tags are strings, the video API giving the
    script the video of the listing: after [ingestVideo] and after the
    body of the endpoint, run from the same state, the videos, the
    transcripts, the tags and their links are the same (the endpoint
    writes no log), and the results correspond: skipped, processed, or the
    error of the insertion. *)
Theorem cron_same_tables sv channelDbId ytVideo st tr :
  getVideo sv (yv_id ytVideo) = Returned (Some ytVideo) ->
  fetchTranscript (acquisition sv) (yv_id ytVideo) = Some tr ->
  all_strings (cron_enrich sv tr).2 ->
  let script := ingestVideo sv channelDbId (yv_id ytVideo) false st in
  let cron := cron_video sv channelDbId ytVideo st in
  agree script.2 cron.2
  /\ ((script.1 = Skipped /\ cron.1 = CronSkipped)
      \/ (script.1 = Success /\ cron.1 = CronProcessed)
      \/ exists e, script.1 = Uncaught e
                   /\ cron.1 = CronFailed (yv_id ytVideo +:+ ": " +:+ e)).
Proof.
  intros Hget Hcap Hstr script cron. subst script cron.
  assert (forall videoDbId s1,
             agree (process_video sv videoDbId (yv_id ytVideo) false s1).2
                   (update_video_status videoDbId completed
                      (save_tags sv videoDbId (cron_enrich sv tr).2
                         (upsert_transcript
                            {| p_video_id := videoDbId; p_raw_text := text tr;
                               p_cleaned_text := (cron_enrich sv tr).1.1;
                               p_summary := match (cron_enrich sv tr).1.2 with
                                            | [] => None
                                            | _ => Some (cron_enrich sv tr).1.2
                                            end;
                               p_source := source tr;
                               p_processing_status := completed |}
                            s1).2).2).2
             /\ (process_video sv videoDbId (yv_id ytVideo) false s1).1 = Success)
    as Hgo.
  { intros videoDbId s1.
    destruct (process_video_captions sv videoDbId (yv_id ytVideo) s1 tr Hcap Hstr)
      as (sA & HA & ->). cbn [fst snd]. split; [|done].
    apply agree_update_video_status, agree_save_tags, agree_upsert_transcript, HA. }
  unfold ingestVideo, cron_video, cron_try, bind, read, ret. cbn [fst snd].
  case_decide as Hdone; [split; [apply agree_refl|by left]|].
  rewrite Hget.
  destruct (select_video (yv_id ytVideo) (db st)) as [row|].
  - destruct (update_video_status (v_id row) processing st) as [[] s1].
    rewrite (cron_captions sv (v_id row) ytVideo s1 tr Hcap Hstr). cbn [fst snd].
    destruct (Hgo (v_id row) s1) as [Hag Hres].
    split; [exact Hag|]. right. left. by split.
  - destruct (insert_video sv channelDbId ytVideo st) as [[videoDbId|e] s1].
    + rewrite (cron_captions sv videoDbId ytVideo s1 tr Hcap Hstr). cbn [fst snd].
      destruct (Hgo videoDbId s1) as [Hag Hres].
      split; [exact Hag|]. right. left. by split.
    + cbn [fst snd]. split; [apply agree_refl|]. right. right. by exists e.
Qed.

Lemma cron_same_tables_witness :
  let script := ingestVideo CronSample.services 7%N "abc" false IngestSample.state0 in
  let cron := cron_video CronSample.services 7%N (IngestSample.video "abc")
                IngestSample.state0 in
  script.1 = Success /\ cron.1 = CronProcessed
  /\ videos (db script.2) = videos (db cron.2)
  /\ transcripts (db script.2) = transcripts (db cron.2)
  /\ length (ingestion_logs (db script.2)) = 4%nat
  /\ ingestion_logs (db cron.2) = [].
Proof.
  intros script cron.
  assert (exists tr, fetchTranscript CronSample.env_captions "abc" = Some tr)
    as [tr Htr] by (by eexists).
  destruct (cron_same_tables CronSample.services 7%N (IngestSample.video "abc")
              IngestSample.state0 tr eq_refl Htr)
    as [[(Hv & Ht & _) _] _].
  - injection Htr as <-. repeat constructor. by eexists.
  - fold script cron in Hv, Ht.
    split; [reflexivity|]. split; [reflexivity|]. split; [exact Hv|].
    split; [exact Ht|]. split; reflexivity.
Defined.

(** X29. Where the script marks a video as failed, the endpoint does not: when
    an element of the tag list is not a string and the tag loop throws on
    it, the endpoint counts the video as failed and leaves its row
    [processing], the transcript request sent and the tags before that
    element stored and linked; it logs nothing. *)
Theorem cron_video_stays_processing sv channelDbId ytVideo st tr p good rest :
  v_status <$> select_video (yv_id ytVideo) (db st) <> Some completed ->
  (select_video (yv_id ytVideo) (db st) = None ->
   yv_id ytVideo ∉ map v_youtube_id (videos (db st))) ->
  fetchTranscript (acquisition sv) (yv_id ytVideo) = Some tr ->
  processTranscript sv (text tr) = Returned p ->
  tags_of p = good ++ TagOther :: rest ->
  all_strings good ->
  exists videoDbId st',
    cron_video sv channelDbId ytVideo st
    = (CronFailed (yv_id ytVideo
                   +:+ ": TypeError: tagName.toLowerCase is not a function"), st')
    /\ (exists row, row ∈ videos (db st') /\ v_id row = videoDbId
                    /\ v_youtube_id row = yv_id ytVideo
                    /\ v_status row = processing)
    /\ (exists payload, WTranscriptUpsert payload ∈ journal (db st')
                        /\ p_video_id payload = videoDbId
                        /\ p_cleaned_text payload = cleanedText p)
    /\ Forall (fun name => linked videoDbId (toLowerCase sv name) (db st'))
              (reached good)
    /\ ingestion_logs (db st') = ingestion_logs (db st).
Proof.
  intros Hnot Hfresh Hcap Hllm Htags Hgood.
  assert (forall videoDbId s1,
             (exists row, row ∈ videos (db s1) /\ v_id row = videoDbId
                          /\ v_youtube_id row = yv_id ytVideo
                          /\ v_status row = processing) ->
             ingestion_logs (db s1) = ingestion_logs (db st) ->
             exists st',
               cron_process sv videoDbId ytVideo s1
               = (Thrown "TypeError: tagName.toLowerCase is not a function", st')
               /\ (exists row, row ∈ videos (db st') /\ v_id row = videoDbId
                               /\ v_youtube_id row = yv_id ytVideo
                               /\ v_status row = processing)
               /\ (exists payload, WTranscriptUpsert payload ∈ journal (db st')
                                   /\ p_video_id payload = videoDbId
                                   /\ p_cleaned_text payload = cleanedText p)
               /\ Forall (fun name => linked videoDbId (toLowerCase sv name) (db st'))
                         (reached good)
               /\ ingestion_logs (db st') = ingestion_logs (db st)) as Hgo.
  { intros videoDbId s1 Hrow Hlogs.
    unfold cron_process, cron_enrich. rewrite Hcap, Hllm, Htags.
    unfold bind, ret.
    destruct (upsert_transcript
                {| p_video_id := videoDbId; p_raw_text := text tr;
                   p_cleaned_text := cleanedText p;
                   p_summary := match summary p with [] => None | _ => Some (summary p) end;
                   p_source := source tr; p_processing_status := completed |} s1)
      as [[] s2] eqn:E.
    rewrite (save_tags_stops sv videoDbId good rest s2 Hgood).
    pose proof (save_tags_frame sv videoDbId good s2) as Hframe.
    pose proof (save_tags_links sv videoDbId good s2) as Hlinked.
    destruct (save_tags sv videoDbId good s2) as [saved s3].
    cbn [fst snd] in *. destruct Hframe as (Hv & Ht & Hl & Hs & ws & Hj & _).
    eexists. split; [reflexivity|].
    apply (f_equal snd) in E. cbn [snd] in E. subst s2.
    unfold upsert_transcript, write_db in *. cbn in *.
    split.
    { rewrite Hv. by case_decide. }
    split.
    { eexists. split; [rewrite Hj; apply elem_of_app; left; apply elem_of_app; right;
                       constructor|]. done. }
    split; [exact Hlinked|].
    rewrite Hl, <- Hlogs. by case_decide. }
  unfold cron_video, cron_try, bind, read, ret. cbn [fst snd].
  rewrite decide_False by done.
  destruct (select_video (yv_id ytVideo) (db st)) as [row|] eqn:Hsel.
  - destruct (update_video_status (v_id row) processing st) as [[] s1] eqn:E.
    apply (f_equal snd) in E. cbn [snd] in E.
    destruct (Hgo (v_id row) s1) as (st' & Hrun & H1 & H2 & H3 & H4).
    + subst s1. exists (with_status processing row). cbn.
      split; [|split; [done|split; [|done]]].
      * apply restatus_elem; [|done]. by eapply select_video_elem.
      * cbn. unfold select_video, single in Hsel.
        destruct (filter _ (videos (db st))) as [|r [|? ?]] eqn:Ef; try done.
        injection Hsel as ->.
        assert (row ∈ filter (fun v => v_youtube_id v = yv_id ytVideo) (videos (db st)))
          as Hin by (rewrite Ef; constructor).
        by apply list_elem_of_filter in Hin as [? _].
    + by subst s1.
    + exists (v_id row), st'. rewrite Hrun. done.
  - specialize (Hfresh eq_refl).
    unfold insert_video. rewrite decide_False by done.
    match goal with |- context [cron_process sv ?v ytVideo ?s] =>
      destruct (Hgo v s) as (st' & Hrun & H1 & H2 & H3 & H4) end.
    + eexists. split; [cbn; apply elem_of_app; right; constructor|]. done.
    + done.
    + eexists _, st'. rewrite Hrun. done.
Qed.

Lemma cron_video_stays_processing_witness :
  exists videoDbId st',
    cron_video CronSample.services_bad_tag 7%N (IngestSample.video "abc")
      IngestSample.state0
    = (CronFailed "abc: TypeError: tagName.toLowerCase is not a function", st')
    /\ (exists row, row ∈ videos (db st') /\ v_id row = videoDbId
                    /\ v_status row = processing).
Proof.
  assert (exists tr, fetchTranscript CronSample.env_captions "abc" = Some tr)
    as [tr Htr] by (by eexists).
  destruct (cron_video_stays_processing CronSample.services_bad_tag 7%N
              (IngestSample.video "abc") IngestSample.state0 tr
              {| cleanedText := text tr; summary := lit "summary";
                 tags_of := [TagString (lit "Cardano"); TagOther] |}
              [TagString (lit "Cardano")] [])
    as (videoDbId & st' & Hrun & (row & Hrow & Hid & _ & Hst) & _).
  - discriminate.
  - intros _. apply not_elem_of_nil.
  - exact Htr.
  - reflexivity.
  - reflexivity.
  - repeat constructor. by eexists.
  - exists videoDbId, st'. split; [exact Hrun|]. by exists row.
Defined.

End CronFacts.

(** ** The enrichment script after a failed enrichment *)

Section EnrichFacts.
Import JS Model Acquire Ingest IngestSpec TagSpec RunSpec CronSpec Enrich EnrichSpec.
Local Open Scope ingest_scope.

Lemma same_tags_upsert_tag name a b :
  same_tags (db a) (db b) ->
  (upsert_tag name a).1 = (upsert_tag name b).1
  /\ same_tags (db (upsert_tag name a).2) (db (upsert_tag name b).2).
Proof.
  intros (H3 & H4 & H5). unfold upsert_tag. rewrite H3.
  destruct (find_tag name (tags (db b))); cbn; rewrite ?H5, ?H3; repeat split; done.
Qed.

Lemma same_tags_upsert_video_tag videoDbId tagId a b :
  same_tags (db a) (db b) ->
  same_tags (db (upsert_video_tag videoDbId tagId a).2)
            (db (upsert_video_tag videoDbId tagId b).2).
Proof.
  intros (H3 & H4 & H5). unfold upsert_video_tag, write_db. cbn.
  rewrite H4. case_decide; cbn; repeat split; try done; by rewrite ?H4.
Qed.

Lemma same_tags_save_tags sv videoDbId tags a b :
  same_tags (db a) (db b) ->
  (save_tags sv videoDbId tags a).1 = (save_tags sv videoDbId tags b).1
  /\ same_tags (db (save_tags sv videoDbId tags a).2)
               (db (save_tags sv videoDbId tags b).2).
Proof.
  revert a b. induction tags as [|[name|] tags IH]; intros a b Hag; [done| |done].
  cbn [save_tags]. unfold bind.
  destruct (same_tags_upsert_tag (toLowerCase sv name) a b Hag) as [Ht Hag1].
  destruct (upsert_tag (toLowerCase sv name) a) as [t a1].
  destruct (upsert_tag (toLowerCase sv name) b) as [t' b1].
  cbn [fst snd] in *. subst t'.
  pose proof (same_tags_upsert_video_tag videoDbId (tag_id t) a1 b1 Hag1) as Hag2.
  destruct (upsert_video_tag videoDbId (tag_id t) a1) as [[] a2].
  destruct (upsert_video_tag videoDbId (tag_id t) b1) as [[] b2].
  by apply IH.
Qed.

(** The preamble of [ingestVideo], with the state it leaves. *)
Lemma ingestVideo_prepared sv channelDbId ytVideoId skip st videoInfo :
  v_status <$> select_video ytVideoId (db st) <> Some completed ->
  (select_video ytVideoId (db st) = None ->
   yv_id videoInfo ∉ map v_youtube_id (videos (db st))) ->
  getVideo sv ytVideoId = Returned (Some videoInfo) ->
  ingestVideo sv channelDbId ytVideoId skip st
  = process_video sv (video_db_id ytVideoId st) ytVideoId skip
      (prepared sv channelDbId videoInfo ytVideoId st).
Proof.
  intros Hnot Hfresh Hget. unfold ingestVideo, video_db_id, prepared, bind, read.
  cbn [fst snd]. rewrite decide_False by done. rewrite Hget.
  destruct (select_video ytVideoId (db st)) as [row|] eqn:Hsel.
  - by destruct (update_video_status (v_id row) processing st) as [[] s1].
  - unfold insert_video. by rewrite decide_False by auto.
Qed.

Lemma prepared_tables sv channelDbId videoInfo ytVideoId st :
  let st1 := prepared sv channelDbId videoInfo ytVideoId st in
  transcripts (db st1) = transcripts (db st)
  /\ tags (db st1) = tags (db st)
  /\ video_tags (db st1) = video_tags (db st)
  /\ sys st1 = sys st.
Proof.
  unfold prepared. destruct (select_video ytVideoId (db st)); [done|].
  unfold insert_video. by case_decide.
Qed.

(** The [try] block when the enrichment fails: the raw transcript goes
    in, without summary. *)
Lemma process_video_raw sv videoDbId ytVideoId st w tr e :
  acquire (acquisition sv) ytVideoId (sys st) = (w, Some tr) ->
  processTranscript sv (text tr) = Thrown e ->
  videoDbId ∉ map t_video_id (transcripts (db st)) ->
  let run := process_video sv videoDbId ytVideoId false st in
  run.1 = Success
  /\ videos (db run.2) = restatus videoDbId completed (videos (db st))
  /\ transcripts (db run.2) = transcripts (db st) ++
       [{| t_id := next_uuid (db st); t_video_id := videoDbId;
           t_raw_text := text tr; t_cleaned_text := text tr;
           t_summary := None; t_source := source tr;
           t_processing_status := completed |}]
  /\ tags (db run.2) = tags (db st)
  /\ video_tags (db run.2) = video_tags (db st)
  /\ next_uuid (db run.2) = (next_uuid (db st) + 1)%N
  /\ sys run.2 = w.
Proof.
  intros Hacq Hllm Hno run. subst run.
  unfold process_video, try_block, run_acquire, enrich, bind, ret, log,
    update_video_status, upsert_transcript, write_db. simpl.
  rewrite Hacq. simpl. rewrite Hllm. simpl.
  rewrite decide_False by done. simpl. done.
Qed.

(** The [try] block when the enrichment succeeds and the tags are
    strings, up to the tag loop. *)
Lemma process_video_full sv videoDbId ytVideoId st w tr p :
  acquire (acquisition sv) ytVideoId (sys st) = (w, Some tr) ->
  processTranscript sv (text tr) = Returned p ->
  all_strings (tags_of p) ->
  videoDbId ∉ map t_video_id (transcripts (db st)) ->
  exists sB,
    process_video sv videoDbId ytVideoId false st
    = (Success,
       (update_video_status videoDbId completed
          (save_tags sv videoDbId (tags_of p) sB).2).2)
    /\ videos (db sB) = videos (db st)
    /\ transcripts (db sB) = transcripts (db st) ++
         [{| t_id := next_uuid (db st); t_video_id := videoDbId;
             t_raw_text := text tr; t_cleaned_text := cleanedText p;
             t_summary := match summary p with [] => None | _ => Some (summary p) end;
             t_source := source tr; t_processing_status := completed |}]
    /\ tags (db sB) = tags (db st)
    /\ video_tags (db sB) = video_tags (db st)
    /\ next_uuid (db sB) = (next_uuid (db st) + 1)%N
    /\ sys sB = w.
Proof.
  intros Hacq Hllm Hstr Hno.
  unfold process_video, try_block, run_acquire, enrich, bind, ret, log,
    update_video_status, upsert_transcript, write_db. simpl.
  rewrite Hacq. simpl. rewrite Hllm. simpl.
  rewrite decide_False by done. simpl.
  match goal with |- context [save_tags sv videoDbId (tags_of p) ?s] =>
    exists s; pose proof (save_tags_returns sv videoDbId (tags_of p) s Hstr) as Hret;
    destruct (save_tags sv videoDbId (tags_of p) s) as [saved s2] end.
  cbn [fst snd] in *. subst saved. done.
Qed.

Lemma filter_no_pending (rows : list TranscriptRow) :
  Forall (fun t => t_summary t <> None) rows ->
  List.filter (fun t => match t_summary t with None => true | Some _ => false end) rows
  = [].
Proof.
  induction 1 as [|t rows Ht _ IH]; [done|]. cbn [List.filter].
  by destruct (t_summary t).
Qed.

Lemma map_update_other videoId (f : TranscriptRow -> TranscriptRow) rows :
  videoId ∉ map t_video_id rows ->
  map (fun t => if decide (t_video_id t = videoId) then f t else t) rows = rows.
Proof.
  induction rows as [|t rows IH]; [done|]. cbn [map]. intros H.
  apply not_elem_of_cons in H as [Ht Hrows].
  rewrite decide_False by done. by rewrite IH.
Qed.

Lemma enrich_transcript_run sv t p st :
  t_raw_text t <> [] ->
  processTranscript sv (t_raw_text t) = Returned p ->
  enrich_transcript sv t st
  = (match (save_tags sv (t_video_id t) (tags_of p)
              (update_transcript (t_video_id t) (cleanedText p) (summary p) st).2).1 with
     | Thrown err => EnrichFailed err
     | Returned _ => EnrichSuccess
     end,
     (save_tags sv (t_video_id t) (tags_of p)
        (update_transcript (t_video_id t) (cleanedText p) (summary p) st).2).2).
Proof.
  intros Hraw Hllm. unfold enrich_transcript.
  destruct (t_raw_text t) as [|c raw] eqn:E; [done|]. rewrite Hllm.
  unfold bind, ret.
  destruct (update_transcript _ _ _ st) as [[] s1]. cbn [snd].
  by destruct (save_tags sv (t_video_id t) (tags_of p) s1) as [[[]|err] s2].
Qed.

(** X30. [enrichVideos] completes what a failed enrichment left. A video is
    ingested while the language model is down: its raw transcript is
    stored without summary. The enrichment script, run afterwards with the
    model up, finds that transcript, counts one success, and leaves the
    videos, the transcripts, the tags and their links as [ingestVideo]
    would have left them, had the model answered during the ingestion.
    Stated for a video without transcript row, a store without other
    transcripts waiting, a summary that is not empty and tags that are
    strings. *)
Theorem enrichVideos_completes sv_down sv channelDbId ytVideoId st videoInfo w tr e p
    limit :
  acquisition sv_down = acquisition sv -> getVideo sv_down = getVideo sv ->
  parseDuration sv_down = parseDuration sv ->
  v_status <$> select_video ytVideoId (db st) <> Some completed ->
  (select_video ytVideoId (db st) = None ->
   yv_id videoInfo ∉ map v_youtube_id (videos (db st))) ->
  getVideo sv ytVideoId = Returned (Some videoInfo) ->
  acquire (acquisition sv) ytVideoId (sys st) = (w, Some tr) ->
  processTranscript sv_down (text tr) = Thrown e ->
  processTranscript sv (text tr) = Returned p ->
  all_strings (tags_of p) -> summary p <> [] -> text tr <> [] ->
  video_db_id ytVideoId st ∉ map t_video_id (transcripts (db st)) ->
  Forall (fun t => t_summary t <> None) (transcripts (db st)) ->
  1 <= limit ->
  let failed_run := ingestVideo sv_down channelDbId ytVideoId false st in
  let repaired := enrichVideos sv limit failed_run.2 in
  let direct := ingestVideo sv channelDbId ytVideoId false st in
  failed_run.1 = Success /\ direct.1 = Success
  /\ repaired.1 = (1, 0)
  /\ agree repaired.2 direct.2.
Proof.
  intros Hacq_eq Hget_eq Hpd_eq Hnot Hfresh Hget Hacq Hdown Hup Hstr Hsum Htext
    Hnone Hwaiting Hlimit failed_run repaired direct.
  subst failed_run repaired direct.
  rewrite (ingestVideo_prepared sv channelDbId ytVideoId false st videoInfo Hnot Hfresh Hget).
  rewrite (ingestVideo_prepared sv_down channelDbId ytVideoId false st videoInfo Hnot Hfresh)
    by (by rewrite Hget_eq).
  assert (prepared sv_down channelDbId videoInfo ytVideoId st
          = prepared sv channelDbId videoInfo ytVideoId st) as ->.
  { unfold prepared, insert_video. by rewrite Hpd_eq. }
  destruct (prepared_tables sv channelDbId videoInfo ytVideoId st) as (Pt & Pg & Pl & Ps).
  set (st1 := prepared sv channelDbId videoInfo ytVideoId st) in *.
  set (videoDbId := video_db_id ytVideoId st) in *.
  assert (videoDbId ∉ map t_video_id (transcripts (db st1))) as Hno1 by (by rewrite Pt).
  assert (acquire (acquisition sv) ytVideoId (sys st1) = (w, Some tr)) as Hacq1
    by (by rewrite Ps).
  destruct (process_video_raw sv_down videoDbId ytVideoId st1 w tr e)
    as (Ar & Av & At & Ag & Al & An & As); [by rewrite Hacq_eq|done|done|].
  destruct (process_video_full sv videoDbId ytVideoId st1 w tr p Hacq1 Hup Hstr Hno1)
    as (sB & -> & Bv & Bt & Bg & Bl & Bn & Bs).
  set (a := (process_video sv_down videoDbId ytVideoId false st1).2) in *.
  clearbody a. cbn [fst snd].
  split; [exact Ar|]. split; [done|].
  (* the row that is waiting *)
  set (row := {| t_id := next_uuid (db st1); t_video_id := videoDbId;
                 t_raw_text := text tr; t_cleaned_text := text tr;
                 t_summary := None; t_source := source tr;
                 t_processing_status := completed |}) in *.
  assert (pending limit (db a) = [row]) as Hpending.
  { unfold pending. rewrite At, List.filter_app.
    rewrite (filter_no_pending (transcripts (db st1))) by (by rewrite Pt).
    replace (Z.to_nat limit) with (S (Z.to_nat (limit - 1))) by lia.
    unfold row. cbn [List.filter t_summary app take]. by rewrite take_nil. }
  unfold enrichVideos. rewrite Hpending. cbn [enrich_loop]. unfold bind, ret.
  rewrite (enrich_transcript_run sv row p a Htext Hup). cbn [t_video_id row].
  set (sA := (update_transcript videoDbId (cleanedText p) (summary p) a).2).
  assert (same_tags (db sA) (db sB)) as Hsame.
  { unfold sA, same_tags. cbn. repeat split; congruence. }
  destruct (same_tags_save_tags sv videoDbId (tags_of p) sA sB Hsame) as [Hres Hfinal].
  pose proof (save_tags_returns sv videoDbId (tags_of p) sA Hstr) as Hret.
  pose proof (save_tags_frame sv videoDbId (tags_of p) sA) as FA.
  pose proof (save_tags_frame sv videoDbId (tags_of p) sB) as FB.
  destruct (save_tags sv videoDbId (tags_of p) sA) as [savedA a'].
  destruct (save_tags sv videoDbId (tags_of p) sB) as [savedB b'].
  cbn [fst snd] in *. subst savedA. subst savedB. cbn [fst snd].
  destruct FA as (FAv & FAt & _ & FAs & _). destruct FB as (FBv & FBt & _ & FBs & _).
  destruct Hfinal as (Hg & Hl & Hn).
  split; [done|]. unfold agree, same_tables. cbn.
  rewrite FAv, FAt, FBv, FBt, FAs, FBs, Hg, Hl, Hn, Bv, Bt, Bs.
  unfold sA. cbn. rewrite Av, At, As.
  repeat split; try done.
  rewrite map_app, map_update_other by done. cbn [map].
  unfold row at 1. cbn [t_video_id]. rewrite decide_True by done.
  f_equal. f_equal. cbn. by destruct (summary p).
Qed.

Lemma enrichVideos_completes_witness :
  let failed_run := ingestVideo EnrichSample.services_down 7%N "abc" false
                      IngestSample.state0 in
  let repaired := enrichVideos IngestSample.services 10 failed_run.2 in
  let direct := ingestVideo IngestSample.services 7%N "abc" false IngestSample.state0 in
  repaired.1 = (1, 0)
  /\ transcripts (db repaired.2) = transcripts (db direct.2)
  /\ tags (db repaired.2) = tags (db direct.2).
Proof.
  intros failed_run repaired direct.
  set (sv := IngestSample.services).
  set (tr := parse_response AcquireSample.response).
  set (acq := acquire (acquisition sv) "abc" (sys IngestSample.state0)).
  assert (acq.2 = Some tr) as H2 by (vm_compute; reflexivity).
  assert (acq = (acq.1, Some tr)) as Hacq
    by (rewrite <- H2; apply surjective_pairing).
  destruct (enrichVideos_completes EnrichSample.services_down sv 7%N "abc"
              IngestSample.state0 (IngestSample.video "abc") acq.1 tr
              "503 unavailable"
              {| cleanedText := text tr; summary := lit "summary";
                 tags_of := [TagString (lit "Governance")] |} 10)
    as (_ & _ & Hcount & [(_ & Ht & Hg & _) _]).
  - reflexivity.
  - reflexivity.
  - reflexivity.
  - discriminate.
  - intros _. apply not_elem_of_nil.
  - reflexivity.
  - exact Hacq.
  - reflexivity.
  - reflexivity.
  - repeat constructor. by eexists.
  - discriminate.
  - vm_compute. discriminate.
  - apply not_elem_of_nil.
  - constructor.
  - lia.
  - by split.
Defined.

End EnrichFacts.
